(** * create-velocity-astro: the template composition engine

    A shallow embedding of the scaffolding tool's core: page-name parsing
    (src/prompts.ts), the route-table mutation engine (src/features/pages.ts),
    the dependency resolver (src/registry/resolver.ts), the registry fetcher
    (src/registry/fetcher.ts) and the overlay pipeline (src/scaffold.ts).

    Conventions.
    - A JavaScript string is a Rocq [string]; its characters are read as the
      code units U+0000..U+00FF.
    - A JavaScript number that holds a navigation order is a [Js.number]: a
      double whose value is a natural number, or Infinity; reading, adding
      and printing round as binary64 does.
    - A record parsed from JSON is a finite map of its own properties;
      [Js.get] reads a property as [record[key]] does, with what every
      object inherits from [Object.prototype].
    - A path is the list of its segments, relative to the target directory;
      [render] gives the text the code compares against registry entries.
    - The working tree is a [node]; every filesystem call of the code is a
      function on it, failing calls return [Err]. *)

From Stdlib Require Import Ascii NArith DecimalString.
From stdpp Require Import gmap strings list fin_maps option.

#[local] Set Warnings "-register-all,-clear-no-such-hyp".
#[local] Open Scope N_scope.

(** ** JavaScript string primitives *)
Module Js.

Definition code (c : ascii) : N := N_of_ascii c.

Definition in_range (lo hi : N) (c : ascii) : bool :=
  (lo <=? code c) && (code c <=? hi).

(** [\d] *)
Definition is_digit (c : ascii) : bool := in_range 48 57 c.

(** [a-z] *)
Definition is_lower (c : ascii) : bool := in_range 97 122 c.

(** [\s] and the characters removed by [String.prototype.trim]: TAB, LF, VT,
    FF, CR, SPACE and NO-BREAK SPACE. *)
Definition is_space (c : ascii) : bool :=
  in_range 9 13 c || (code c =? 32) || (code c =? 160).

(** [toLowerCase] on one code unit: A-Z and the capital letters of the
    Latin-1 supplement (all of U+00C0..U+00DE but the multiplication sign)
    move up by 32. *)
Definition lower_char (c : ascii) : ascii :=
  if in_range 65 90 c || in_range 192 214 c || in_range 216 222 c
  then ascii_of_N (code c + 32) else c.

(** [toUpperCase] on one code unit, for the letters a-z. *)
Definition upper_char (c : ascii) : ascii :=
  if is_lower c then ascii_of_N (code c - 32) else c.

Fixpoint map_chars (f : ascii -> ascii) (s : string) : string :=
  match s with
  | EmptyString => EmptyString
  | String c r => String (f c) (map_chars f r)
  end.

Definition toLowerCase (s : string) : string := map_chars lower_char s.

Fixpoint trimStart (s : string) : string :=
  match s with
  | EmptyString => EmptyString
  | String c r => if is_space c then trimStart r else s
  end.

Fixpoint trimEnd (s : string) : string :=
  match s with
  | EmptyString => EmptyString
  | String c r =>
      match trimEnd r with
      | EmptyString => if is_space c then EmptyString else String c EmptyString
      | r' => String c r'
      end
  end.

Definition trim (s : string) : string := trimEnd (trimStart s).

(** [s.split(sep)] for a one-character separator; the empty string splits
    into one empty piece. *)
Fixpoint split (sep : ascii) (s : string) : list string :=
  match s with
  | EmptyString => [EmptyString]
  | String c r =>
      if decide (c = sep) then EmptyString :: split sep r
      else match split sep r with
           | h :: t => String c h :: t
           | [] => [String c EmptyString]
           end
  end.

(** [l.join(sep)] *)
Fixpoint join (sep : string) (l : list string) : string :=
  match l with
  | [] => EmptyString
  | [x] => x
  | x :: r => x +:+ sep +:+ join sep r
  end.

(** [s.startsWith(p)], as a prefix test that also returns the rest. *)
Fixpoint strip_prefix (p s : string) : option string :=
  match p, s with
  | EmptyString, _ => Some s
  | String a p', String b s' => if decide (a = b) then strip_prefix p' s' else None
  | String _ _, EmptyString => None
  end.

(** [s.indexOf(needle)]: the first position where [needle] occurs; [None]
    stands for -1. *)
Fixpoint indexOf (needle s : string) : option nat :=
  match strip_prefix needle s with
  | Some _ => Some 0%nat
  | None =>
      match s with
      | EmptyString => None
      | String _ r => S <$> indexOf needle r
      end
  end.

Definition includes (needle s : string) : bool :=
  bool_decide (is_Some (indexOf needle s)).

(** [s.slice(0, n)] and [s.slice(n)] for [0 <= n]. *)
Fixpoint slice_to (n : nat) (s : string) : string :=
  match n, s with
  | S k, String c r => String c (slice_to k r)
  | _, _ => EmptyString
  end.

Fixpoint slice_from (n : nat) (s : string) : string :=
  match n, s with
  | S k, String _ r => slice_from k r
  | _, _ => s
  end.

(** The number of (possibly overlapping) positions where [needle] occurs. *)
Fixpoint occurrences (needle s : string) : nat :=
  ((match strip_prefix needle s with Some _ => 1 | None => 0 end) +
   match s with
   | EmptyString => 0
   | String _ r => occurrences needle r
   end)%nat.

(** The code units of a string. *)
Fixpoint chars (s : string) : list ascii :=
  match s with
  | EmptyString => []
  | String c r => c :: chars r
  end.

(** *** Numbers *)

(** The decimal numeral of a natural number. *)
Definition decimal (n : N) : string := NilZero.string_of_uint (N.to_uint n).

(** A number whose value is a natural number, or [Infinity]. *)
Inductive number :=
  | Finite (n : N)
  | Infinity.

(** The double nearest to the natural number [n], ties to the even
    significand: [n] keeps its 53 leading bits [q], the [e] bits [r] that
    are cut decide the last place, and what reaches 2^1024 is [Infinity]. *)
Definition round64 (n : N) : number :=
  let e := N.size n - 53 in
  let q := N.shiftr n e in
  let r := n - N.shiftl q e in
  let half := N.shiftl 1 (e - 1) in
  let up := (0 <? e) && ((half <? r) || ((r =? half) && N.odd q)) in
  let v := N.shiftl (if up then q + 1 else q) e in
  if v <? 2 ^ 1024 then Finite v else Infinity.

(** [a < b] *)
Definition ltb (a b : number) : bool :=
  match a, b with
  | Finite x, Finite y => x <? y
  | Finite _, Infinity => true
  | Infinity, _ => false
  end.

(** [a + k] for a natural number [k] that a double holds. *)
Definition plus (a : number) (k : N) : number :=
  match a with
  | Finite n => round64 (n + k)
  | Infinity => Infinity
  end.

Definition rounds_to (v c : N) : bool :=
  match round64 c with
  | Finite x => x =? v
  | Infinity => false
  end.

(** The decimal with [k] significant digits that is read back as the double
    [v], if there is one: of the two next to [v] the nearer, of two equally
    near the one with the even last digit. *)
Definition nearest (v : N) (k : nat) : option N :=
  let p := 10 ^ N.of_nat (String.length (decimal v) - k) in
  let lo := v / p * p in
  let hi := lo + p in
  match rounds_to v lo, rounds_to v hi with
  | true, true =>
      Some (if (v - lo <? hi - v) || ((v - lo =? hi - v) && N.even (v / p)) then lo else hi)
  | true, false => Some lo
  | false, true => Some hi
  | false, false => None
  end.

(** The decimal with the fewest significant digits that is read back as
    [v], looked for from [k] digits on. *)
Fixpoint shortest (v : N) (k fuel : nat) : N :=
  match fuel with
  | O => v
  | S fuel =>
      match nearest v k with
      | Some c => c
      | None => shortest v (S k) fuel
      end
  end.

Fixpoint strip_zeros (s : string) : string :=
  match s with
  | EmptyString => EmptyString
  | String c r =>
      match strip_zeros r with
      | EmptyString => if decide (c = "0"%char) then EmptyString else String c EmptyString
      | r' => String c r'
      end
  end.

(** [String(x)], and [x] in a template literal: the shortest decimal that is
    read back as [x], written out below 10^21 and with an exponent from
    there on. *)
Definition toString (x : number) : string :=
  match x with
  | Infinity => "Infinity"
  | Finite v =>
      let c := shortest v 1 (String.length (decimal v)) in
      let s := decimal c in
      if c <? 10 ^ 21 then s
      else
        match s with
        | String d rest =>
            String d
              (match strip_zeros rest with
               | EmptyString => EmptyString
               | fraction => "." +:+ fraction
               end) +:+
            "e+" +:+ decimal (N.of_nat (String.length rest))
        | EmptyString => s
        end
  end.

(** *** Properties of records *)

(** The names of the properties of [Object.prototype]. *)
Definition Object_prototype : list string :=
  [ "constructor"; "hasOwnProperty"; "isPrototypeOf"; "propertyIsEnumerable";
    "toLocaleString"; "toString"; "valueOf"; "__proto__";
    "__defineGetter__"; "__defineSetter__"; "__lookupGetter__"; "__lookupSetter__" ].

(** What [record[key]] is for a record parsed from JSON: the entry of an own
    property; for a name of [Object.prototype] that is no own property a
    function or the prototype itself, a truthy value with none of the
    properties of an entry; or [undefined]. *)
Inductive property (A : Type) :=
  | Own (a : A)
  | Inherited
  | Undefined.
Arguments Own {A} a.
Arguments Inherited {A}.
Arguments Undefined {A}.

Definition get {A} (record : gmap string A) (key : string) : property A :=
  match record !! key with
  | Some a => Own a
  | None => if decide (key ∈ Object_prototype) then Inherited else Undefined
  end.

End Js.

(** ** src/prompts.ts *)
Module Prompts.

Definition hyphen : ascii := "-"%char.

(** The class [[a-z0-9-]]. *)
Definition slug_char (c : ascii) : bool :=
  Js.is_lower c || Js.is_digit c || bool_decide (c = hyphen).

(** [.replace(/[^a-z0-9-]/g, '-')] *)
Definition replace_invalid (s : string) : string :=
  Js.map_chars (fun c => if slug_char c then c else hyphen) s.

(** [.replace(/-+/g, '-')]: every maximal run of hyphens becomes one. *)
Fixpoint collapse_hyphens (s : string) : string :=
  match s with
  | EmptyString => EmptyString
  | String c r =>
      if decide (c = hyphen) then
        match r with
        | String d _ => if decide (d = hyphen) then collapse_hyphens r
                        else String c (collapse_hyphens r)
        | EmptyString => String c EmptyString
        end
      else String c (collapse_hyphens r)
  end.

(** The [-$] alternative of [/^-|-$/g]: a hyphen that ends the string. *)
Fixpoint strip_trailing_hyphen (s : string) : string :=
  match s with
  | EmptyString => EmptyString
  | String c EmptyString => if decide (c = hyphen) then EmptyString else s
  | String c r => String c (strip_trailing_hyphen r)
  end.

(** [.replace(/^-|-$/g, '')]: the match at position 0 consumes a leading
    hyphen, the scan then goes on in the rest. *)
Definition strip_edge_hyphens (s : string) : string :=
  match s with
  | String c r => if decide (c = hyphen) then strip_trailing_hyphen r
                  else strip_trailing_hyphen s
  | EmptyString => EmptyString
  end.

Definition sanitize (name : string) : string :=
  strip_edge_hyphens (collapse_hyphens (replace_invalid name)).

Definition reserved : list string := ["index"; "blog"; "404"; "rss"].

Definition parsePageNames (input : string) : list string :=
  if decide (Js.trim input = EmptyString) then []
  else
    filter (fun name => name <> EmptyString /\ name ∉ reserved)
      (sanitize <$>
        filter (fun name => name <> EmptyString)
          ((fun name => Js.toLowerCase (Js.trim name)) <$> Js.split ","%char input)).

(** What the route-table engine expects of a page name. *)
Record valid_slug (s : string) : Prop := {
  slug_nonempty : s <> EmptyString;
  slug_alphabet : forall c, c ∈ Js.chars s -> slug_char c = true;
  slug_no_leading : forall r, s <> String hyphen r;
  slug_no_trailing : forall r, s <> r +:+ String hyphen EmptyString;
  slug_no_double : forall a b, s <> a +:+ String hyphen (String hyphen b);
  slug_not_reserved : s ∉ reserved
}.

End Prompts.

(** ** The working tree and the calls of [node:fs] *)
Module Fs.

Inductive node :=
  | File (content : string)
  | Dir (entries : gmap string node).

Definition path := list string.

Inductive error :=
  | ENOENT | ENOTDIR | EISDIR | EEXIST
  | Thrown (message : string).

Inductive result (A : Type) :=
  | Ok (a : A)
  | Err (e : error).
Arguments Ok {A} a.
Arguments Err {A} e.

#[global] Instance result_ret : MRet result := fun A a => Ok a.
#[global] Instance result_bind : MBind result := fun A B f m =>
  match m with Ok a => f a | Err e => Err e end.
#[global] Instance result_fmap : FMap result := fun A B f m =>
  match m with Ok a => Ok (f a) | Err e => Err e end.

(** A loop whose body may throw. *)
Fixpoint foldM {A S : Type} (f : S -> A -> result S) (s : S) (l : list A) : result S :=
  match l with
  | [] => Ok s
  | x :: r => s' ← f s x; foldM f s' r
  end.

(** The text of a relative path. *)
Definition render (p : path) : string := Js.join "/" p.

Fixpoint lookup (p : path) (n : node) : option node :=
  match p with
  | [] => Some n
  | x :: q =>
      match n with
      | Dir m => m !! x ≫= lookup q
      | File _ => None
      end
  end.

Definition existsSync (p : path) (t : node) : bool :=
  bool_decide (is_Some (lookup p t)).

Definition readFileSync (p : path) (t : node) : result string :=
  match lookup p t with
  | Some (File c) => Ok c
  | Some (Dir _) => Err EISDIR
  | None => Err ENOENT
  end.

(** [readdirSync(p, { withFileTypes: true })] *)
Definition readdirSync (p : path) (t : node) : result (gmap string node) :=
  match lookup p t with
  | Some (Dir m) => Ok m
  | Some (File _) => Err ENOTDIR
  | None => Err ENOENT
  end.

(** [writeFileSync(p, c)]: the parent has to be a directory and [p] must not
    be one. *)
Fixpoint writeFileSync (p : path) (c : string) (n : node) : result node :=
  match p, n with
  | [], File _ => Ok (File c)
  | [], Dir _ => Err EISDIR
  | x :: q, Dir m =>
      match m !! x with
      | Some child => child' ← writeFileSync q c child; Ok (Dir (<[x := child']> m))
      | None => match q with
                | [] => Ok (Dir (<[x := File c]> m))
                | _ :: _ => Err ENOENT
                end
      end
  | _ :: _, File _ => Err ENOTDIR
  end.

(** A chain of fresh directories [p], the innermost one empty. *)
Fixpoint fresh_dirs (p : path) : node :=
  match p with
  | [] => Dir ∅
  | x :: q => Dir {[ x := fresh_dirs q ]}
  end.

(** [mkdirSync(p, { recursive: true })] *)
Fixpoint mkdirSync (p : path) (n : node) : result node :=
  match p, n with
  | [], Dir _ => Ok n
  | [], File _ => Err EEXIST
  | x :: q, Dir m =>
      match m !! x with
      | Some child => child' ← mkdirSync q child; Ok (Dir (<[x := child']> m))
      | None => Ok (Dir (<[x := fresh_dirs q]> m))
      end
  | _ :: _, File _ => Err ENOTDIR
  end.

(** [if (!existsSync(p)) mkdirSync(p, { recursive: true })] *)
Definition ensureDir (p : path) (t : node) : result node :=
  if negb (existsSync p t) then mkdirSync p t else Ok t.

(** [rmSync(p, { recursive: true, force: true })] inside [try]/[catch]:
    whatever is at [p] goes, nothing is thrown. *)
Fixpoint rmSync (p : path) (n : node) : node :=
  match p, n with
  | x :: q, Dir m =>
      match q with
      | [] => Dir (delete x m)
      | _ :: _ => Dir (alter (rmSync q) x m)
      end
  | _, _ => n
  end.

(** [rmSync(p, { force: true })] inside [try]/[catch]: only a file goes, the
    error for a directory is swallowed. *)
Definition rmFileSync (p : path) (t : node) : node :=
  match lookup p t with
  | Some (File _) => rmSync p t
  | _ => t
  end.

(** What a path names: nothing, a file with its content, or a directory. *)
Inductive kind :=
  | IsFile (content : string)
  | IsDir.

Definition kind_of (n : node) : kind :=
  match n with File c => IsFile c | Dir _ => IsDir end.

Definition kind_at (p : path) (t : node) : option kind := kind_of <$> lookup p t.

(** The content of the file at [p], if [p] is a file. *)
Definition file_at (p : path) (t : node) : option string :=
  match lookup p t with
  | Some (File c) => Some c
  | _ => None
  end.

Definition is_dir (n : node) : bool :=
  match n with Dir _ => true | File _ => false end.

(** No file stands where [p] needs a directory: [mkdirSync(p)] succeeds. *)
Fixpoint dir_possible (p : path) (n : node) : bool :=
  match n with
  | File _ => false
  | Dir m =>
      match p with
      | [] => true
      | x :: q => match m !! x with Some child => dir_possible q child | None => true end
      end
  end.

End Fs.
Export Fs(node(..), result(..), error(..)).

(** ** src/features/pages.ts *)
Module Pages.
Import Fs.

Inductive PageLayout := page | landing.

Definition nl : string := String "010"%char EmptyString.
Definition dq : string := String "034"%char EmptyString.
Definition lines (l : list string) : string := Js.join nl l.

Definition capitalize (word : string) : string :=
  match word with
  | EmptyString => EmptyString
  | String c r => String (Js.upper_char c) r
  end.

Definition toTitle (slug : string) : string :=
  Js.join " " (capitalize <$> Js.split "-"%char slug).

Definition toRouteId (slug : string) : string :=
  Js.map_chars (fun c => if decide (c = "-"%char) then "_"%char else c) slug.

(** *** [getNextNavOrder] *)

(** The longest prefix of digits, and what follows it. *)
Fixpoint span_digits (s : string) : string * string :=
  match s with
  | String c r =>
      if Js.is_digit c then let '(ds, rest) := span_digits r in (String c ds, rest)
      else (EmptyString, s)
  | EmptyString => (EmptyString, EmptyString)
  end.

(** [/order:\s*(\d+)/] tried at the start of [s]: the captured digits and the
    length of the match. *)
Definition match_order_at (s : string) : option (string * nat) :=
  match Js.strip_prefix "order:" s with
  | Some r =>
      let '(ds, rest) := span_digits (Js.trimStart r) in
      if decide (ds = EmptyString) then None
      else Some (ds, (String.length s - String.length rest)%nat)
  | None => None
  end.

(** [content.matchAll(/order:\s*(\d+)/g)]: the captures, left to right. After
    a match the scan goes on behind it ([skip] counts the characters of the
    last match still to pass), after a failure one character further. *)
Fixpoint matchAll_order (skip : nat) (s : string) : list string :=
  match s with
  | EmptyString => []
  | String _ r =>
      match skip with
      | S k => matchAll_order k r
      | O =>
          match match_order_at s with
          | Some (ds, len) => ds :: matchAll_order (len - 1) r
          | None => matchAll_order 0 r
          end
      end
  end.

(** The integer that a string of digits writes. *)
Definition integer (ds : string) : N :=
  foldl (fun acc c => 10 * acc + (Js.code c - 48)) 0 (Js.chars ds).

(** [parseInt(ds, 10)] on a string of digits: the double nearest to the
    integer. *)
Definition parseInt (ds : string) : Js.number := Js.round64 (integer ds).

Definition getNextNavOrder (content : string) : Js.number :=
  let maxOrder :=
    foldl (fun maxOrder orderStr =>
             let order := parseInt orderStr in
             if Js.ltb maxOrder order then order else maxOrder)
          (Js.Finite 0) (matchAll_order 0 content) in
  Js.plus maxOrder 10.

(** The words of the specification: [order: <integer>] occurs in [content]
    with value [v] -- the text [order:], any white space, and a whole run of
    digits. *)
Definition order_occurrence (content : string) (v : N) : Prop :=
  exists before ws ds after,
    content = before +:+ "order:" +:+ ws +:+ ds +:+ after /\
    Forall (fun c => Js.is_space c = true) (Js.chars ws) /\
    Forall (fun c => Js.is_digit c = true) (Js.chars ds) /\
    ds <> EmptyString /\
    (forall c r, after = String c r -> Js.is_digit c = false) /\
    v = integer ds.

(** [m] is the largest value of an occurrence, 0 when there is none. *)
Definition max_order (content : string) (m : N) : Prop :=
  (forall v, order_occurrence content v -> v <= m) /\
  (order_occurrence content m \/ (m = 0 /\ forall v, ~ order_occurrence content v)).

(** *** Route entries *)

Definition routes_anchor : string := "} as const satisfies".

Definition baseRoutesPath : path := ["src"; "config"; "routes.ts"].
Definition i18nRoutesPath : path := ["src"; "i18n"; "routes.ts"].

Definition baseRouteText (pageName routeId title : string) (navOrder : Js.number) : string :=
  lines [ "";
          "  // Custom page: " +:+ pageName;
          "  " +:+ routeId +:+ ": {";
          "    path: '/" +:+ pageName +:+ "',";
          "    nav: { show: true, order: " +:+ Js.toString navOrder +:+ ", label: '" +:+ title +:+ "' },";
          "  },";
          "" ].

Definition i18nRouteText (pageName routeId : string) (navOrder : Js.number) : string :=
  lines [ "";
          "  // Custom page: " +:+ pageName;
          "  " +:+ routeId +:+ ": {";
          "    en: '" +:+ pageName +:+ "', es: '" +:+ pageName +:+ "', fr: '" +:+ pageName +:+ "',";
          "    nav: { show: true, order: " +:+ Js.toString navOrder +:+ ", label: 'nav." +:+ routeId +:+ "' },";
          "  },";
          "" ].

(** The text [addBaseRouteEntry] writes back, [None] when it returns early
    (the route is there already, or the anchor is not). *)
Definition baseRouteSplice (content pageName : string) : option string :=
  let routeId := toRouteId pageName in
  let title := toTitle pageName in
  if Js.includes (routeId +:+ ":") content then None
  else
    match Js.indexOf routes_anchor content with
    | None => None
    | Some insertPoint =>
        let navOrder := getNextNavOrder content in
        let newRoute := baseRouteText pageName routeId title navOrder in
        Some (Js.slice_to insertPoint content +:+ newRoute +:+ Js.slice_from insertPoint content)
    end.

Definition addBaseRouteEntry (pageName : string) (t : node) : result node :=
  if negb (existsSync baseRoutesPath t) then Ok t
  else
    content ← readFileSync baseRoutesPath t;
    match baseRouteSplice content pageName with
    | None => Ok t
    | Some newContent => writeFileSync baseRoutesPath newContent t
    end.

Definition i18nRouteSplice (content pageName : string) : option string :=
  let routeId := toRouteId pageName in
  if Js.includes (routeId +:+ ":") content then None
  else
    match Js.indexOf routes_anchor content with
    | None => None
    | Some insertPoint =>
        let navOrder := getNextNavOrder content in
        let newRoute := i18nRouteText pageName routeId navOrder in
        Some (Js.slice_to insertPoint content +:+ newRoute +:+ Js.slice_from insertPoint content)
    end.

(** *** Translation keys *)

(** The characters before the first closing brace, and the text from that
    brace on. *)
Fixpoint span_until_brace (s : string) : string * string :=
  match s with
  | String c r =>
      if decide (c = "}"%char) then (EmptyString, s)
      else let '(body, rest) := span_until_brace r in (String c body, rest)
  | EmptyString => (EmptyString, EmptyString)
  end.

(** [/nav:\s*\{([^}]+)\}/] tried at the start of [s]: the matched text. *)
Definition match_nav_at (s : string) : option string :=
  match Js.strip_prefix "nav:" s with
  | Some r =>
      match Js.strip_prefix "{" (Js.trimStart r) with
      | Some inner =>
          match span_until_brace inner with
          | (String _ _, String _ after) =>
              Some (Js.slice_to (String.length s - String.length after) s)
          | _ => None
          end
      | None => None
      end
  | None => None
  end.

(** [content.match(/nav:\s*\{([^}]+)\}/)]: the leftmost match. *)
Fixpoint match_nav (s : string) : option string :=
  match match_nav_at s with
  | Some m => Some m
  | None =>
      match s with
      | String _ r => match_nav r
      | EmptyString => None
      end
  end.

(** The replacement text of [String.prototype.replace] with a string
    pattern: [$$], [$&], [$`] and [$'] are expanded. *)
Fixpoint getSubstitution (matched before after repl : string) : string :=
  match repl with
  | String a tl =>
      if decide (a = "$"%char) then
        match tl with
        | String c r =>
            if decide (c = "$"%char) then String "$"%char (getSubstitution matched before after r)
            else if decide (c = "&"%char) then matched +:+ getSubstitution matched before after r
            else if decide (c = "`"%char) then before +:+ getSubstitution matched before after r
            else if decide (c = "'"%char) then after +:+ getSubstitution matched before after r
            else String a (getSubstitution matched before after tl)
        | EmptyString => String a EmptyString
        end
      else String a (getSubstitution matched before after tl)
  | EmptyString => EmptyString
  end.

(** [content.replace(pattern, repl)] for a string pattern: the first
    occurrence only. *)
Definition replaceFirst (pattern repl content : string) : string :=
  match Js.indexOf pattern content with
  | None => content
  | Some i =>
      let before := Js.slice_to i content in
      let after := Js.slice_from (i + String.length pattern) content in
      before +:+ getSubstitution pattern before after repl +:+ after
  end.

Fixpoint lastIndexOf (needle s : string) : option nat :=
  match s with
  | EmptyString => match Js.strip_prefix needle s with Some _ => Some 0%nat | None => None end
  | String _ r =>
      match lastIndexOf needle r with
      | Some i => Some (S i)
      | None => match Js.strip_prefix needle s with Some _ => Some 0%nat | None => None end
      end
  end.

Definition is_line_terminator (c : ascii) : bool :=
  (Js.code c =? 10) || (Js.code c =? 13).

(** [^\s*<routeId>:\s*\{] tried at the start of [s]; [routeId] is made of
    [a-z], [0-9] and [_]. *)
Definition page_key_at (routeId s : string) : bool :=
  match Js.strip_prefix (routeId +:+ ":") (Js.trimStart s) with
  | Some r => bool_decide (is_Some (Js.strip_prefix "{" (Js.trimStart r)))
  | None => false
  end.

(** [new RegExp(..., 'm').test(content)]: [^] holds at offset 0 and behind
    every line terminator. *)
Fixpoint page_key_test (routeId : string) (line_start : bool) (s : string) : bool :=
  (line_start && page_key_at routeId s) ||
  match s with
  | String c r => page_key_test routeId (is_line_terminator c) r
  | EmptyString => false
  end.

Definition locales : list string := ["en"; "es"; "fr"].

Definition translationPath (locale : string) : path :=
  ["src"; "i18n"; "translations"; locale +:+ ".ts"].

Definition addNavKey (routeId title content : string) : string :=
  if Js.includes (routeId +:+ ":") content then content
  else
    match match_nav content with
    | Some navSection =>
        let insertPoint := (String.length navSection - 1)%nat in
        let newNavSection :=
          Js.slice_to insertPoint navSection +:+
          ("    " +:+ routeId +:+ ": '" +:+ title +:+ "'," +:+ nl +:+ "  ") +:+
          Js.slice_from insertPoint navSection in
        replaceFirst navSection newNavSection content
    | None => content
    end.

Definition addPageKeys (routeId title content : string) : string :=
  if page_key_test routeId true content then content
  else
    match lastIndexOf "} as const" content with
    | Some insertPoint =>
        let pageTranslations :=
          lines [ "";
                  "  // " +:+ title +:+ " page";
                  "  " +:+ routeId +:+ ": {";
                  "    title: '" +:+ title +:+ "',";
                  "    description: 'Add your " +:+ Js.toLowerCase title +:+ " page description here.',";
                  "  },";
                  "";
                  "" ] in
        Js.slice_to insertPoint content +:+ pageTranslations +:+ Js.slice_from insertPoint content
    | None => content
    end.

Definition addI18nTranslationKeys (routeId title : string) (t : node) : result node :=
  foldM (fun t locale =>
           if negb (existsSync (translationPath locale) t) then Ok t
           else
             content ← readFileSync (translationPath locale) t;
             writeFileSync (translationPath locale)
               (addPageKeys routeId title (addNavKey routeId title content)) t)
        t locales.

Definition addI18nRouteEntry (pageName : string) (t : node) : result node :=
  if negb (existsSync i18nRoutesPath t) then Ok t
  else
    content ← readFileSync i18nRoutesPath t;
    match i18nRouteSplice content pageName with
    | None => Ok t
    | Some newContent =>
        t' ← writeFileSync i18nRoutesPath newContent t;
        addI18nTranslationKeys (toRouteId pageName) (toTitle pageName) t'
    end.

(** *** Page templates *)

Definition layoutName (layout : PageLayout) : string :=
  match layout with landing => "LandingLayout" | page => "PageLayout" end.

Definition pageBody (layout : PageLayout) : list string :=
  [ "  <!-- Content Section -->";
    "  <section class=" +:+ dq +:+ "py-16" +:+ dq +:+ ">";
    "    <div class=" +:+ dq +:+ "container" +:+ dq +:+ ">";
    "      <!-- Your content -->";
    "    </div>";
    "  </section>";
    "</" +:+ layoutName layout +:+ ">";
    "" ].

Definition generatePageTemplate (pageName : string) (layout : PageLayout) : string :=
  let title := toTitle pageName in
  let L := layoutName layout in
  lines ([ "---";
           "import " +:+ L +:+ " from '@/layouts/" +:+ L +:+ ".astro';";
           "---";
           "";
           "<" +:+ L;
           "  title=" +:+ dq +:+ title +:+ dq;
           "  description=" +:+ dq +:+ "Add your description here" +:+ dq;
           ">";
           "  <!-- Hero Section -->";
           "  <section class=" +:+ dq +:+ "py-20 bg-secondary" +:+ dq +:+ ">";
           "    <div class=" +:+ dq +:+ "container" +:+ dq +:+ ">";
           "      <h1 class=" +:+ dq +:+ "text-4xl font-bold text-foreground" +:+ dq +:+ ">" +:+ title +:+ "</h1>";
           "      <p class=" +:+ dq +:+ "mt-4 text-foreground-muted max-w-2xl" +:+ dq +:+ ">";
           "        Add your content here.";
           "      </p>";
           "    </div>";
           "  </section>";
           "" ] ++ pageBody layout).

Definition generateI18nPageTemplate (pageName : string) (layout : PageLayout) : string :=
  let title := toTitle pageName in
  let L := layoutName layout in
  let routeId := toRouteId pageName in
  let titleKey := routeId +:+ ".title" in
  let descKey := routeId +:+ ".description" in
  lines ([ "---";
           "import " +:+ L +:+ " from '@/layouts/" +:+ L +:+ ".astro';";
           "import { locales, isValidLocale, defaultLocale, type Locale } from '@/i18n/config';";
           "import { useTranslations } from '@/i18n/index';";
           "import { routes } from '@/i18n/routes';";
           "";
           "export function getStaticPaths() {";
           "  return locales";
           "    .filter((lang) => lang !== defaultLocale)";
           "    .map((lang) => ({";
           "      params: {";
           "        lang,";
           "        " +:+ routeId +:+ ": routes." +:+ routeId +:+ "[lang],";
           "      },";
           "    }));";
           "}";
           "";
           "const { lang } = Astro.params;";
           "";
           "if (!lang || !isValidLocale(lang)) {";
           "  return Astro.redirect('/');";
           "}";
           "";
           "const locale = lang as Locale;";
           "const t = useTranslations(locale);";
           "---";
           "";
           "<" +:+ L;
           "  title={t('" +:+ titleKey +:+ "') || '" +:+ title +:+ "'}";
           "  description={t('" +:+ descKey +:+ "') || 'Add your description here'}";
           "  lang={locale}";
           "  routeId=" +:+ dq +:+ routeId +:+ dq;
           ">";
           "  <!-- Hero Section -->";
           "  <section class=" +:+ dq +:+ "py-20 bg-secondary" +:+ dq +:+ ">";
           "    <div class=" +:+ dq +:+ "container" +:+ dq +:+ ">";
           "      <h1 class=" +:+ dq +:+ "text-4xl font-bold text-foreground" +:+ dq +:+ ">";
           "        {t('" +:+ titleKey +:+ "') || '" +:+ title +:+ "'}";
           "      </h1>";
           "      <p class=" +:+ dq +:+ "mt-4 text-foreground-muted max-w-2xl" +:+ dq +:+ ">";
           "        {t('" +:+ descKey +:+ "') || 'Add your content here.'}";
           "      </p>";
           "    </div>";
           "  </section>";
           "" ] ++ pageBody layout).

(** *** [generatePages] *)

Definition pagesDir : path := ["src"; "pages"].
Definition langDir : path := pagesDir ++ ["[lang]"].

Definition pageFile (pageName : string) : path := pagesDir ++ [pageName +:+ ".astro"].
Definition langPageFile (pageName : string) : path :=
  langDir ++ ["[..." +:+ toRouteId pageName +:+ "].astro"].

(** The body of the first loop: the page of the default locale. *)
Definition writeBasePage (layout : PageLayout) (isI18n : bool)
    (st : node * list string) (pageName : string) : result (node * list string) :=
  let '(t, generatedFiles) := st in
  t ← writeFileSync (pageFile pageName) (generatePageTemplate pageName layout) t;
  let generatedFiles := generatedFiles ++ ["src/pages/" +:+ pageName +:+ ".astro"] in
  t ← (if negb isI18n then addBaseRouteEntry pageName t else Ok t);
  Ok (t, generatedFiles).

(** The body of the second loop: the page below [[lang]]. *)
Definition writeLangPage (layout : PageLayout)
    (st : node * list string) (pageName : string) : result (node * list string) :=
  let '(t, generatedFiles) := st in
  t ← writeFileSync (langPageFile pageName) (generateI18nPageTemplate pageName layout) t;
  let generatedFiles :=
    generatedFiles ++ ["src/pages/[lang]/[..." +:+ toRouteId pageName +:+ "].astro"] in
  t ← addI18nRouteEntry pageName t;
  Ok (t, generatedFiles).

(** The working tree after the call and the returned [generatedFiles]; a
    page name is one path segment. *)
Definition generatePages (pages : list string) (layout : PageLayout) (isI18n : bool)
    (t : node) : result (node * list string) :=
  match pages with
  | [] => Ok (t, [])
  | _ :: _ =>
      t ← ensureDir pagesDir t;
      st ← foldM (writeBasePage layout isI18n) (t, []) pages;
      if isI18n then
        t ← ensureDir langDir st.1;
        foldM (writeLangPage layout) (t, st.2) pages
      else Ok st
  end.

End Pages.



(** ** src/registry/types.ts, src/registry/resolver.ts, src/registry/fetcher.ts *)
Module Registry.

Record CategoryEntry := {
  cat_name : string;
  cat_description : string
}.

Record UtilityEntry := {
  util_name : string;
  util_description : string;
  util_files : list string;
  util_npm : list string
}.

Record ComponentDependencies := {
  dep_utilities : list string;
  dep_components : list string
}.

Record ComponentEntry := {
  comp_name : string;
  category : string;
  comp_files : list string;
  dependencies : ComponentDependencies;
  premium : bool
}.

(** A [Record<string, T>] is the finite map of its own properties;
    [Object.keys] lists its keys in the order of the map, and [Js.get] is
    the access [record[key]]. *)
Record ComponentRegistry := {
  version : string;
  categories : gmap string CategoryEntry;
  utilities : gmap string UtilityEntry;
  components : gmap string ComponentEntry
}.

Inductive ComponentSelectionMode := mode_none | mode_categories | mode_individual | mode_all.

Record ComponentSelection := {
  mode : ComponentSelectionMode;
  sel_categories : option (list string);
  sel_components : option (list string)
}.

Record ResolvedComponents := {
  res_components : list string;
  res_utilities : list string;
  res_files : list string;
  res_npmPackages : list string
}.

(** [Set.prototype.add] on a set kept in insertion order. *)
Definition set_add (x : string) (s : list string) : list string :=
  if decide (x ∈ s) then s else s ++ [x].

Definition set_add_all (xs : list string) (s : list string) : list string :=
  foldl (fun s x => set_add x s) s xs.

(** The three sets of the closure of [resolveDependencies], the warnings
    printed so far, and a ghost log: every identifier whose expansion began
    (the call that got past both early returns), in order. The code never
    reads the log. *)
Record state := {
  resolved : list string;
  utils : list string;
  files : list string;
  warnings : list string;
  expansions : list string
}.

Definition initial : state :=
  {| resolved := []; utils := []; files := []; warnings := []; expansions := [] |}.

Definition keys {A} (m : gmap string A) : list string := (map_to_list m).*1.

Fixpoint fold_option {A S : Type} (f : S -> A -> option S) (s : S) (l : list A) : option S :=
  match l with
  | [] => Some s
  | x :: r => s' ← f s x; fold_option f s' r
  end.

(** The inner function [resolve]; [None] is a call that throws. [fuel]
    bounds the depth of the recursion: a call chain deeper than [fuel] is
    the stack overflow of a recursion that does not come back. An
    identifier that the record answers with an inherited value gets past
    the test [!component], and reading [component.dependencies.components]
    throws a [TypeError]. *)
Fixpoint resolve (fuel : nat) (registry : ComponentRegistry) (componentId : string)
    (st : state) : option state :=
  match fuel with
  | O => None
  | S fuel =>
      if decide (componentId ∈ resolved st) then Some st
      else
        match Js.get (components registry) componentId with
        | Js.Undefined =>
            Some {| resolved := resolved st; utils := utils st; files := files st;
                    warnings := warnings st ++ ["Component not found: " +:+ componentId];
                    expansions := expansions st |}
        | Js.Inherited => None
        | Js.Own component =>
            let st := {| resolved := resolved st; utils := utils st; files := files st;
                         warnings := warnings st;
                         expansions := expansions st ++ [componentId] |} in
            st ← fold_option (fun st dep => resolve fuel registry dep st) st
                   (dep_components (dependencies component));
            Some {| resolved := set_add componentId (resolved st);
                    utils := set_add_all (dep_utilities (dependencies component)) (utils st);
                    files := set_add_all (comp_files component) (files st);
                    warnings := warnings st;
                    expansions := expansions st |}
        end
  end.

Definition requestedComponents (selection : ComponentSelection)
    (registry : ComponentRegistry) : list string :=
  match mode selection with
  | mode_none => []
  | mode_all => keys (components registry)
  | mode_categories =>
      match sel_categories selection with
      | Some cats =>
          (filter (fun entry => category entry.2 ∈ cats)
                  (map_to_list (components registry))).*1
      | None => []
      end
  | mode_individual => default [] (sel_components selection)
  end.

(** The loop over the utilities at the end: their files and packages. For
    an inherited value [utility.files] is [undefined], and the loop over it
    throws a [TypeError]. *)
Definition collectUtilities (registry : ComponentRegistry) (st : state)
    : option (list string * list string) :=
  fold_option (fun '(files, npmPackages) utilId =>
                 match Js.get (utilities registry) utilId with
                 | Js.Own utility =>
                     Some (set_add_all (util_files utility) files,
                           set_add_all (util_npm utility) npmPackages)
                 | Js.Inherited => None
                 | Js.Undefined => Some (files, npmPackages)
                 end)
              (files st, []) (utils st).

(** The whole run: the state of the closure after the traversal, and the
    returned value; [None] when the run throws. *)
Definition resolveRun (fuel : nat) (selection : ComponentSelection)
    (registry : ComponentRegistry) : option (state * ResolvedComponents) :=
  match mode selection with
  | mode_none =>
      Some (initial, {| res_components := []; res_utilities := []; res_files := [];
                        res_npmPackages := [] |})
  | _ =>
      st ← fold_option (fun st componentId => resolve fuel registry componentId st)
             initial (requestedComponents selection registry);
      '(files, npmPackages) ← collectUtilities registry st;
      Some (st, {| res_components := resolved st; res_utilities := utils st;
                   res_files := files; res_npmPackages := npmPackages |})
  end.

Definition resolveDependencies (fuel : nat) (selection : ComponentSelection)
    (registry : ComponentRegistry) : option ResolvedComponents :=
  snd <$> resolveRun fuel selection registry.

(** A ranking shows that the dependencies among the components of the
    registry have no cycle: a component ranks above those it depends on. *)
Definition ranked (registry : ComponentRegistry) (rank : string -> nat) : Prop :=
  forall id component dep,
    components registry !! id = Some component ->
    dep ∈ dep_components (dependencies component) ->
    is_Some (components registry !! dep) ->
    (rank dep < rank id)%nat.

Definition acyclic (registry : ComponentRegistry) : Prop :=
  exists rank, ranked registry rank.

(** [record[key]] is an entry or [undefined]: [key] is an own property, or
    no name of [Object.prototype]. *)
Definition plain {A} (record : gmap string A) (key : string) : Prop :=
  Js.get record key <> Js.Inherited.

(** The registry names no inherited property: every dependency of a
    component is plain among the components, and every utility that a
    component names is plain among the utilities. *)
Definition names_plain (registry : ComponentRegistry) : Prop :=
  forall id component,
    components registry !! id = Some component ->
    (forall dep, dep ∈ dep_components (dependencies component) ->
                 plain (components registry) dep) /\
    (forall util, util ∈ dep_utilities (dependencies component) ->
                  plain (utilities registry) util).


(** *** [fetchRegistry] *)

(** What the network gives for the one request of [fetchRegistry]. *)
Inductive response :=
  | FetchRejected (message : string)
  | HttpError (status statusText : string)
  | InvalidJson (message : string)
  | Json (registry : ComponentRegistry).

Definition registry_unavailable (cause : string) : error :=
  Thrown (Pages.lines [ "Could not fetch component registry. Please check your internet connection.";
                        cause ]).

(** The cache before the call, the answer of the network; the returned
    registry or the thrown error, and the cache after the call. *)
Definition fetchRegistry (cachedRegistry : option ComponentRegistry) (net : response)
    : result ComponentRegistry * option ComponentRegistry :=
  match cachedRegistry with
  | Some registry => (Ok registry, cachedRegistry)
  | None =>
      match net with
      | Json registry => (Ok registry, Some registry)
      | FetchRejected message => (Err (registry_unavailable message), None)
      | HttpError status statusText =>
          (Err (registry_unavailable
                  ("Failed to fetch registry: " +:+ status +:+ " " +:+ statusText)), None)
      | InvalidJson message => (Err (registry_unavailable message), None)
      end
  end.

End Registry.


(** ** src/scaffold.ts *)
Module Scaffold.
Import Fs Pages Registry.

Definition CLEANUP_ITEMS : list path :=
  [ ["pnpm-lock.yaml"]; ["package-lock.json"]; ["yarn.lock"]; ["bun.lockb"]; [".git"] ].

Definition DEMO_CONTENT : list path :=
  [ ["src"; "components"; "landing"];
    ["src"; "components"; "hero"];
    ["src"; "pages"; "index.astro"];
    ["src"; "pages"; "about.astro"];
    ["src"; "pages"; "contact.astro"];
    ["src"; "pages"; "components.astro"];
    ["src"; "pages"; "[lang]"; "index.astro"];
    ["src"; "pages"; "[lang]"; "[...about].astro"];
    ["src"; "pages"; "[lang]"; "[...contact].astro"];
    ["src"; "pages"; "[lang]"; "[...components].astro"];
    ["src"; "layouts"; "LandingLayout.astro"];
    ["src"; "content"; "blog"];
    ["src"; "content"; "faqs"];
    ["src"; "content"; "authors"];
    ["src"; "content"; "pages"] ].

Definition OPTIONAL_COMPONENT_DIRS : list path :=
  [ ["src"; "components"; "ui"];
    ["src"; "components"; "patterns"];
    ["src"; "components"; "hero"] ].

(** [copyTemplateFiles(src, dest)]: [src] is the template, a tree of its own;
    [dest] is a path of the working tree. *)
Fixpoint copyTemplateFiles (src : node) (dest : path) (t : node) : result node :=
  match src with
  | File _ => Err ENOTDIR
  | Dir entries =>
      t ← ensureDir dest t;
      map_fold (fun name entry acc =>
                  t ← acc;
                  match entry with
                  | Dir _ => copyTemplateFiles entry (dest ++ [name]) t
                  | File content => writeFileSync (dest ++ [name]) content t
                  end)
               (Ok t) entries
  end.

Definition removeItems (items : list path) (t : node) : node :=
  foldl (fun t item => if existsSync item t then rmSync item t else t) t items.

(** The files below [n], each with [relPath] in front; a file as [n] is an
    entry that is not a directory. *)
Fixpoint walk (n : node) (relPath : path) : list path :=
  match n with
  | File _ => [relPath]
  | Dir entries =>
      map_fold (fun name entry results => results ++ walk entry (relPath ++ [name]))
               [] entries
  end.

Definition walkFilesRelative (absDir relativeBase : path) (t : node) : result (list path) :=
  match lookup absDir t with
  | None => Ok []
  | Some (File _) => Err ENOTDIR
  | Some (Dir entries) => Ok (walk (Dir entries) relativeBase)
  end.

(** [removeEmptyDirs] on the tree below a directory: what is left of it,
    [None] when the directory itself goes. Files are not visited. *)
Fixpoint prune (n : node) : option node :=
  match n with
  | File content => Some (File content)
  | Dir entries =>
      let remaining := omap prune entries in
      if decide (size remaining = 0%nat) then None else Some (Dir remaining)
  end.

(** The tree with [n'] in the place of what is at [p]. *)
Fixpoint replace_at (p : path) (n' : node) (t : node) : node :=
  match p, t with
  | [], _ => n'
  | x :: q, Dir m => Dir (alter (replace_at q n') x m)
  | _ :: _, File _ => t
  end.

Definition removeEmptyDirs (dir : path) (t : node) : result node :=
  match lookup dir t with
  | None => Ok t
  | Some (File _) => Err ENOTDIR
  | Some (Dir entries) =>
      match prune (Dir entries) with
      | Some n' => Ok (replace_at dir n' t)
      | None => Ok (rmSync dir t)
      end
  end.

Definition componentDirs : list path :=
  [ ["src"; "components"; "ui"];
    ["src"; "components"; "patterns"];
    ["src"; "components"; "hero"] ].

(** The body of the loop of [keepOnlyFiles] for one directory. *)
Definition keepOnlyIn (filesToKeep : gset string) (t : node) (dir : path) : result node :=
  if negb (existsSync dir t) then Ok t
  else
    allFiles ← walkFilesRelative dir dir t;
    let t := foldl (fun t relativePath =>
                      if decide (render relativePath ∈ filesToKeep) then t
                      else rmFileSync relativePath t)
                   t allFiles in
    removeEmptyDirs dir t.

Definition keepOnlyFiles (filesToKeep : gset string) (t : node) : result node :=
  foldM (keepOnlyIn filesToKeep) t componentDirs.

Definition registry_warning : string :=
  "Could not fetch component registry, keeping all components".

(** [applyComponentSelection]: the tree and what was printed with
    [console.warn]. [cache] and [net] are what [fetchRegistry] finds, [fuel]
    the depth the resolver may recurse to; an error of either is caught. *)
Definition applyComponentSelection (selection : ComponentSelection)
    (cache : option ComponentRegistry) (net : response) (fuel : nat)
    (t : node) : result (node * list string) :=
  match mode selection with
  | mode_all => Ok (t, [])
  | mode_none => Ok (removeItems OPTIONAL_COMPONENT_DIRS t, [])
  | _ =>
      match (fetchRegistry cache net).1 with
      | Err _ => Ok (t, [registry_warning])
      | Ok registry =>
          match resolveDependencies fuel selection registry with
          | None => Ok (t, [registry_warning])
          | Some resolved =>
              let filesToKeep : gset string := list_to_set (res_files resolved) in
              t ← keepOnlyFiles filesToKeep t;
              t ← (if decide ("cn" ∈ res_utilities resolved)
                   then ensureDir ["src"; "lib"] t else Ok t);
              Ok (t, [])
          end
      end
  end.

Definition applyI18nOverlay (i18nTemplate : option node) (t : node) : result node :=
  match i18nTemplate with
  | None => Err (Thrown "Could not find i18n template. Package may be corrupted.")
  | Some template => copyTemplateFiles template [] t
  end.

Definition applyBaseTemplate (baseTemplate : option node) (t : node) : result node :=
  match baseTemplate with
  | None => Err (Thrown "Could not find base template. Package may be corrupted.")
  | Some template => copyTemplateFiles template [] t
  end.

Definition createContentDirectories (t : node) : result node :=
  foldM (fun t dir =>
           if negb (existsSync dir t) then
             t ← mkdirSync dir t; writeFileSync (dir ++ [".gitkeep"]) "" t
           else Ok t)
        t [ ["src"; "content"; "blog"] ].

Inductive PackageManager := pnpm | npm | yarn | bun.

Record ScaffoldOptions := {
  projectName : string;
  demo : bool;
  componentSelection : ComponentSelection;
  i18n : bool;
  pages : list string;
  pageLayout : PageLayout;
  packageManager : PackageManager
}.

(** What a run finds outside the working tree: the directory that
    [downloadTemplate] leaves, the two templates of the package (absent when
    the package is damaged), the registry cache and the answer of the
    network, and the depth of the call stack. *)
Record World := {
  download : result node;
  i18nTemplate : option node;
  baseTemplate : option node;
  registryCache : option ComponentRegistry;
  network : response;
  stack : nat
}.

Section Project.

(** [JSON.stringify] of the parsed [package.json] with the fields of
    [updatePackageJson] set and deleted, for a project name and the text of
    the file; [None] when [JSON.parse] throws. *)
Variable packageJson : string -> string -> option string.

(** Modelled from the spec: src/utils/velocity-config.ts is missing. The
    provenance record is one file, [.velocity.json], whose text depends on
    the options and the tree; [None] when building it throws. *)
Variable velocityConfig : ScaffoldOptions -> node -> option string.

Definition updatePackageJson (name : string) (t : node) : result node :=
  if negb (existsSync ["package.json"] t) then
    Err (Thrown "package.json not found in template")
  else
    text ← readFileSync ["package.json"] t;
    match packageJson name text with
    | None => Err (Thrown "JSON.parse")
    | Some text' => writeFileSync ["package.json"] text' t
    end.

(** Step 6.5, inside [try]/[catch]: a failure leaves the tree as it is. *)
Definition writeProvenance (options : ScaffoldOptions) (t : node) : node :=
  match velocityConfig options t with
  | None => t
  | Some text =>
      match writeFileSync [".velocity.json"] text t with
      | Ok t' => t'
      | Err _ => t
      end
  end.

(** Steps 1 to 6.5 of [scaffold]: the working tree that is handed to
    [git init] and to the package manager. *)
Definition scaffold (options : ScaffoldOptions) (w : World) : result node :=
  (* Step 1 *)
  t ← match download w with
      | Ok t => Ok (removeItems CLEANUP_ITEMS t)
      | Err _ => Err (Thrown "Could not download template from GitHub. Please check your internet connection.")
      end;
  (* Step 2 *)
  t ← match mode (componentSelection options) with
      | mode_all => Ok t
      | _ => fst <$> applyComponentSelection (componentSelection options)
                       (registryCache w) (network w) (stack w) t
      end;
  (* Step 3 *)
  t ← (if i18n options then applyI18nOverlay (i18nTemplate w) t else Ok t);
  (* Step 4 *)
  t ← (if negb (demo options) then
         t ← applyBaseTemplate (baseTemplate w) (removeItems DEMO_CONTENT t);
         createContentDirectories t
       else Ok t);
  (* Step 5 *)
  t ← match pages options with
      | [] => Ok t
      | _ :: _ => fst <$> generatePages (pages options) (pageLayout options) (i18n options) t
      end;
  (* Step 6 *)
  t ← updatePackageJson (projectName options) t;
  (* Step 6.5 *)
  Ok (writeProvenance options t).

End Project.

End Scaffold.


(** ** src/registry/resolver.ts and src/registry/fetcher.ts: the other exports *)
Module RegistryTools.
Import Registry.

(** [getComponentsByCategory] *)
Definition getComponentsByCategory (categoryId : string) (registry : ComponentRegistry)
    : list string :=
  (filter (fun entry => category entry.2 = categoryId)
          (map_to_list (components registry))).*1.

(** The value [getDependencyTree] returns when it is not [null]. *)
Inductive DependencyTree :=
  | TreeNode (id name : string) (deps : list DependencyTree).

(** [getDependencyTree]: the returned value, [None] for [null], and the set
    [visited], which the calls share, after the call; the outer [None] is a
    call that throws. [fuel] bounds the depth of the recursion as in
    [resolve], and an inherited value throws a [TypeError] as there. *)
Fixpoint getDependencyTree (fuel : nat) (componentId : string)
    (registry : ComponentRegistry) (visited : list string)
    : option (option DependencyTree * list string) :=
  match fuel with
  | O => None
  | S fuel =>
      if decide (componentId ∈ visited) then Some (None, visited)
      else
        let visited := set_add componentId visited in
        match Js.get (components registry) componentId with
        | Js.Undefined => Some (None, visited)
        | Js.Inherited => None
        | Js.Own component =>
            '(mapped, visited) ←
              fold_option
                (fun '(mapped, visited) dep =>
                   '(d, visited) ← getDependencyTree fuel dep registry visited;
                   Some (mapped ++ [d], visited))
                ([], visited) (dep_components (dependencies component));
            Some (Some (TreeNode componentId (comp_name component) (omap id mapped)),
                  visited)
        end
  end.

Record Validation := {
  valid : bool;
  invalid : list string
}.

(** [!record[id]]: only [undefined] is falsy. *)
Definition missing {A} (record : gmap string A) (id : string) : Prop :=
  Js.get record id = Js.Undefined.

#[global] Instance missing_dec {A} (record : gmap string A) id : Decision (missing record id).
Proof. unfold missing. destruct (Js.get record id); (by left) || (by right). Defined.

(** [validateComponents] *)
Definition validateComponents (componentIds : list string)
    (registry : ComponentRegistry) : Validation :=
  let invalid := filter (missing (components registry)) componentIds in
  {| valid := bool_decide (length invalid = 0%nat); invalid := invalid |}.

(** [validateCategories] *)
Definition validateCategories (categoryIds : list string)
    (registry : ComponentRegistry) : Validation :=
  let invalid := filter (missing (categories registry)) categoryIds in
  {| valid := bool_decide (length invalid = 0%nat); invalid := invalid |}.

(** The categories are a [Set<string>] that the code can add [undefined]
    to: [None] is [undefined]. *)
Record SelectionStats := {
  componentCount : nat;
  fileCount : nat;
  stat_categories : list (option string)
}.

(** [Set.prototype.add] on the categories. *)
Definition add_category (c : option string) (s : list (option string))
    : list (option string) :=
  if decide (c ∈ s) then s else s ++ [c].

(** [getSelectionStats]: an inherited value is truthy and has no
    [category]. *)
Definition getSelectionStats (resolved : ResolvedComponents)
    (registry : ComponentRegistry) : SelectionStats :=
  let categories :=
    foldl (fun categories componentId =>
             match Js.get (components registry) componentId with
             | Js.Own component => add_category (Some (category component)) categories
             | Js.Inherited => add_category None categories
             | Js.Undefined => categories
             end)
          [] (res_components resolved) in
  {| componentCount := length (res_components resolved);
     fileCount := length (res_files resolved);
     stat_categories := categories |}.

(** [clearRegistryCache]: the cache after the call. *)
Definition clearRegistryCache (cachedRegistry : option ComponentRegistry)
    : option ComponentRegistry := None.

End RegistryTools.

(** ** src/utils/validate.ts *)
Module Validate.

(** The class [[a-z0-9-~]]. *)
Definition name_head (c : ascii) : bool :=
  Js.is_lower c || Js.is_digit c || bool_decide (c = "-"%char) || bool_decide (c = "~"%char).

(** The classes [[a-z0-9-._~]] and [[a-z0-9-_~.]]. *)
Definition name_char (c : ascii) : bool :=
  name_head c || bool_decide (c = "."%char) || bool_decide (c = "_"%char).

(** The class [[-._]]. *)
Definition edge_char (c : ascii) : bool :=
  bool_decide (c = "-"%char) || bool_decide (c = "."%char) || bool_decide (c = "_"%char).

(** [[a-z0-9-~][a-z0-9-._~]*] on a whole string. *)
Definition plain (s : string) : bool :=
  match s with
  | String c r => name_head c && forallb name_char (Js.chars r)
  | EmptyString => false
  end.

(** [/^(@[a-z0-9-~][a-z0-9-._~]*\/)?[a-z0-9-~][a-z0-9-._~]*$/.test(s)]: no
    class has [@] or [/], so the scope, when there is one, ends at the
    first [/]. *)
Definition name_pattern (s : string) : bool :=
  plain s ||
  match s with
  | String c r =>
      if decide (c = "@"%char) then
        match Js.indexOf "/" r with
        | Some i => plain (Js.slice_to i r) && plain (Js.slice_from (S i) r)
        | None => false
        end
      else false
  | EmptyString => false
  end.

Record NameCheck := {
  name_valid : bool;
  name_message : option string
}.

Definition rejected (message : string) : NameCheck :=
  {| name_valid := false; name_message := Some message |}.

Definition startsWith (c : ascii) (s : string) : bool :=
  match s with String d _ => bool_decide (d = c) | EmptyString => false end.

(** [validateProjectName] *)
Definition validateProjectName (name : string) : NameCheck :=
  if bool_decide (name = EmptyString) || bool_decide (Js.trim name = EmptyString) then
    rejected "Project name cannot be empty"
  else if negb (bool_decide (name = Js.toLowerCase name)) then
    rejected "Project name must be lowercase"
  else if startsWith "."%char name || startsWith "_"%char name then
    rejected "Project name cannot start with . or _"
  else if existsb Js.is_space (Js.chars name) then
    rejected "Project name cannot contain spaces"
  else if negb (name_pattern name) then
    rejected "Project name can only contain lowercase letters, numbers, hyphens, and underscores"
  else if (214 <? String.length name)%nat then
    rejected "Project name must be 214 characters or fewer"
  else {| name_valid := true; name_message := None |}.

(** [.replace(/\s+/g, '-')]: every maximal run of white space becomes one
    hyphen. *)
Fixpoint spaces_to_hyphen (s : string) : string :=
  match s with
  | EmptyString => EmptyString
  | String c r =>
      if Js.is_space c then
        match r with
        | String d _ => if Js.is_space d then spaces_to_hyphen r
                        else String "-"%char (spaces_to_hyphen r)
        | EmptyString => String "-"%char EmptyString
        end
      else String c (spaces_to_hyphen r)
  end.

(** [.replace(/[^a-z0-9-_~.]/g, '-')] *)
Definition replace_other (s : string) : string :=
  Js.map_chars (fun c => if name_char c then c else "-"%char) s.

(** [.replace(/^[-._]+/, '')] *)
Fixpoint strip_leading (s : string) : string :=
  match s with
  | EmptyString => EmptyString
  | String c r => if edge_char c then strip_leading r else s
  end.

(** [.replace(/[-._]+$/, '')]: the leftmost match that reaches the end is
    the whole run that ends the string. *)
Fixpoint strip_trailing (s : string) : string :=
  match s with
  | EmptyString => EmptyString
  | String c r =>
      match strip_trailing r with
      | EmptyString => if edge_char c then EmptyString else String c EmptyString
      | r' => String c r'
      end
  end.

(** [toValidProjectName] *)
Definition toValidProjectName (name : string) : string :=
  Prompts.collapse_hyphens
    (strip_trailing
       (strip_leading
          (replace_other (spaces_to_hyphen (Js.toLowerCase (Js.trim name)))))).

End Validate.

(** ** src/cli.ts *)
Module Cli.
Import Registry.

(** A value of [string | boolean | undefined]. *)
Inductive FlagValue :=
  | FlagUndefined
  | FlagBoolean (b : bool)
  | FlagString (s : string).

Definition validCategories : list string := ["ui"; "patterns"; "hero"].

Definition only (m : ComponentSelectionMode) : ComponentSelection :=
  {| mode := m; sel_categories := None; sel_components := None |}.

(** [parseComponentsFlag]; [None] is [undefined]. *)
Definition parseComponentsFlag (value : FlagValue) : option ComponentSelection :=
  match value with
  | FlagUndefined => None
  | FlagBoolean true => Some (only mode_all)
  | FlagBoolean false => Some (only mode_none)
  | FlagString value =>
      if bool_decide (value = "none") || bool_decide (value = "false") then
        Some (only mode_none)
      else if bool_decide (value = "all") || bool_decide (value = "true") then
        Some (only mode_all)
      else
        let categories :=
          (fun s => Js.toLowerCase (Js.trim s)) <$> Js.split ","%char value in
        let filtered := filter (fun c => c ∈ validCategories) categories in
        if bool_decide (length filtered = 0%nat) then Some (only mode_all)
        else Some {| mode := mode_categories; sel_categories := Some filtered;
                     sel_components := None |}
  end.

End Cli.

(** ** src/utils/fs.ts and src/features/i18n.ts *)
Module FsUtils.
Import Fs Scaffold.

(** [copyDirectory(src, dest, overwrite)] for a source that is there; [src]
    is a tree of its own as in [copyTemplateFiles]. The directory of a file
    to write is [dest]. *)
Fixpoint copyDirectory (src : node) (dest : path) (overwrite : bool) (t : node)
    : result node :=
  match src with
  | File _ => Err ENOTDIR
  | Dir entries =>
      t ← ensureDir dest t;
      map_fold (fun name entry acc =>
                  t ← acc;
                  match entry with
                  | Dir _ => copyDirectory entry (dest ++ [name]) overwrite t
                  | File content =>
                      if overwrite || negb (existsSync (dest ++ [name]) t) then
                        t ← ensureDir dest t;
                        writeFileSync (dest ++ [name]) content t
                      else Ok t
                  end)
               (Ok t) entries
  end.

(** [applyI18n]: [getI18nTemplatePath] throws when the template is missing,
    so the test that follows it finds the template. *)
Definition applyI18n (i18nTemplate : option node) (t : node) : result node :=
  match i18nTemplate with
  | None => Err (Thrown "Could not find i18n template. Package may be corrupted.")
  | Some template => copyDirectory template [] true t
  end.

End FsUtils.


(** ** Sample projects *)
Module Samples.
Import Fs Pages.

(** A project whose only file is the route table [routes]. *)
Definition project (routesPath : path) (routes : string) : node :=
  match mkdirSync (removelast routesPath) (Dir ∅) ≫= writeFileSync routesPath routes with
  | Ok t => t
  | Err _ => Dir ∅
  end.

(** The tree a run of [generatePages] leaves. *)
Definition tree_of (r : result (node * list string)) : node :=
  match r with
  | Ok (t, _) => t
  | Err _ => Dir ∅
  end.

Definition routes_about : string :=
  lines [ "export const routes = {";
          "  about: {order: 10},";
          "} as const satisfies Record<string, RouteConfig>;";
          "" ].

Definition routes_about_pricing : string :=
  lines [ "export const routes = {";
          "  about: {order: 10},";
          "";
          "  // Custom page: pricing";
          "  pricing: {";
          "    path: '/pricing',";
          "    nav: { show: true, order: 20, label: 'Pricing' },";
          "  },";
          "} as const satisfies Record<string, RouteConfig>;";
          "" ].

Definition routes_empty : string :=
  lines [ "export const routes = {";
          "} as const satisfies Record<string, RouteConfig>;";
          "" ].

Definition routes_empty_faq : string :=
  lines [ "export const routes = {";
          "";
          "  // Custom page: faq";
          "  faq: {";
          "    path: '/faq',";
          "    nav: { show: true, order: 10, label: 'Faq' },";
          "  },";
          "} as const satisfies Record<string, RouteConfig>;";
          "" ].

Definition routes_forty : string :=
  lines [ "export const routes = {";
          "  home: { path: '/', nav: { show: true, order: 10, label: 'Home' } },";
          "  docs: { path: '/docs', nav: { show: true, order:40, label: 'Docs' } },";
          "  team: { path: '/team', nav: { show: true, order:  030, label: 'Team' } },";
          "} as const satisfies Record<string, RouteConfig>;";
          "" ].

Definition routes_forty_faq : string :=
  lines [ "export const routes = {";
          "  home: { path: '/', nav: { show: true, order: 10, label: 'Home' } },";
          "  docs: { path: '/docs', nav: { show: true, order:40, label: 'Docs' } },";
          "  team: { path: '/team', nav: { show: true, order:  030, label: 'Team' } },";
          "";
          "  // Custom page: faq";
          "  faq: {";
          "    path: '/faq',";
          "    nav: { show: true, order: 50, label: 'Faq' },";
          "  },";
          "} as const satisfies Record<string, RouteConfig>;";
          "" ].


(** A table with an order that no double holds: 2^53 + 1. *)
Definition routes_huge : string :=
  lines [ "export const routes = {";
          "  home: { path: '/', nav: { show: true, order: 9007199254740993, label: 'Home' } },";
          "} as const satisfies Record<string, RouteConfig>;";
          "" ].

Definition routes_huge_faq : string :=
  lines [ "export const routes = {";
          "  home: { path: '/', nav: { show: true, order: 9007199254740993, label: 'Home' } },";
          "";
          "  // Custom page: faq";
          "  faq: {";
          "    path: '/faq',";
          "    nav: { show: true, order: 9007199254741002, label: 'Faq' },";
          "  },";
          "} as const satisfies Record<string, RouteConfig>;";
          "" ].

(** A table whose order is 2^57, where the next double is 16 further. *)
Definition routes_coarse : string :=
  lines [ "export const routes = {";
          "  home: { path: '/', nav: { show: true, order: 144115188075855872, label: 'Home' } },";
          "} as const satisfies Record<string, RouteConfig>;";
          "" ].



Definition about_project : node := project baseRoutesPath routes_about.
Definition about_project_1 : node :=
  tree_of (generatePages ["about"] page false about_project).
Definition about_project_2 : node :=
  tree_of (generatePages ["pricing"] page false about_project_1).

(** *** Registries *)
Import Registry.

Definition component (cat : string) (fs us ds : list string) : ComponentEntry :=
  {| comp_name := ""; category := cat; comp_files := fs;
     dependencies := {| dep_utilities := us; dep_components := ds |};
     premium := false |}.

Definition select (m : ComponentSelectionMode) (cats ids : option (list string))
    : ComponentSelection :=
  {| mode := m; sel_categories := cats; sel_components := ids |}.

(** [card] and [dialog] both need [button]; [dialog] also names a component
    that is not there. *)
Definition diamond : ComponentRegistry :=
  {| version := "1";
     categories := {[ "ui" := {| cat_name := "UI"; cat_description := "" |} ]};
     utilities :=
       {[ "cn" := {| util_name := "cn"; util_description := "";
                     util_files := ["src/lib/cn.ts"];
                     util_npm := ["clsx"; "tailwind-merge"] |} ]};
     components :=
       {[ "button" := component "ui" ["src/components/ui/Button.astro"] ["cn"] [];
          "card" := component "ui" ["src/components/ui/Card.astro"] ["cn"] ["button"];
          "dialog" := component "ui" ["src/components/ui/Dialog.astro"] []
                        ["button"; "overlay"] ]} |}.

Definition diamond_rank (id : string) : nat :=
  if decide (id = "button") then 0%nat else 1%nat.

(** A component that depends on itself. *)
Definition cyclic : ComponentRegistry :=
  {| version := "1"; categories := ∅; utilities := ∅;
     components := {[ "a" := component "ui" ["src/components/ui/A.astro"] [] ["a"] ]} |}.


(** *** Templates *)
Import Scaffold.

(** The same paths, in any order. *)
Definition same_paths (l1 l2 : list string) : bool :=
  forallb (fun x => bool_decide (x ∈ l2)) l1 && forallb (fun x => bool_decide (x ∈ l1)) l2.

(** The tree that holds the given files. *)
Definition tree_of_files (fs : list (path * string)) : node :=
  foldl (fun t '(p, content) =>
           match mkdirSync (removelast p) t ≫= writeFileSync p content with
           | Ok t' => t'
           | Err _ => t
           end)
        (Dir ∅) fs.

(** What [downloadTemplate] leaves: a small copy of the Velocity template. *)
Definition template : node :=
  tree_of_files
    [ (["package.json"], "{ }");
      (["pnpm-lock.yaml"], "lockfileVersion: 9");
      (["src"; "components"; "ui"; "Button.astro"], "button");
      (["src"; "components"; "ui"; "form"; "Input.astro"], "input");
      (["src"; "components"; "patterns"; "ContactForm.astro"], "contact form");
      (["src"; "components"; "hero"; "Hero.astro"], "hero");
      (["src"; "components"; "landing"; "Navbar.astro"], "navbar");
      (["src"; "components"; "seo"; "Head.astro"], "head");
      (["src"; "layouts"; "LandingLayout.astro"], "landing layout");
      (["src"; "layouts"; "PageLayout.astro"], "page layout");
      (["src"; "pages"; "index.astro"], "demo home");
      (["src"; "pages"; "about.astro"], "demo about");
      (["src"; "pages"; "404.astro"], "not found");
      (["src"; "content"; "blog"; "hello.md"], "hello");
      (["src"; "config"; "routes.ts"], routes_about) ].

(** templates/i18n of the package. *)
Definition i18n_overlay : node :=
  tree_of_files
    [ (["astro.config.mjs"], "i18n config");
      (["src"; "i18n"; "config.ts"], "export const locales = ['en', 'es', 'fr'];");
      (["src"; "i18n"; "routes.ts"], routes_about);
      (["src"; "i18n"; "translations"; "en.ts"],
       lines [ "export const en = {"; "  nav: { home: 'Home' },"; "} as const;"; "" ]);
      (["src"; "pages"; "[lang]"; "index.astro"], "localized home");
      (["src"; "pages"; "[lang]"; "[...about].astro"], "localized about") ].


(** templates/base of the package. *)
Definition base_template : node :=
  tree_of_files
    [ (["src"; "pages"; "404.astro"], "not found");
      (["src"; "config"; "site.ts"], "minimal site") ].

(** Stand-ins for the JSON texts: a [package.json] that names the project,
    and a provenance record. *)
Definition packageJson (name text : string) : option string :=
  Some ("{ name: " +:+ name +:+ " }").
Definition velocityConfig (options : ScaffoldOptions) (t : node) : option string :=
  Some "{ velocity }".

Definition world (net : response) : World :=
  {| download := Ok template; i18nTemplate := Some i18n_overlay;
     baseTemplate := Some base_template; registryCache := None; network := net;
     stack := 8 |}.

Definition options (withDemo withI18n : bool) (sel : ComponentSelection)
    (names : list string) : ScaffoldOptions :=
  {| projectName := "my-site"; demo := withDemo; componentSelection := sel;
     i18n := withI18n; pages := names; pageLayout := page; packageManager := pnpm |}.

End Samples.


(** * Properties *)

(** ** Strings *)
Section StringFacts.

Lemma sapp_cons c a b : String c a +:+ b = String c (a +:+ b).
Proof. reflexivity. Qed.

Lemma sapp_nil_l s : EmptyString +:+ s = s.
Proof. reflexivity. Qed.

Lemma sapp_nil_r s : s +:+ EmptyString = s.
Proof. induction s as [|c s IH]; [done|]. by rewrite sapp_cons, IH. Qed.

Lemma sapp_assoc a b c : (a +:+ b) +:+ c = a +:+ (b +:+ c).
Proof. induction a as [|x a IH]; [done|]. by rewrite !sapp_cons, IH. Qed.

Lemma sapp_length a b : String.length (a +:+ b) = (String.length a + String.length b)%nat.
Proof. induction a as [|x a IH]; [done|]. rewrite sapp_cons. simpl. by rewrite IH. Qed.

Lemma chars_app a b : Js.chars (a +:+ b) = Js.chars a ++ Js.chars b.
Proof. induction a as [|x a IH]; [done|]. rewrite sapp_cons. simpl. by rewrite IH. Qed.

Lemma chars_inj a b : Js.chars a = Js.chars b -> a = b.
Proof.
  revert b. induction a as [|x a IH]; intros [|y b] H; simplify_eq/=; [done|].
  f_equal. by apply IH.
Qed.

Lemma chars_map f s : Js.chars (Js.map_chars f s) = f <$> Js.chars s.
Proof. induction s as [|c s IH]; [done|]. simpl. by rewrite IH. Qed.

End StringFacts.

(** ** Page names *)
Module PromptsFacts.
Import Prompts.

(** A hyphen is never followed by a hyphen. *)
Fixpoint no_double (s : string) : Prop :=
  match s with
  | String a tl =>
      match tl with
      | String b _ => ~ (a = hyphen /\ b = hyphen)
      | EmptyString => True
      end /\ no_double tl
  | EmptyString => True
  end.

Definition head (s : string) : option ascii :=
  match s with String c _ => Some c | EmptyString => None end.

Fixpoint last_char (s : string) : option ascii :=
  match s with
  | EmptyString => None
  | String c r => match last_char r with Some d => Some d | None => Some c end
  end.

Lemma no_double_spec s :
  no_double s -> forall a b, s <> a +:+ String hyphen (String hyphen b).
Proof.
  intros Hs a. revert s Hs. induction a as [|x a IH]; intros s Hs b ->.
  - rewrite sapp_nil_l in Hs. simpl in Hs. naive_solver.
  - rewrite sapp_cons in Hs. destruct Hs as [_ Hs]. by eapply IH.
Qed.

Lemma last_char_app_one r c : last_char (r +:+ String c EmptyString) = Some c.
Proof.
  induction r as [|x r IH]; [done|]. rewrite sapp_cons. simpl. by rewrite IH.
Qed.

Lemma replace_invalid_alphabet s c :
  c ∈ Js.chars (replace_invalid s) -> slug_char c = true.
Proof.
  unfold replace_invalid. rewrite chars_map. intros (d & -> & _)%list_elem_of_fmap.
  destruct (slug_char d) eqn:E; [done|]. by vm_compute.
Qed.

Lemma collapse_cases c r :
  (c <> hyphen /\ collapse_hyphens (String c r) = String c (collapse_hyphens r)) \/
  (c = hyphen /\ r = EmptyString /\ collapse_hyphens (String c r) = String hyphen EmptyString) \/
  (c = hyphen /\ head r = Some hyphen /\ collapse_hyphens (String c r) = collapse_hyphens r) \/
  (c = hyphen /\ (exists d, head r = Some d /\ d <> hyphen) /\
   collapse_hyphens (String c r) = String hyphen (collapse_hyphens r)).
Proof.
  simpl. destruct (decide (c = hyphen)) as [->|]; [|by left].
  right. destruct r as [|d r']; [by left|].
  right. destruct (decide (d = hyphen)) as [->|]; [by left|].
  right. split_and!; [done|by exists d|done].
Qed.

Lemma collapse_head s : head (collapse_hyphens s) = head s.
Proof.
  induction s as [|c r IH]; [done|].
  destruct (collapse_cases c r) as [[? ->]|[(-> & -> & ->)|[(-> & Hr & ->)|(-> & _ & ->)]]];
    try done.
  by rewrite IH.
Qed.

Lemma collapse_chars s c : c ∈ Js.chars (collapse_hyphens s) -> c ∈ Js.chars s.
Proof.
  induction s as [|x r IH]; [done|].
  change (Js.chars (String x r)) with (x :: Js.chars r).
  destruct (collapse_cases x r) as [[? ->]|[(-> & -> & ->)|[(-> & Hr & ->)|(-> & _ & ->)]]];
    try done.
  - change (Js.chars (String x ?y)) with (x :: Js.chars y).
    rewrite !elem_of_cons. naive_solver.
  - intros H%IH. by apply list_elem_of_further.
  - change (Js.chars (String hyphen ?y)) with (hyphen :: Js.chars y).
    rewrite !elem_of_cons. naive_solver.
Qed.

Lemma no_double_cons c s :
  no_double (String c s) <-> ~ (c = hyphen /\ head s = Some hyphen) /\ no_double s.
Proof. destruct s as [|d s]; simpl; naive_solver. Qed.

Lemma collapse_no_double s : no_double (collapse_hyphens s).
Proof.
  induction s as [|c r IH]; [done|].
  destruct (collapse_cases c r) as [[? ->]|[(-> & -> & ->)|[(-> & Hr & ->)|(-> & (d & Hd & ?) & ->)]]];
    try done.
  - apply no_double_cons. naive_solver.
  - apply no_double_cons. split; [|done]. rewrite collapse_head, Hd. naive_solver.
Qed.

Lemma strip_trailing_cons c d r :
  strip_trailing_hyphen (String c (String d r)) =
  String c (strip_trailing_hyphen (String d r)).
Proof. reflexivity. Qed.

Lemma strip_trailing_chars s c :
  c ∈ Js.chars (strip_trailing_hyphen s) -> c ∈ Js.chars s.
Proof.
  induction s as [|x r IH]; [done|]. destruct r as [|d r'].
  - simpl. destruct (decide (x = hyphen)); [|done]. by rewrite elem_of_nil.
  - rewrite strip_trailing_cons.
    change (Js.chars (String x (strip_trailing_hyphen ?y)))
      with (x :: Js.chars (strip_trailing_hyphen y)).
    change (Js.chars (String x (String d r'))) with (x :: Js.chars (String d r')).
    rewrite !elem_of_cons. intros [->|H]; [by left|]. right. by apply IH.
Qed.

Lemma strip_trailing_empty s :
  strip_trailing_hyphen s = EmptyString ->
  s = EmptyString \/ s = String hyphen EmptyString.
Proof.
  destruct s as [|c [|d r]]; [by left| |done].
  simpl. destruct (decide (c = hyphen)) as [->|]; [by right|done].
Qed.

Lemma strip_trailing_head s c :
  head s = Some c -> c <> hyphen -> head (strip_trailing_hyphen s) = Some c.
Proof.
  destruct s as [|x [|d r]]; [done| |by rewrite strip_trailing_cons].
  simpl. intros [= ->] Hc. by destruct (decide (c = hyphen)).
Qed.

Lemma strip_trailing_no_double s :
  no_double s -> no_double (strip_trailing_hyphen s).
Proof.
  induction s as [|c r IH]; [done|]. destruct r as [|d r'].
  - simpl. by destruct (decide (c = hyphen)).
  - rewrite strip_trailing_cons. intros [Hcd Hr]. split; [|by apply IH].
    destruct (strip_trailing_hyphen (String d r')) as [|e ?] eqn:E; [done|].
    destruct (decide (d = hyphen)) as [->|Hd]; [naive_solver|].
    pose proof (strip_trailing_head (String d r') d eq_refl Hd) as Hh.
    rewrite E in Hh. simpl in Hh. naive_solver.
Qed.

Lemma strip_trailing_last s :
  no_double s -> last_char (strip_trailing_hyphen s) <> Some hyphen.
Proof.
  induction s as [|c r IH]; [done|]. destruct r as [|d r'].
  - simpl. destruct (decide (c = hyphen)); simpl; congruence.
  - rewrite strip_trailing_cons. intros [Hcd Hr].
    change (last_char (String c ?x)) with
      (match last_char x with Some e => Some e | None => Some c end).
    destruct (last_char (strip_trailing_hyphen (String d r'))) as [e|] eqn:E.
    + by apply IH.
    + destruct (strip_trailing_hyphen (String d r')) as [|y z] eqn:E'.
      * apply strip_trailing_empty in E' as [?|[= -> ->]]; [done|]. naive_solver.
      * simpl in E. by destruct (last_char z).
Qed.

Lemma strip_edge_chars s c :
  c ∈ Js.chars (strip_edge_hyphens s) -> c ∈ Js.chars s.
Proof.
  destruct s as [|x r]; [done|]. unfold strip_edge_hyphens.
  destruct (decide (x = hyphen)).
  - intros H%strip_trailing_chars. by apply list_elem_of_further.
  - apply strip_trailing_chars.
Qed.

Lemma strip_edge_no_double s : no_double s -> no_double (strip_edge_hyphens s).
Proof.
  destruct s as [|x r]; [done|]. unfold strip_edge_hyphens.
  destruct (decide (x = hyphen)).
  - intros [_ Hr]. by apply strip_trailing_no_double.
  - apply strip_trailing_no_double.
Qed.

Lemma strip_edge_head s : no_double s -> head (strip_edge_hyphens s) <> Some hyphen.
Proof.
  destruct s as [|x r]; [done|]. unfold strip_edge_hyphens.
  destruct (decide (x = hyphen)) as [->|Hx].
  - intros [Hd _]. destruct r as [|d r']; [done|].
    assert (d <> hyphen) as Hd' by naive_solver.
    rewrite (strip_trailing_head (String d r') d eq_refl Hd'). congruence.
  - intros _. rewrite (strip_trailing_head (String x r) x eq_refl Hx). congruence.
Qed.

Lemma strip_edge_last s : no_double s -> last_char (strip_edge_hyphens s) <> Some hyphen.
Proof.
  destruct s as [|x r]; [done|]. unfold strip_edge_hyphens.
  destruct (decide (x = hyphen)).
  - intros [_ Hr]. by apply strip_trailing_last.
  - apply strip_trailing_last.
Qed.

(** Whatever the name, its sanitized form has the shape of a slug. *)
Lemma sanitize_shape name :
  let s := sanitize name in
  (forall c, c ∈ Js.chars s -> slug_char c = true) /\
  (forall r, s <> String hyphen r) /\
  (forall r, s <> r +:+ String hyphen EmptyString) /\
  (forall a b, s <> a +:+ String hyphen (String hyphen b)).
Proof.
  unfold sanitize.
  pose proof (collapse_no_double (replace_invalid name)) as Hnd.
  split_and!.
  - intros c H%strip_edge_chars%collapse_chars. by eapply replace_invalid_alphabet.
  - intros r E. apply (strip_edge_head _ Hnd). by rewrite E.
  - intros r E. apply (strip_edge_last _ Hnd). by rewrite E, last_char_app_one.
  - by apply no_double_spec, strip_edge_no_double.
Qed.

(** What survives the two filters of [parsePageNames] is a slug. *)
Lemma parsed_name_valid input x :
  x ∈ parsePageNames input -> valid_slug x.
Proof.
  unfold parsePageNames. destruct (decide _); [by intros ?%elem_of_nil|].
  intros [[Hne Hres] Hx]%list_elem_of_filter.
  apply list_elem_of_fmap in Hx as (name & -> & _).
  destruct (sanitize_shape name) as (H1 & H2 & H3 & H4).
  by constructor.
Qed.

End PromptsFacts.

(** C10. Every name that [parsePageNames] returns, for any input, is a
    non-empty string of lowercase letters, digits and hyphens that neither
    starts nor ends with a hyphen, has no two hyphens in a row, and is none of
    the reserved names index, blog, 404 and rss. *)
Theorem parsePageNames_valid_slugs (input : string) :
  Forall Prompts.valid_slug (Prompts.parsePageNames input).
Proof.
  apply list.Forall_forall. intros x. apply PromptsFacts.parsed_name_valid.
Qed.

(** The invariant is not vacuous: the parser does return names. *)
Example parsePageNames_sample :
  Prompts.parsePageNames "About, --x--y-- ,index, Blog ,RSS,,9_b" = ["about"; "x-y"; "9-b"].
Proof. vm_compute. reflexivity. Qed.


(** ** Searching in strings *)
Section SearchFacts.

Lemma strip_prefix_Some p s r : Js.strip_prefix p s = Some r <-> s = p +:+ r.
Proof.
  revert s. induction p as [|a p IH]; intros s; simpl.
  - rewrite sapp_nil_l. naive_solver.
  - destruct s as [|b s]; [by rewrite sapp_cons|].
    rewrite sapp_cons. destruct (decide (a = b)) as [->|].
    + rewrite IH. naive_solver.
    + naive_solver.
Qed.

Lemma strip_prefix_app p r : Js.strip_prefix p (p +:+ r) = Some r.
Proof. by apply strip_prefix_Some. Qed.

Lemma slice_to_from n s : Js.slice_to n s +:+ Js.slice_from n s = s.
Proof.
  revert s. induction n as [|n IH]; intros [|c s]; simpl; try done.
  by rewrite sapp_cons, IH.
Qed.

Lemma slice_from_length_app a b : Js.slice_from (String.length a) (a +:+ b) = b.
Proof. induction a as [|c a IH]; [by destruct b|]. by rewrite sapp_cons. Qed.

Lemma slice_to_length_app a b : Js.slice_to (String.length a) (a +:+ b) = a.
Proof.
  induction a as [|c a IH]; [by destruct b|]. rewrite sapp_cons. simpl. by rewrite IH.
Qed.

Lemma indexOf_Some needle s i :
  Js.indexOf needle s = Some i ->
  exists r, Js.slice_from i s = needle +:+ r /\ String.length (Js.slice_to i s) = i.
Proof.
  revert i. induction s as [|c s IH]; intros i; simpl.
  - destruct (Js.strip_prefix needle EmptyString) eqn:E; [|done].
    intros [= <-]. apply strip_prefix_Some in E. by exists s.
  - destruct (Js.strip_prefix needle (String c s)) eqn:E.
    + intros [= <-]. apply strip_prefix_Some in E. by exists s0.
    + destruct (Js.indexOf needle s) as [j|]; [|done]. intros [= <-].
      destruct (IH j eq_refl) as (r & ? & ?). exists r. simpl. split; [done|]. by f_equal.
Qed.

Lemma indexOf_app a needle b : is_Some (Js.indexOf needle (a +:+ needle +:+ b)).
Proof.
  induction a as [|c a IH].
  - rewrite sapp_nil_l. destruct (needle +:+ b) eqn:E; simpl; rewrite <- ?E;
      by rewrite strip_prefix_app.
  - rewrite sapp_cons. simpl. destruct (Js.strip_prefix _ _); [done|].
    destruct IH as [j ->]. done.
Qed.

(** [includes] is the substring relation. *)
Lemma includes_true needle s :
  Js.includes needle s = true <-> exists a b, s = a +:+ needle +:+ b.
Proof.
  unfold Js.includes. rewrite bool_decide_eq_true. split.
  - intros [i Hi]. destruct (indexOf_Some _ _ _ Hi) as (r & Hr & _).
    exists (Js.slice_to i s), r. by rewrite <- Hr, slice_to_from.
  - intros (a & b & ->). apply indexOf_app.
Qed.


Lemma trimStart_spec s :
  exists ws, s = ws +:+ Js.trimStart s /\
    Forall (fun c => Js.is_space c = true) (Js.chars ws) /\
    (forall c r, Js.trimStart s = String c r -> Js.is_space c = false).
Proof.
  induction s as [|c s (ws & E & Hws & Hhd)]; [by exists EmptyString|].
  simpl. destruct (Js.is_space c) eqn:Hc.
  - exists (String c ws). rewrite sapp_cons, <- E. split_and!; [done| |done].
    by constructor.
  - exists EmptyString. split_and!; [done|constructor|]. by intros ?? [= <- <-].
Qed.

Lemma trimStart_app ws x :
  Forall (fun c => Js.is_space c = true) (Js.chars ws) ->
  (forall c r, x = String c r -> Js.is_space c = false) ->
  Js.trimStart (ws +:+ x) = x.
Proof.
  intros Hws Hx. induction ws as [|c ws IH].
  - rewrite sapp_nil_l. destruct x as [|c r]; [done|]. simpl. by rewrite (Hx c r).
  - rewrite sapp_cons. simpl. inversion_clear Hws as [|?? Hc Hws']. rewrite Hc. by apply IH.
Qed.

End SearchFacts.

(** ** Numbers *)
Module DoubleFacts.

Definition safe : N := 2 ^ 53.

(** [a <= b] *)
Definition le (a b : Js.number) : Prop := Js.ltb b a = false.

Lemma le_refl a : le a a.
Proof. destruct a as [x|]; [|done]. apply N.ltb_irrefl. Qed.

Lemma le_trans a b c : le a b -> le b c -> le a c.
Proof.
  unfold le. destruct a as [x|], b as [y|], c as [z|]; simpl; try done.
  rewrite !N.ltb_ge. lia.
Qed.

Lemma le_Finite x y : le (Js.Finite x) (Js.Finite y) <-> x <= y.
Proof. unfold le. simpl. apply N.ltb_ge. Qed.

Lemma size_safe n : n < safe -> N.size n - 53 = 0.
Proof.
  intros H. apply N.sub_0_le. destruct (decide (n = 0)) as [->|Hn]; [done|].
  rewrite N.size_log2 by done. apply N.le_succ_l.
  apply N.log2_lt_pow2; [lia|done].
Qed.

(** A natural number below 2^53 is a double. *)
Lemma round64_exact n : n < safe -> Js.round64 n = Js.Finite n.
Proof.
  intros H. unfold Js.round64. rewrite (size_safe n H).
  rewrite N.shiftr_0_r, !N.shiftl_0_r, N.sub_diag.
  change (0 <? 0) with false. cbn [andb].
  assert (n < 2 ^ 1024) as ->%N.ltb_lt; [|done].
  eapply N.lt_trans; [exact H|]. by apply N.pow_lt_mono_r.
Qed.

(** From 2^53 on rounding does not go below 2^53. *)
Lemma round64_lower y v : safe <= y -> Js.round64 y = Js.Finite v -> safe <= v.
Proof.
  intros Hy. assert (0 < y) as Hpos by (unfold safe in Hy; lia).
  assert (53 <= N.log2 y) as Hlog by by apply N.log2_le_pow2.
  unfold Js.round64. rewrite N.size_log2 by lia.
  set (e := N.succ (N.log2 y) - 53). set (q := N.shiftr y e).
  assert (N.log2 y = 52 + e) as Elog by (unfold e; lia).
  assert (2 ^ 52 <= q) as Hq.
  { unfold q. rewrite N.shiftr_div_pow2. apply N.div_le_lower_bound.
    - by apply N.pow_nonzero.
    - rewrite N.mul_comm, <- N.pow_add_r, <- Elog. by apply N.log2_spec. }
  assert (2 <= 2 ^ e) as He.
  { change 2 with (2 ^ 1) at 1. apply N.pow_le_mono_r; [done|]. unfold e. lia. }
  match goal with |- context [N.shiftl ?x e <? _] => set (m := x) end.
  assert (q <= m) as Hm by (unfold m; destruct (_ && _); lia).
  clearbody m. destruct (N.shiftl m e <? 2 ^ 1024); [|done].
  intros [= <-]. rewrite N.shiftl_mul_pow2.
  unfold safe. change (2 ^ 53) with (2 ^ 52 * 2).
  apply N.mul_le_mono; [lia|done].
Qed.

Lemma plus_exact n k : n + k < safe -> Js.plus (Js.Finite n) k = Js.Finite (n + k).
Proof. apply round64_exact. Qed.

(** Adding to a number that is [b] at least gives [b + k] at least, as long
    as [b + k] is a double below 2^53 or 2^53 itself. *)
Lemma plus_lower a b k :
  b + k <= safe -> le (Js.Finite b) a -> le (Js.Finite (b + k)) (Js.plus a k).
Proof.
  intros Hb Ha. destruct a as [x|]; [|done]. apply le_Finite in Ha. simpl.
  destruct (N.lt_ge_cases (x + k) safe) as [Hx|Hx].
  - rewrite round64_exact by done. apply le_Finite. lia.
  - destruct (Js.round64 (x + k)) as [v|] eqn:E; [|done].
    apply le_Finite. pose proof (round64_lower _ _ Hx E). lia.
Qed.

(** Below 2^53 a number is printed as its decimal numeral. *)
Lemma nearest_safe v k c : v < safe -> Js.nearest v k = Some c -> c = v.
Proof.
  intros Hv. unfold Js.nearest.
  set (p := 10 ^ N.of_nat (String.length (Js.decimal v) - k)).
  assert (p <> 0) as Hp by by apply N.pow_nonzero.
  set (lo := v / p * p).
  assert (lo <= v) as Hlo by (unfold lo; rewrite N.mul_comm; by apply N.Div0.mul_div_le).
  assert (v < lo + p) as Hhi.
  { unfold lo. rewrite (N.div_mod v p Hp) at 1. pose proof (N.mod_lt v p Hp). lia. }
  assert (Js.rounds_to v (lo + p) = false) as ->.
  { unfold Js.rounds_to. destruct (N.lt_ge_cases (lo + p) safe) as [Hx|Hx].
    - rewrite round64_exact by done. apply N.eqb_neq. lia.
    - destruct (Js.round64 (lo + p)) as [x|] eqn:E; [|done].
      pose proof (round64_lower _ _ Hx E). apply N.eqb_neq. lia. }
  unfold Js.rounds_to. rewrite round64_exact by lia.
  destruct (N.eqb_spec lo v); [|done]. by intros [= <-].
Qed.

Lemma shortest_safe v k fuel : v < safe -> Js.shortest v k fuel = v.
Proof.
  intros Hv. revert k. induction fuel as [|fuel IH]; intros k; [done|]. simpl.
  destruct (Js.nearest v k) as [c|] eqn:E; [by eapply nearest_safe|apply IH].
Qed.

Lemma toString_safe v : v < safe -> Js.toString (Js.Finite v) = Js.decimal v.
Proof.
  intros Hv. unfold Js.toString. rewrite shortest_safe by done.
  assert (v < 10 ^ 21) as ->%N.ltb_lt; [|done].
  eapply N.lt_trans; [exact Hv|]. by vm_compute.
Qed.

End DoubleFacts.

(** ** Navigation order *)
Module NavOrderFacts.
Import Pages.

(** The captures of [/order:\s*(\d+)/] at every offset of the text. *)
Fixpoint all_matches (s : string) : list string :=
  match match_order_at s with Some (ds, _) => [ds] | None => [] end ++
  match s with
  | String _ r => all_matches r
  | EmptyString => []
  end.

Lemma span_digits_spec s :
  s = (span_digits s).1 +:+ (span_digits s).2 /\
  Forall (fun c => Js.is_digit c = true) (Js.chars (span_digits s).1) /\
  (forall c r, (span_digits s).2 = String c r -> Js.is_digit c = false).
Proof.
  induction s as [|c s (E & Hds & Hhd)]; [by repeat constructor|].
  simpl. destruct (Js.is_digit c) eqn:Hc.
  - destruct (span_digits s) as [ds rest]. simpl in *. rewrite sapp_cons, <- E.
    split_and!; [done| |done]. by constructor.
  - simpl. split_and!; [done|constructor|]. by intros ?? [= <- <-].
Qed.

Lemma span_digits_app ds rest :
  Forall (fun c => Js.is_digit c = true) (Js.chars ds) ->
  (forall c r, rest = String c r -> Js.is_digit c = false) ->
  span_digits (ds +:+ rest) = (ds, rest).
Proof.
  intros Hds Hrest. induction ds as [|c ds IH].
  - rewrite sapp_nil_l. destruct rest as [|c r]; [done|]. simpl. by rewrite (Hrest c r).
  - rewrite sapp_cons. simpl. inversion_clear Hds as [|?? Hc Hds']. rewrite Hc.
    by rewrite IH.
Qed.

Lemma digit_not_space c : Js.is_digit c = true -> Js.is_space c = false.
Proof. destruct c as [[] [] [] [] [] [] [] []]; by vm_compute. Qed.

Lemma digit_not_o c : Js.is_digit c = true -> c <> "o"%char.
Proof. intros H ->. by vm_compute in H. Qed.

Lemma space_not_o c : Js.is_space c = true -> c <> "o"%char.
Proof. intros H ->. by vm_compute in H. Qed.

(** A match at the start of [s] is an occurrence that starts there. *)
Lemma match_order_at_Some s ds len :
  match_order_at s = Some (ds, len) <->
  exists ws rest,
    s = "order:" +:+ ws +:+ ds +:+ rest /\
    Forall (fun c => Js.is_space c = true) (Js.chars ws) /\
    Forall (fun c => Js.is_digit c = true) (Js.chars ds) /\
    ds <> EmptyString /\
    (forall c r, rest = String c r -> Js.is_digit c = false) /\
    len = (6 + String.length ws + String.length ds)%nat.
Proof.
  unfold match_order_at. split.
  - destruct (Js.strip_prefix "order:" s) as [r|] eqn:E; [|done].
    apply strip_prefix_Some in E as ->.
    destruct (trimStart_spec r) as (ws & Er & Hws & _).
    destruct (span_digits_spec (Js.trimStart r)) as (Ed & Hds & Hrest).
    destruct (span_digits (Js.trimStart r)) as [ds' rest]. simpl in *.
    destruct (decide (ds' = EmptyString)); [done|]. intros [= -> <-].
    exists ws, rest. split_and!; try done.
    + by rewrite <- Ed, <- Er.
    + rewrite Er at 1. rewrite Ed at 1. rewrite !sapp_length. simpl. lia.
  - intros (ws & rest & -> & Hws & Hds & Hne & Hrest & ->).
    rewrite strip_prefix_app.
    rewrite trimStart_app, span_digits_app; try done.
    + destruct (decide (ds = EmptyString)); [done|]. do 2 f_equal.
      rewrite !sapp_length. simpl. lia.
    + intros c r E. destruct ds as [|d ds]; [done|]. rewrite sapp_cons in E.
      injection E as <- _. inversion_clear Hds. by apply digit_not_space.
Qed.

Lemma match_order_at_head s :
  (forall r, s <> String "o"%char r) -> match_order_at s = None.
Proof.
  intros H. unfold match_order_at.
  destruct (Js.strip_prefix "order:" s) as [r|] eqn:E; [|done].
  apply strip_prefix_Some in E. by destruct (H _ E).
Qed.

Lemma slice_from_no_o a b j :
  Forall (fun c => c <> "o"%char) (Js.chars a) ->
  (j < String.length a)%nat ->
  forall r, Js.slice_from j (a +:+ b) <> String "o"%char r.
Proof.
  revert j. induction a as [|c a IH]; intros j Ha Hj; [simpl in Hj; lia|].
  rewrite sapp_cons. inversion_clear Ha as [|?? Hc Ha'].
  destruct j as [|j]; simpl.
  - intros r [= ? _]. done.
  - apply IH; [done|]. simpl in Hj. lia.
Qed.

(** No match starts inside a match. *)
Lemma no_inner_match c r ds len j :
  match_order_at (String c r) = Some (ds, len) ->
  (j < len - 1)%nat ->
  match_order_at (Js.slice_from j r) = None.
Proof.
  intros (ws & rest & E & Hws & Hds & _ & _ & ->)%match_order_at_Some Hj.
  apply match_order_at_head.
  change ("order:" +:+ ws +:+ ds +:+ rest)
    with (String "o" ("rder:" +:+ ws +:+ ds +:+ rest)) in E.
  injection E as -> ->.
  replace ("rder:" +:+ ws +:+ ds +:+ rest) with (("rder:" +:+ ws +:+ ds) +:+ rest)
    by by rewrite !sapp_assoc.
  apply slice_from_no_o.
  - rewrite !chars_app, !list.Forall_app. split_and!.
    + repeat constructor; by vm_compute.
    + eapply list.Forall_impl; [exact Hws|]. intros c Hc. by apply space_not_o.
    + eapply list.Forall_impl; [exact Hds|]. intros c Hc. by apply digit_not_o.
  - rewrite !sapp_length. simpl in *. lia.
Qed.

(** The scan of [matchAll] finds the matches of all offsets. *)
Lemma matchAll_order_all s k :
  (forall j, (j < k)%nat -> match_order_at (Js.slice_from j s) = None) ->
  matchAll_order k s = all_matches s.
Proof.
  revert k. induction s as [|c r IH]; intros k Hk; [done|].
  destruct k as [|k].
  - simpl. destruct (match_order_at (String c r)) as [[ds len]|] eqn:E.
    + simpl. f_equal. apply IH. intros j Hj. by eapply no_inner_match.
    + simpl. apply IH. intros j Hj. lia.
  - cbn [matchAll_order all_matches]. pose proof (Hk 0%nat ltac:(lia)) as H0.
    change (Js.slice_from 0 (String c r)) with (String c r) in H0. rewrite H0. simpl.
    apply IH. intros j Hj. apply (Hk (S j)). lia.
Qed.

Lemma all_matches_suffix before suf ds :
  ds ∈ all_matches suf -> ds ∈ all_matches (before +:+ suf).
Proof.
  induction before as [|c b IH]; [done|]. intros H. rewrite sapp_cons.
  cbn [all_matches]. apply elem_of_app. right. by apply IH.
Qed.

Lemma all_matches_elem s ds :
  ds ∈ all_matches s <->
  exists before suf len, s = before +:+ suf /\ match_order_at suf = Some (ds, len).
Proof.
  split.
  - induction s as [|c r IH].
    + simpl. by intros ?%elem_of_nil.
    + cbn [all_matches]. intros [H|H]%elem_of_app.
      * destruct (match_order_at (String c r)) as [[ds' len]|] eqn:E;
          [|by apply elem_of_nil in H].
        apply list_elem_of_singleton in H as ->. by exists EmptyString, (String c r), len.
      * destruct (IH H) as (b & suf & len & -> & ?). by exists (String c b), suf, len.
  - intros (b & suf & len & -> & E). apply all_matches_suffix.
    destruct suf as [|c r]; [done|]. cbn [all_matches]. rewrite E.
    apply elem_of_app. left. by apply list_elem_of_singleton.
Qed.

Lemma order_occurrence_matches content v :
  order_occurrence content v <->
  exists ds, ds ∈ matchAll_order 0 content /\ v = integer ds.
Proof.
  rewrite matchAll_order_all by (intros; lia). split.
  - intros (b & ws & ds & after & -> & Hws & Hds & Hne & Hafter & ->).
    exists ds. split; [|done]. apply all_matches_elem.
    exists b, ("order:" +:+ ws +:+ ds +:+ after), (6 + String.length ws + String.length ds)%nat.
    split; [done|]. apply match_order_at_Some. by exists ws, after.
  - intros (ds & (b & suf & len & -> & Hm)%all_matches_elem & ->).
    apply match_order_at_Some in Hm as (ws & rest & -> & ? & ? & ? & ? & _).
    by exists b, ws, ds, rest.
Qed.

(** *** The largest integer of an occurrence *)
Definition exact_step (m : N) (orderStr : string) : N := N.max m (integer orderStr).

Definition largest (content : string) : N :=
  foldl exact_step 0 (matchAll_order 0 content).

Lemma foldl_exact_step l m0 :
  let m := foldl exact_step m0 l in
  m0 <= m /\ (forall ds, ds ∈ l -> integer ds <= m) /\
  (m = m0 \/ exists ds, ds ∈ l /\ m = integer ds).
Proof.
  revert m0. induction l as [|x l IH]; intros m0; simpl.
  - split_and!; [lia| |by left]. by intros ? ?%elem_of_nil.
  - destruct (IH (exact_step m0 x)) as (H1 & H2 & H3).
    assert (m0 <= exact_step m0 x /\ integer x <= exact_step m0 x /\
            (exact_step m0 x = m0 \/ exact_step m0 x = integer x)) as (? & ? & Hx).
    { unfold exact_step. lia. }
    split_and!; [lia| |].
    + intros ds [->|?]%elem_of_cons; [lia|by apply H2].
    + destruct H3 as [->|(ds & ? & ->)].
      * destruct Hx as [->| ->]; [by left|]. right. exists x. split; [left|done].
      * right. exists ds. split; [by right|done].
Qed.

(** Every text has a largest order. *)
Lemma max_order_largest content : max_order content (largest content).
Proof.
  unfold largest. set (l := matchAll_order 0 content).
  destruct (foldl_exact_step l 0) as (_ & Hub & Hin). simpl in *. split.
  - intros v (ds & Hds & ->)%order_occurrence_matches. by apply Hub.
  - destruct l as [|x l'] eqn:El.
    + right. split; [done|]. intros v (ds & Hds & _)%order_occurrence_matches.
      fold l in Hds. rewrite El in Hds. by apply elem_of_nil in Hds.
    + left. apply order_occurrence_matches. fold l. rewrite El.
      destruct Hin as [E|(ds & ? & E)]; [|by exists ds].
      exists x. split; [left|]. pose proof (Hub x ltac:(left)) as Hx. lia.
Qed.

Lemma max_order_unique content m m' :
  max_order content m -> max_order content m' -> m = m'.
Proof.
  intros [Hub Hm] [Hub' Hm']. apply N.le_antisymm.
  - destruct Hm as [Hm|[-> _]]; [by apply Hub'|lia].
  - destruct Hm' as [Hm'|[-> _]]; [by apply Hub|lia].
Qed.

(** *** What the code computes *)
Definition max_step (maxOrder : Js.number) (orderStr : string) : Js.number :=
  let order := parseInt orderStr in
  if Js.ltb maxOrder order then order else maxOrder.

(** As long as every integer is below 2^53 the loop computes the largest. *)
Lemma foldl_max_step_exact l m0 :
  m0 < DoubleFacts.safe -> (forall ds, ds ∈ l -> integer ds < DoubleFacts.safe) ->
  foldl max_step (Js.Finite m0) l = Js.Finite (foldl exact_step m0 l).
Proof.
  revert m0. induction l as [|x l IH]; intros m0 Hm0 Hl; [done|]. simpl.
  assert (max_step (Js.Finite m0) x = Js.Finite (exact_step m0 x)) as ->.
  { unfold max_step, exact_step, parseInt.
    rewrite DoubleFacts.round64_exact by (apply Hl; left). simpl.
    destruct (N.ltb_spec m0 (integer x)); f_equal; lia. }
  apply IH.
  - unfold exact_step. pose proof (Hl x ltac:(left)). lia.
  - intros ds Hds. apply Hl. by right.
Qed.

(** [getNextNavOrder] is ten more than the largest occurrence, and ten when
    there is none, as long as the sum is below 2^53. *)
Lemma getNextNavOrder_exact content m :
  max_order content m -> m + 10 < DoubleFacts.safe ->
  getNextNavOrder content = Js.Finite (m + 10).
Proof.
  intros Hm Hsafe.
  rewrite (max_order_unique content m _ Hm (max_order_largest content)) in *.
  unfold getNextNavOrder. fold max_step. unfold largest in *.
  set (l := matchAll_order 0 content) in *.
  destruct (foldl_exact_step l 0) as (_ & Hub & _). simpl in Hub.
  rewrite foldl_max_step_exact.
  - by apply DoubleFacts.plus_exact.
  - by vm_compute.
  - intros ds Hds. specialize (Hub ds Hds). lia.
Qed.

Lemma foldl_max_step_above l m0 :
  DoubleFacts.le m0 (foldl max_step m0 l) /\
  forall ds, ds ∈ l -> DoubleFacts.le (parseInt ds) (foldl max_step m0 l).
Proof.
  revert m0. induction l as [|x l IH]; intros m0; simpl.
  - split; [apply DoubleFacts.le_refl|]. by intros ? ?%elem_of_nil.
  - destruct (IH (max_step m0 x)) as [H1 H2].
    assert (DoubleFacts.le m0 (max_step m0 x) /\
            DoubleFacts.le (parseInt x) (max_step m0 x)) as [Hm Hx].
    { unfold max_step. destruct (Js.ltb m0 (parseInt x)) eqn:E.
      - split; [|apply DoubleFacts.le_refl]. unfold DoubleFacts.le.
        destruct m0 as [a|], (parseInt x) as [b|]; simpl in *; try done.
        apply N.ltb_lt in E. apply N.ltb_ge. lia.
      - split; [apply DoubleFacts.le_refl|done]. }
    split; [by eapply DoubleFacts.le_trans|].
    intros ds [->|Hds]%elem_of_cons; [by eapply DoubleFacts.le_trans|by apply H2].
Qed.

(** Whatever else the text holds, an occurrence [v] makes the next order
    [v + 10] at least, as long as [v + 10] is a double up to 2^53. *)
Lemma getNextNavOrder_above content v :
  order_occurrence content v -> v + 10 <= DoubleFacts.safe ->
  DoubleFacts.le (Js.Finite (v + 10)) (getNextNavOrder content).
Proof.
  intros (ds & Hds & ->)%order_occurrence_matches Hsafe.
  unfold getNextNavOrder. fold max_step.
  apply DoubleFacts.plus_lower; [done|].
  destruct (foldl_max_step_above (matchAll_order 0 content) (Js.Finite 0)) as [_ H].
  specialize (H ds Hds). unfold parseInt in H.
  rewrite DoubleFacts.round64_exact in H; [done|]. unfold DoubleFacts.safe in *. lia.
Qed.

End NavOrderFacts.


(** ** The working tree *)
Module FsFacts.
Import Fs.

Lemma bind_Ok {A B} (m : result A) (f : A -> result B) b :
  m ≫= f = Ok b <-> exists a, m = Ok a /\ f a = Ok b.
Proof. destruct m; simpl; naive_solver. Qed.

Lemma lookup_app p r t : lookup (p ++ r) t = lookup p t ≫= lookup r.
Proof.
  revert t. induction p as [|x p IH]; intros t; [done|]. simpl.
  destruct t as [|m]; [done|]. destruct (m !! x); simpl; [apply IH|done].
Qed.

Lemma kind_at_nil t : kind_at [] t = Some (kind_of t).
Proof. done. Qed.

Lemma kind_at_cons x q t :
  kind_at (x :: q) t =
  match t with Dir m => m !! x ≫= kind_at q | File _ => None end.
Proof. unfold kind_at. simpl. destruct t as [|m]; [done|]. by destruct (m !! x). Qed.

Lemma kind_at_app p r t : kind_at (p ++ r) t = lookup p t ≫= kind_at r.
Proof. unfold kind_at. rewrite lookup_app. by destruct (lookup p t). Qed.

Lemma lookup_kind p t n : lookup p t = Some n -> kind_at p t = Some (kind_of n).
Proof. unfold kind_at. by intros ->. Qed.

Lemma kind_at_dir p t : kind_at p t = Some IsDir <-> exists m, lookup p t = Some (Dir m).
Proof.
  unfold kind_at. destruct (lookup p t) as [[c|m]|]; simpl; split; try naive_solver.
Qed.

Lemma kind_at_file p t c : kind_at p t = Some (IsFile c) <-> lookup p t = Some (File c).
Proof.
  unfold kind_at. destruct (lookup p t) as [[c'|m]|]; simpl; split; naive_solver.
Qed.

Lemma file_at_kind p t c : file_at p t = Some c <-> kind_at p t = Some (IsFile c).
Proof.
  unfold file_at, kind_at. destruct (lookup p t) as [[c'|m]|]; simpl; naive_solver.
Qed.

Lemma file_at_eq p t t' : kind_at p t' = kind_at p t -> file_at p t' = file_at p t.
Proof.
  unfold file_at, kind_at.
  destruct (lookup p t) as [[?|?]|], (lookup p t') as [[?|?]|]; naive_solver.
Qed.

Lemma existsSync_kind p t : existsSync p t = bool_decide (is_Some (kind_at p t)).
Proof.
  unfold existsSync, kind_at. apply bool_decide_ext. by rewrite fmap_is_Some.
Qed.

Lemma existsSync_eq p t t' : kind_at p t' = kind_at p t -> existsSync p t' = existsSync p t.
Proof. rewrite !existsSync_kind. by intros ->. Qed.

Lemma readFileSync_file p t c : kind_at p t = Some (IsFile c) -> readFileSync p t = Ok c.
Proof. intros H%kind_at_file. unfold readFileSync. by rewrite H. Qed.

(** Nothing lies below a file, and everything lies below directories. *)
Lemma kind_at_below_file p r t c :
  kind_at p t = Some (IsFile c) -> r <> [] -> kind_at (p ++ r) t = None.
Proof.
  intros H%kind_at_file Hr. rewrite kind_at_app, H. simpl. by destruct r.
Qed.

Lemma kind_at_above p r t :
  is_Some (kind_at (p ++ r) t) -> r <> [] -> kind_at p t = Some IsDir.
Proof.
  rewrite kind_at_app. intros [k Hk] Hr. unfold kind_at.
  destruct (lookup p t) as [[c|m]|]; simpl in *; [|done..].
  by destruct r.
Qed.

(** *** [writeFileSync] *)
Lemma kind_at_write p c t t' q :
  writeFileSync p c t = Ok t' ->
  kind_at q t' = if decide (q = p) then Some (IsFile c) else kind_at q t.
Proof.
  revert t t' q. induction p as [|x p IH]; intros t t' q.
  - destruct t as [c0|m]; [|done]. intros [= <-].
    destruct q as [|y q]; [done|]. by rewrite !kind_at_cons.
  - destruct t as [c0|m]; [done|]. simpl.
    destruct (m !! x) as [child|] eqn:Hx.
    + intros (child' & Hw & [= <-])%bind_Ok.
      destruct q as [|y q]; [done|]. rewrite !kind_at_cons, lookup_insert.
      destruct (decide (x = y)) as [<-|Hxy].
      * simpl. rewrite Hx. simpl. rewrite (IH _ _ q Hw).
        by repeat case_decide; simplify_eq.
      * by repeat case_decide; simplify_eq.
    + destruct p as [|z p]; [|done]. intros [= <-].
      destruct q as [|y q]; [done|]. rewrite !kind_at_cons, lookup_insert.
      destruct (decide (x = y)) as [<-|Hxy].
      * rewrite Hx. simpl. destruct q as [|z q]; [by rewrite decide_True|].
        rewrite decide_False by congruence. by rewrite kind_at_cons.
      * by rewrite decide_False by congruence.
Qed.

Lemma writeFileSync_ok p x c t :
  kind_at p t = Some IsDir -> kind_at (p ++ [x]) t <> Some IsDir ->
  exists t', writeFileSync (p ++ [x]) c t = Ok t'.
Proof.
  revert t. induction p as [|y p IH]; intros t.
  - destruct t as [c0|m]; [done|]. intros _. simpl. rewrite kind_at_cons.
    destruct (m !! x) as [[c1|m1]|]; simpl; [by eexists| |by eexists].
    rewrite kind_at_nil. done.
  - destruct t as [c0|m]; [done|]. simpl. rewrite !kind_at_cons.
    destruct (m !! y) as [child|]; simpl; [|done].
    intros H1 H2. destruct (IH child H1 H2) as [t' ->]. by eexists.
Qed.

(** *** [mkdirSync] *)
Lemma if_prefix_cons {A} (x y : string) (q p : path) (a b : A) :
  (if decide ((y :: q) `prefix_of` (x :: p)) then a else b) =
  if decide (x = y) then (if decide (q `prefix_of` p) then a else b) else b.
Proof.
  destruct (decide (x = y)) as [<-|Hxy].
  - destruct (decide (q `prefix_of` p)) as [Hq|Hq].
    + by rewrite decide_True by by apply prefix_cons.
    + rewrite decide_False; [done|]. by intros ?%prefix_cons_inv_2.
  - rewrite decide_False; [done|]. by intros ?%prefix_cons_inv_1.
Qed.

Lemma if_prefix_nil_r {A} (y : string) (q : path) (a b : A) :
  (if decide ((y :: q) `prefix_of` []) then a else b) = b.
Proof. rewrite decide_False; [done|]. by intros [? ?]. Qed.

Lemma if_prefix_nil_l {A} (p : path) (a b : A) :
  (if decide ([] `prefix_of` p) then a else b) = a.
Proof. rewrite decide_True; [done|]. apply prefix_nil. Qed.

Lemma kind_at_fresh_dirs p q :
  kind_at q (fresh_dirs p) = if decide (q `prefix_of` p) then Some IsDir else None.
Proof.
  revert q. induction p as [|x p IH]; intros [|y q];
    rewrite ?if_prefix_nil_l, ?if_prefix_nil_r, ?if_prefix_cons; try done.
  rewrite kind_at_cons. simpl. rewrite lookup_singleton.
  destruct (decide (x = y)) as [<-|Hxy]; simpl; [apply IH|done].
Qed.

Lemma kind_at_mkdir p t t' q :
  mkdirSync p t = Ok t' ->
  kind_at q t' = if decide (q `prefix_of` p) then Some IsDir else kind_at q t.
Proof.
  revert t t' q. induction p as [|x p IH]; intros t t' q.
  - destruct t as [c0|m]; [done|]. intros [= <-].
    destruct q as [|y q]; by rewrite ?if_prefix_nil_l, ?if_prefix_nil_r.
  - destruct t as [c0|m]; [done|]. simpl.
    destruct q as [|y q].
    { intros H. rewrite if_prefix_nil_l.
      destruct (m !! x); [|by simplify_eq].
      by apply bind_Ok in H as (? & _ & [= <-]). }
    rewrite if_prefix_cons.
    destruct (m !! x) as [child|] eqn:Hx.
    + intros (child' & Hm & [= <-])%bind_Ok.
      rewrite !kind_at_cons, lookup_insert.
      destruct (decide (x = y)) as [<-|Hxy]; simpl; [|done].
      rewrite Hx. simpl. apply (IH _ _ q Hm).
    + intros [= <-]. rewrite !kind_at_cons, lookup_insert.
      destruct (decide (x = y)) as [<-|Hxy]; simpl; [|done].
      rewrite Hx. simpl. rewrite kind_at_fresh_dirs. by destruct (decide _).
Qed.

Lemma mkdirSync_ok p t : dir_possible p t = true -> exists t', mkdirSync p t = Ok t'.
Proof.
  revert t. induction p as [|x p IH]; intros [c|m]; simpl; try done.
  - by eexists.
  - destruct (m !! x) as [child|]; [|by eexists].
    intros [t' ->]%IH. by eexists.
Qed.

(** Once all directories of [p] are there or can be made, they can after a
    write or a [mkdir] elsewhere. *)
Lemma dir_possible_kind p t :
  dir_possible p t = true <->
  forall q c, q `prefix_of` p -> kind_at q t <> Some (IsFile c).
Proof.
  revert t. induction p as [|x p IH]; intros t.
  - destruct t as [c|m]; simpl.
    + split; [done|]. intros H. by destruct (H [] c).
    + split; [|done]. intros _ q c ->%prefix_nil_inv. done.
  - destruct t as [c|m]; simpl.
    + split; [done|]. intros H. by destruct (H [] c (prefix_nil _)).
    + destruct (m !! x) as [child|] eqn:Hx.
      * rewrite IH. split.
        -- intros H [|y q] c Hq; [done|]. rewrite kind_at_cons.
           pose proof (prefix_cons_inv_1 _ _ _ _ Hq) as ->.
           rewrite Hx. simpl. by eapply H, prefix_cons_inv_2.
        -- intros H q c Hq. specialize (H (x :: q) c (prefix_cons _ _ _ Hq)).
           by rewrite kind_at_cons, Hx in H.
      * split; [|done]. intros _ [|y q] c Hq; [done|]. rewrite kind_at_cons.
        pose proof (prefix_cons_inv_1 _ _ _ _ Hq) as ->. by rewrite Hx.
Qed.

(** *** [rmSync] *)
Lemma rmSync_cons x z p m :
  rmSync (x :: z :: p) (Dir m) = Dir (alter (rmSync (z :: p)) x m).
Proof. reflexivity. Qed.

Lemma kind_at_rm p t q :
  p <> [] ->
  kind_at q (rmSync p t) = if decide (p `prefix_of` q) then None else kind_at q t.
Proof.
  revert t q. induction p as [|x p IH]; intros t q Hp; [done|].
  destruct q as [|y q].
  { rewrite if_prefix_nil_r. destruct t as [c|m]; [done|]. simpl. by destruct p. }
  rewrite if_prefix_cons.
  destruct t as [c|m].
  { simpl. rewrite kind_at_cons. by repeat case_decide. }
  destruct p as [|z p].
  - rewrite if_prefix_nil_l. simpl. rewrite !kind_at_cons, lookup_delete.
    destruct (decide (y = x)) as [->|Hxy]; simpl; [by rewrite decide_True|].
    by rewrite decide_False.
  - rewrite rmSync_cons, !kind_at_cons, lookup_alter.
    destruct (decide (y = x)) as [->|Hxy].
    + rewrite decide_True by done. destruct (m !! x) as [child|] eqn:Hx.
      * cbn [fmap option_fmap option_map mbind option_bind]. by rewrite IH.
      * simpl. by destruct (decide _).
    + by rewrite decide_False.
Qed.

Lemma kind_at_rmFile p t q :
  p <> [] ->
  kind_at q (rmFileSync p t) =
  if decide (q = p) then
    match kind_at p t with Some (IsFile _) => None | k => k end
  else kind_at q t.
Proof.
  intros Hne. unfold rmFileSync. destruct (lookup p t) as [[c|m]|] eqn:Hp.
  - pose proof (lookup_kind _ _ _ Hp) as Hk. simpl in Hk.
    destruct p as [|x p]; [done|].
    rewrite kind_at_rm by done. rewrite Hk.
    destruct (decide (q = x :: p)) as [->|Hq]; [by rewrite decide_True|].
    destruct (decide ((x :: p) `prefix_of` q)) as [[r ->]|]; [|done].
    symmetry. eapply kind_at_below_file; [done|]. intros ->. by rewrite app_nil_r in Hq.
  - destruct (decide (q = p)) as [->|]; [|done].
    by rewrite (lookup_kind _ _ _ Hp).
  - destruct (decide (q = p)) as [->|]; [|done].
    unfold kind_at. by rewrite Hp.
Qed.

End FsFacts.


(** ** Page generation *)
Module PagesFacts.
Import Fs FsFacts Pages.

Lemma sapp_inj_r a b c : a +:+ c = b +:+ c -> a = b.
Proof.
  intros H. apply chars_inj. apply (f_equal Js.chars) in H.
  rewrite !chars_app in H. by apply app_inv_tail in H.
Qed.

Lemma pageFile_inj a b : pageFile a = pageFile b -> a = b.
Proof. unfold pageFile. intros [= H]. by apply sapp_inj_r in H. Qed.

Lemma toRouteId_inj a b :
  Prompts.valid_slug a -> Prompts.valid_slug b -> toRouteId a = toRouteId b -> a = b.
Proof.
  intros [_ Ha _ _ _ _] [_ Hb _ _ _ _]. revert b Hb.
  induction a as [|x a IH]; intros [|y b] Hb; simpl; try done.
  intros [= Hxy Hab]. f_equal.
  - assert (Prompts.slug_char x = true) as Hx by (apply Ha; left).
    assert (Prompts.slug_char y = true) as Hy by (apply Hb; left).
    repeat case_decide; simplify_eq; try done.
  - apply IH; [|intros c Hc; apply Hb; by right|done].
    intros c Hc. apply Ha. by right.
Qed.

Lemma langPageFile_inj a b :
  Prompts.valid_slug a -> Prompts.valid_slug b -> langPageFile a = langPageFile b -> a = b.
Proof.
  unfold langPageFile. intros Ha Hb [= H]. apply toRouteId_inj; [done..|].
  exact (sapp_inj_r (toRouteId a) (toRouteId b) "].astro" H).
Qed.

Lemma ensureDir_spec p t :
  dir_possible p t = true ->
  exists t', ensureDir p t = Ok t' /\
    forall q, kind_at q t' = if decide (q `prefix_of` p) then Some IsDir else kind_at q t.
Proof.
  intros Hp. unfold ensureDir. rewrite existsSync_kind.
  destruct (kind_at p t) as [k|] eqn:Hk.
  - rewrite bool_decide_eq_true_2 by done. simpl. exists t. split; [done|].
    intros q. case_decide as Hq; [|done]. destruct Hq as [r ->].
    destruct (decide (r = [])) as [->|Hr].
    + rewrite app_nil_r in Hk. rewrite Hk. destruct k as [c|]; [|done].
      apply dir_possible_kind with (q := q) (c := c) in Hp; [done|].
      exists []. by rewrite app_nil_r.
    + by apply kind_at_above with (r := r).
  - rewrite bool_decide_eq_false_2 by (by intros [? ?]). simpl.
    destruct (mkdirSync_ok _ _ Hp) as [t' Ht']. exists t'. split; [done|].
    intros q. by apply kind_at_mkdir.
Qed.

(** *** A loop that writes one page per name *)
Section Loop.
Variables (file : string -> path) (tmpl name : string -> string).
Variable after : string -> node -> result node.
Variable dir : path.
Variable D : string -> Prop.
Variable Inv : node -> Prop.
Hypothesis file_dir : forall p, exists x, file p = dir ++ [x].
Hypothesis file_inj : forall a b, D a -> D b -> file a = file b -> a = b.
Hypothesis after_skip : forall p t, D p -> Inv t -> after p t = Ok t.
Hypothesis Inv_write : forall p c t t',
  Inv t -> writeFileSync (file p) c t = Ok t' -> Inv t'.

Definition body (st : node * list string) (p : string) : result (node * list string) :=
  let '(t, generatedFiles) := st in
  t ← writeFileSync (file p) (tmpl p) t;
  let generatedFiles := generatedFiles ++ [name p] in
  t ← after p t;
  Ok (t, generatedFiles).

Lemma loop_spec pages t gf :
  Forall D pages ->
  Inv t ->
  kind_at dir t = Some IsDir ->
  (forall p, p ∈ pages -> kind_at (file p) t <> Some IsDir) ->
  exists t',
    foldM body (t, gf) pages = Ok (t', gf ++ (name <$> pages)) /\
    Inv t' /\
    (forall p, p ∈ pages -> kind_at (file p) t' = Some (IsFile (tmpl p))) /\
    (forall q, (forall p, p ∈ pages -> q <> file p) -> kind_at q t' = kind_at q t).
Proof.
  revert t gf. induction pages as [|x pages IH]; intros t gf HD HI Hdir Hfree.
  - exists t. rewrite app_nil_r. split_and!; try done. by intros p ?%elem_of_nil.
  - inversion_clear HD as [|?? Hx HD'].
    destruct (file_dir x) as [fx Efx].
    destruct (writeFileSync_ok dir fx (tmpl x) t Hdir) as [t1 Hw].
    { rewrite <- Efx. apply Hfree. left. }
    rewrite <- Efx in Hw.
    assert (Inv t1) as HI1 by by eapply Inv_write.
    destruct (IH t1 (gf ++ [name x]) HD' HI1) as (t' & Hfold & HI' & Hfiles & Hframe).
    { rewrite (kind_at_write _ _ _ _ _ Hw). case_decide as E; [|done].
      rewrite Efx in E. apply (f_equal length) in E. rewrite length_app in E.
      simpl in E. lia. }
    { intros p Hp. rewrite (kind_at_write _ _ _ _ _ Hw). case_decide; [done|].
      apply Hfree. by right. }
    exists t'. split_and!.
    + simpl. unfold body at 1. rewrite Hw. simpl. rewrite (after_skip _ _ Hx HI1). simpl.
      fold body. rewrite Hfold. by rewrite <- app_assoc.
    + done.
    + intros p [->|Hp]%elem_of_cons; [|by apply Hfiles].
      destruct (decide (x ∈ pages)) as [Hin|Hnin]; [by apply Hfiles|].
      rewrite Hframe.
      * rewrite (kind_at_write _ _ _ _ _ Hw). by rewrite decide_True.
      * intros p Hp E. apply file_inj in E; [by subst| |]; [done|].
        by eapply list.Forall_forall in HD'.
    + intros q Hq. rewrite Hframe by (intros p Hp; apply Hq; by right).
      rewrite (kind_at_write _ _ _ _ _ Hw). rewrite decide_False; [done|].
      apply Hq. left.
Qed.
End Loop.

Definition routesPath (isI18n : bool) : path :=
  if isI18n then i18nRoutesPath else baseRoutesPath.

Definition routeSplice (isI18n : bool) : string -> string -> option string :=
  if isI18n then i18nRouteSplice else baseRouteSplice.

(** The route table gets no entry for any of [pages]: it is not there, or it
    is a file on which every splice returns early. *)
Definition no_splice (isI18n : bool) (pages : list string) (t : node) : Prop :=
  kind_at (routesPath isI18n) t = None \/
  exists c, kind_at (routesPath isI18n) t = Some (IsFile c) /\
            forall p, p ∈ pages -> routeSplice isI18n c p = None.

Lemma addBaseRouteEntry_skip pages p t :
  p ∈ pages -> no_splice false pages t -> addBaseRouteEntry p t = Ok t.
Proof.
  intros Hp [Hk|(c & Hk & Hc)]; unfold addBaseRouteEntry; rewrite existsSync_kind;
    simpl in Hk; rewrite Hk.
  - by rewrite bool_decide_eq_false_2 by by intros [? ?].
  - rewrite bool_decide_eq_true_2 by done. simpl.
    rewrite (readFileSync_file _ _ c Hk). simpl.
    specialize (Hc p Hp). simpl in Hc. by rewrite Hc.
Qed.

Lemma addI18nRouteEntry_skip pages p t :
  p ∈ pages -> no_splice true pages t -> addI18nRouteEntry p t = Ok t.
Proof.
  intros Hp [Hk|(c & Hk & Hc)]; unfold addI18nRouteEntry; rewrite existsSync_kind;
    simpl in Hk; rewrite Hk.
  - by rewrite bool_decide_eq_false_2 by by intros [? ?].
  - rewrite bool_decide_eq_true_2 by done. simpl.
    rewrite (readFileSync_file _ _ c Hk). simpl.
    specialize (Hc p Hp). simpl in Hc. by rewrite Hc.
Qed.

Lemma no_splice_write isI18n pages p c t t' :
  p <> routesPath isI18n ->
  no_splice isI18n pages t -> writeFileSync p c t = Ok t' -> no_splice isI18n pages t'.
Proof.
  intros Hp H Hw. unfold no_splice.
  by rewrite (kind_at_write _ _ _ _ _ Hw), decide_False.
Qed.

Definition baseName (p : string) : string := "src/pages/" +:+ p +:+ ".astro".
Definition langName (p : string) : string :=
  "src/pages/[lang]/[..." +:+ toRouteId p +:+ "].astro".

Lemma slug_not_bracket p : Prompts.valid_slug p -> p +:+ ".astro" <> "[lang]".
Proof.
  intros [Hne Ha _ _ _ _]. destruct p as [|c p]; [done|]. rewrite sapp_cons.
  intros [= -> _]. assert (Prompts.slug_char "["%char = true) as H by (apply Ha; left).
  by vm_compute in H.
Qed.

(** What [generatePages] does when no route table gets an entry. *)
Lemma generatePages_no_splice pages layout (isI18n : bool) t :
  Forall Prompts.valid_slug pages ->
  dir_possible (if isI18n then langDir else pagesDir) t = true ->
  (forall p, p ∈ pages ->
     kind_at (pageFile p) t <> Some IsDir /\ kind_at (langPageFile p) t <> Some IsDir) ->
  no_splice isI18n pages t ->
  exists t',
    generatePages pages layout isI18n t =
      Ok (t', (baseName <$> pages) ++ (if isI18n then langName <$> pages else [])) /\
    kind_at (routesPath isI18n) t' = kind_at (routesPath isI18n) t /\
    forall p, p ∈ pages ->
      kind_at (pageFile p) t' = Some (IsFile (generatePageTemplate p layout)) /\
      (isI18n = true ->
       kind_at (langPageFile p) t' = Some (IsFile (generateI18nPageTemplate p layout))).
Proof.
  intros Hslug Hdirs Hfree Hskip.
  destruct pages as [|p0 pages0] eqn:Epages.
  { exists t. simpl. split_and!; [by destruct isI18n|done|]. by intros ? ?%elem_of_nil. }
  rewrite <- Epages in *. assert (pages <> []) as Hne by by rewrite Epages.
  assert (generatePages pages layout isI18n t =
    (t ← ensureDir pagesDir t;
     st ← foldM (writeBasePage layout isI18n) (t, []) pages;
     if isI18n then
       t ← ensureDir langDir st.1; foldM (writeLangPage layout) (t, st.2) pages
     else Ok st)) as -> by by rewrite Epages.
  clear p0 pages0 Epages.
  assert (dir_possible pagesDir t = true) as Hpd.
  { destruct isI18n; [|done]. apply dir_possible_kind. intros q c Hq.
    eapply dir_possible_kind in Hdirs; [done|]. etrans; [done|]. by exists ["[lang]"]. }
  destruct (ensureDir_spec _ _ Hpd) as (t1 & -> & Ht1). simpl.
  (* first loop *)
  destruct (loop_spec pageFile (fun p => generatePageTemplate p layout) baseName
              (fun p t => if negb isI18n then addBaseRouteEntry p t else Ok t)
              pagesDir (fun p => p ∈ pages) (no_splice isI18n pages))
    with (pages := pages) (t := t1) (gf := @nil string)
    as (t2 & Hloop1 & Hskip2 & Hfiles2 & Hframe2).
  { intros p. by eexists. }
  { intros a b _ _. apply pageFile_inj. }
  { intros p t0 Hp Ht0. destruct isI18n; [done|]. by eapply addBaseRouteEntry_skip. }
  { intros p c t0 t0' Ht0 Hw. eapply no_splice_write; [|done..]. by destruct isI18n. }
  { by apply list.Forall_forall. }
  { unfold no_splice. rewrite Ht1. rewrite decide_False; [done|].
    intros [r Hr]. by destruct isI18n. }
  { by rewrite Ht1, decide_True. }
  { intros p Hp. rewrite Ht1. rewrite decide_False; [by apply Hfree|].
    intros [r Hr]. by destruct r. }
  change (foldM (writeBasePage layout isI18n) (t1, []) pages) with
    (foldM (body pageFile (fun p => generatePageTemplate p layout) baseName
              (fun p t => if negb isI18n then addBaseRouteEntry p t else Ok t)) (t1, []) pages).
  rewrite Hloop1. simpl.
  assert (forall q, ~ q `prefix_of` pagesDir -> (forall p, p ∈ pages -> q <> pageFile p) ->
                    kind_at q t2 = kind_at q t) as Hframe02.
  { intros q Hq1 Hq2. by rewrite Hframe2, Ht1, decide_False. }
  destruct isI18n.
  - (* second loop *)
    assert (dir_possible langDir t2 = true) as Hld.
    { apply dir_possible_kind. intros q c Hq Hk.
      destruct (decide (q `prefix_of` pagesDir)) as [Hq'|Hq'].
      - rewrite Hframe2, Ht1, decide_True in Hk by (try done; intros p _ ->; by destruct Hq' as [[|??] ?]).
        done.
      - assert (q = langDir) as ->.
        { destruct Hq as [r Hr]. unfold langDir, pagesDir in *.
          destruct q as [|a [|b [|d [|??]]]]; simplify_eq/=;
            first [done | destruct Hq'; eexists; reflexivity]. }
        rewrite Hframe02 in Hk; [|done|].
        + eapply dir_possible_kind in Hdirs; [done|done].
        + intros p Hp [= E]. eapply slug_not_bracket; [|done].
          by eapply list.Forall_forall in Hslug. }
    destruct (ensureDir_spec _ _ Hld) as (t3 & -> & Ht3). simpl.
    destruct (loop_spec langPageFile (fun p => generateI18nPageTemplate p layout) langName
                addI18nRouteEntry langDir (fun p => p ∈ pages /\ Prompts.valid_slug p)
                (no_splice true pages))
      with (pages := pages) (t := t3) (gf := baseName <$> pages)
      as (t4 & Hloop2 & Hskip4 & Hfiles4 & Hframe4).
    { intros p. by eexists. }
    { intros a b [_ Ha] [_ Hb]. by apply langPageFile_inj. }
    { intros p t0 [Hp _] Ht0. by eapply addI18nRouteEntry_skip. }
    { intros p c t0 t0' Ht0 Hw. eapply no_splice_write; [|done..]. by intros [=]. }
    { apply list.Forall_forall. intros p Hp. split; [done|].
      by eapply list.Forall_forall in Hslug. }
    { unfold no_splice. rewrite Ht3. rewrite decide_False; [done|]. by intros [r Hr]. }
    { by rewrite Ht3, decide_True. }
    { intros p Hp. rewrite Ht3. rewrite decide_False by (intros [r Hr]; by destruct r).
      rewrite Hframe02; [by apply Hfree| |].
      - intros [r Hr]. by destruct r.
      - by intros p' _. }
    change (foldM (writeLangPage layout) (t3, baseName <$> pages) pages) with
      (foldM (body langPageFile (fun p => generateI18nPageTemplate p layout) langName
                addI18nRouteEntry) (t3, baseName <$> pages) pages).
    rewrite Hloop2. exists t4. split_and!; [done| |].
    + rewrite Hframe4 by by intros p _. rewrite Ht3, decide_False by by intros [r Hr].
      apply Hframe02; [by intros [r Hr]|by intros p _].
    + intros p Hp. split; [|by intros _; apply Hfiles4].
      rewrite Hframe4 by by intros p' _. rewrite Ht3.
      rewrite decide_False; [by apply Hfiles2|].
      intros [r Hr]. unfold langDir, pagesDir, pageFile in Hr. simpl in Hr.
      injection Hr as E _. eapply slug_not_bracket; [|done].
      by eapply list.Forall_forall in Hslug.
  - exists t2. rewrite app_nil_r. split_and!; [done| |].
    + apply Hframe02; [by intros [r Hr]|by intros p _].
    + intros p Hp. split; [by apply Hfiles2|done].
Qed.

End PagesFacts.


(** ** The route-table mutation engine *)
Module RouteTable.
Import Fs FsFacts Pages PagesFacts.

Lemma includes_app_r needle a s :
  Js.includes needle s = true -> Js.includes needle (a +:+ s) = true.
Proof.
  rewrite !includes_true. intros (x & y & ->). exists (a +:+ x), y.
  by rewrite !sapp_assoc.
Qed.

Lemma includes_app_l needle s b :
  Js.includes needle s = true -> Js.includes needle (s +:+ b) = true.
Proof.
  rewrite !includes_true. intros (x & y & ->). exists x, (y +:+ b).
  by rewrite !sapp_assoc.
Qed.

Lemma includes_id_line id : Js.includes (id +:+ ":") ("  " +:+ id +:+ ": {") = true.
Proof. apply includes_true. exists "  ", " {". by rewrite !sapp_assoc. Qed.

Lemma baseRouteText_includes pageName routeId title n :
  Js.includes (routeId +:+ ":") (baseRouteText pageName routeId title n) = true.
Proof.
  unfold baseRouteText, lines. cbn [Js.join].
  do 4 apply includes_app_r. apply includes_app_l, includes_id_line.
Qed.

Lemma i18nRouteText_includes pageName routeId n :
  Js.includes (routeId +:+ ":") (i18nRouteText pageName routeId n) = true.
Proof.
  unfold i18nRouteText, lines. cbn [Js.join].
  do 4 apply includes_app_r. apply includes_app_l, includes_id_line.
Qed.

(** After a splice the identifier is in the table: the next one returns
    early. *)
Lemma baseRouteSplice_once content pageName content' :
  baseRouteSplice content pageName = Some content' ->
  baseRouteSplice content' pageName = None.
Proof.
  unfold baseRouteSplice at 1.
  destruct (Js.includes _ content); [done|].
  destruct (Js.indexOf routes_anchor content) as [i|]; [|done].
  intros [= <-]. unfold baseRouteSplice.
  by rewrite includes_app_r by apply includes_app_l, baseRouteText_includes.
Qed.

Lemma i18nRouteSplice_once content pageName content' :
  i18nRouteSplice content pageName = Some content' ->
  i18nRouteSplice content' pageName = None.
Proof.
  unfold i18nRouteSplice at 1.
  destruct (Js.includes _ content); [done|].
  destruct (Js.indexOf routes_anchor content) as [i|]; [|done].
  intros [= <-]. unfold i18nRouteSplice.
  by rewrite includes_app_r by apply includes_app_l, i18nRouteText_includes.
Qed.

Lemma slots_free_single (isI18n : bool) pageName t :
  kind_at (pageFile pageName) t <> Some IsDir ->
  kind_at (langPageFile pageName) t <> Some IsDir ->
  forall p, p ∈ [pageName] ->
    kind_at (pageFile p) t <> Some IsDir /\ kind_at (langPageFile p) t <> Some IsDir.
Proof. by intros ?? p ->%list_elem_of_singleton. Qed.

End RouteTable.

(** C2. A page whose route identifier, followed by a colon, is already in
    the route table leaves the table as it is; a splice puts the identifier
    there, so a second one inserts nothing. On the table
    [about: {order: 10}], page [about] changes nothing and page [pricing]
    then adds one [pricing] entry, with [order: 20] once in the file. *)
Theorem route_insertion_idempotent :
  (forall t pageName layout (isI18n : bool) content,
     Prompts.valid_slug pageName ->
     Fs.dir_possible (if isI18n then Pages.langDir else Pages.pagesDir) t = true ->
     Fs.kind_at (Pages.pageFile pageName) t <> Some Fs.IsDir ->
     Fs.kind_at (Pages.langPageFile pageName) t <> Some Fs.IsDir ->
     Fs.file_at (PagesFacts.routesPath isI18n) t = Some content ->
     Js.includes (Pages.toRouteId pageName +:+ ":") content = true ->
     exists t' files,
       Pages.generatePages [pageName] layout isI18n t = Ok (t', files) /\
       Fs.file_at (PagesFacts.routesPath isI18n) t' = Some content) /\
  (forall content pageName content',
     (Pages.baseRouteSplice content pageName = Some content' ->
      Pages.baseRouteSplice content' pageName = None) /\
     (Pages.i18nRouteSplice content pageName = Some content' ->
      Pages.i18nRouteSplice content' pageName = None)) /\
  (Fs.file_at Pages.baseRoutesPath Samples.about_project = Some Samples.routes_about /\
   Pages.generatePages ["about"] Pages.page false Samples.about_project =
     Ok (Samples.about_project_1, ["src/pages/about.astro"]) /\
   Fs.file_at Pages.baseRoutesPath Samples.about_project_1 = Some Samples.routes_about /\
   Pages.generatePages ["pricing"] Pages.page false Samples.about_project_1 =
     Ok (Samples.about_project_2, ["src/pages/pricing.astro"]) /\
   Fs.file_at Pages.baseRoutesPath Samples.about_project_2 = Some Samples.routes_about_pricing /\
   Js.occurrences "pricing:" Samples.routes_about_pricing = 1%nat /\
   Js.occurrences "order: 20" Samples.routes_about_pricing = 1%nat).
Proof.
  split; [|split].
  - intros t pageName layout isI18n content Hslug Hdir Hf1 Hf2 Hroutes Hid.
    apply FsFacts.file_at_kind in Hroutes.
    destruct (PagesFacts.generatePages_no_splice [pageName] layout isI18n t)
      as (t' & Hgen & Hk & _).
    + by constructor.
    + done.
    + by apply RouteTable.slots_free_single.
    + right. exists content. split; [done|]. intros p ->%list_elem_of_singleton.
      destruct isI18n; simpl; unfold Pages.i18nRouteSplice, Pages.baseRouteSplice;
        by rewrite Hid.
    + eexists _, _. split; [done|]. apply FsFacts.file_at_kind. by rewrite Hk.
  - intros content pageName content'. split.
    + apply RouteTable.baseRouteSplice_once.
    + apply RouteTable.i18nRouteSplice_once.
  - split; [|split; [|split; [|split; [|split; [|split]]]]]; vm_compute; reflexivity.
Qed.

(** C2, at a concrete project: the table that has [about] already. *)
Lemma route_insertion_idempotent_witness :
  exists t' files,
    Pages.generatePages ["about"] Pages.page false
      (Samples.project Pages.baseRoutesPath Samples.routes_about) = Ok (t', files) /\
    Fs.file_at Pages.baseRoutesPath t' = Some Samples.routes_about.
Proof.
  destruct route_insertion_idempotent as [H _].
  apply (H (Samples.project Pages.baseRoutesPath Samples.routes_about)
           "about" Pages.page false Samples.routes_about).
  - apply (PromptsFacts.parsed_name_valid "about"). vm_compute. left.
  - vm_compute. reflexivity.
  - vm_compute. discriminate.
  - vm_compute. discriminate.
  - vm_compute. reflexivity.
  - vm_compute. reflexivity.
Defined.

(** C9. ["  Contact Us!! "] becomes the slug [contact-us], with the route
    identifier [contact_us] and the title [Contact Us]; a reserved word alone
    is rejected, and page generation for it writes no file. *)
Theorem slug_sanitation :
  Prompts.parsePageNames "  Contact Us!! " = ["contact-us"] /\
  Pages.toRouteId "contact-us" = "contact_us" /\
  Pages.toTitle "contact-us" = "Contact Us" /\
  Prompts.parsePageNames "index" = [] /\
  (forall w, w ∈ Prompts.reserved -> Prompts.parsePageNames w = []) /\
  (forall w layout isI18n t, w ∈ Prompts.reserved ->
     Pages.generatePages (Prompts.parsePageNames w) layout isI18n t = Ok (t, [])).
Proof.
  assert (forall w, w ∈ Prompts.reserved -> Prompts.parsePageNames w = []) as H.
  { intros w Hw. unfold Prompts.reserved in Hw.
    repeat (apply elem_of_cons in Hw as [->|Hw]; [by vm_compute|]).
    by apply elem_of_nil in Hw. }
  split; [|split; [|split; [|split; [|split]]]].
  - vm_compute. reflexivity.
  - vm_compute. reflexivity.
  - vm_compute. reflexivity.
  - vm_compute. reflexivity.
  - exact H.
  - intros w layout isI18n t Hw. by rewrite (H w Hw).
Qed.

(** C9, at the reserved word [blog]. *)
Lemma slug_sanitation_witness :
  Pages.generatePages (Prompts.parsePageNames "blog") Pages.landing true
    Samples.about_project = Ok (Samples.about_project, []).
Proof.
  destruct slug_sanitation as (_ & _ & _ & _ & _ & H).
  apply (H "blog" Pages.landing true Samples.about_project).
  vm_compute. right. left.
Defined.


(** ** The dependency resolver *)
Module ResolverFacts.
Import Registry.
#[local] Open Scope nat_scope.

Lemma elem_of_keys {A} (m : gmap string A) id : id ∈ keys m <-> is_Some (m !! id).
Proof.
  unfold keys. rewrite list_elem_of_fmap. split.
  - intros ([k x] & -> & H%elem_of_map_to_list). by exists x.
  - intros [x H]. exists (id, x). split; [done|]. by apply elem_of_map_to_list.
Qed.

Lemma NoDup_keys {A} (m : gmap string A) : NoDup (keys m).
Proof. apply NoDup_fst_map_to_list. Qed.

(** *** Sets in insertion order *)
Lemma elem_of_set_add x y s : x ∈ set_add y s <-> x = y \/ x ∈ s.
Proof.
  unfold set_add. case_decide; [naive_solver|].
  rewrite elem_of_app, list_elem_of_singleton. naive_solver.
Qed.

Lemma NoDup_set_add y s : NoDup s -> NoDup (set_add y s).
Proof.
  unfold set_add. case_decide; [done|]. intros Hs.
  apply list.NoDup_app. split_and!; [done| |apply NoDup_singleton].
  intros x Hx ->%list_elem_of_singleton. done.
Qed.

Lemma set_add_fresh y s : y ∉ s -> set_add y s = s ++ [y].
Proof. unfold set_add. by case_decide. Qed.

Lemma elem_of_set_add_all x ys s : x ∈ set_add_all ys s <-> x ∈ ys \/ x ∈ s.
Proof.
  unfold set_add_all. revert s. induction ys as [|y ys IH]; intros s; simpl.
  - rewrite elem_of_nil. naive_solver.
  - rewrite IH, elem_of_set_add, elem_of_cons. naive_solver.
Qed.

Lemma NoDup_set_add_all ys s : NoDup s -> NoDup (set_add_all ys s).
Proof.
  unfold set_add_all. revert s. induction ys as [|y ys IH]; intros s Hs; simpl; [done|].
  by apply IH, NoDup_set_add.
Qed.


Section Resolve.
Variable registry : ComponentRegistry.
Variable rank : string -> nat.
Hypothesis Hrank : ranked registry rank.
Hypothesis Hplain : names_plain registry.

Local Notation "'R'" := (components registry).

Lemma get_Own {A} (m : gmap string A) k a : m !! k = Some a -> Js.get m k = Js.Own a.
Proof. unfold Js.get. by intros ->. Qed.

Lemma get_plain {A} (m : gmap string A) k :
  m !! k = None -> plain m k -> Js.get m k = Js.Undefined.
Proof.
  unfold plain, Js.get. intros ->. by destruct (decide (k ∈ Js.Object_prototype)).
Qed.

Lemma get_inherited {A} (m : gmap string A) k :
  m !! k = None -> ~ plain m k -> Js.get m k = Js.Inherited.
Proof.
  unfold plain, Js.get. intros ->. destruct (decide (k ∈ Js.Object_prototype)); [done|].
  intros H. by destruct H.
Qed.

(** The three sets are consistent: what is resolved is a component of the
    registry whose files, utilities and dependencies are in. *)
Record closed (st : state) : Prop := {
  closed_nodup : NoDup (resolved st);
  closed_files : NoDup (files st);
  closed_utils : NoDup (utils st);
  closed_resolved : forall x, x ∈ resolved st ->
    exists c, R !! x = Some c /\
      (forall f, f ∈ comp_files c -> f ∈ files st) /\
      (forall u, u ∈ dep_utilities (dependencies c) -> u ∈ utils st) /\
      (forall d, d ∈ dep_components (dependencies c) -> is_Some (R !! d) ->
                 d ∈ resolved st)
}.

(** [st'] comes from [st] by resolving new components, all within
    [bound]. *)
Definition extends (bound : string -> Prop) (st st' : state) : Prop :=
  exists new newE,
    resolved st' = resolved st ++ new /\
    expansions st' = expansions st ++ newE /\
    newE ≡ₚ new /\
    (forall x, x ∈ new -> bound x) /\
    (forall f, f ∈ files st -> f ∈ files st') /\
    (forall u, u ∈ utils st -> u ∈ utils st').

Lemma extends_refl bound st : extends bound st st.
Proof.
  exists [], []. rewrite !app_nil_r. split_and!; try done. by intros ? ?%elem_of_nil.
Qed.

Lemma extends_trans b1 b2 (b : string -> Prop) st1 st2 st3 :
  extends b1 st1 st2 -> extends b2 st2 st3 ->
  (forall x, b1 x -> b x) -> (forall x, b2 x -> b x) ->
  extends b st1 st3.
Proof.
  intros (n1 & e1 & Hr1 & He1 & Hp1 & Hb1 & Hf1 & Hu1)
         (n2 & e2 & Hr2 & He2 & Hp2 & Hb2 & Hf2 & Hu2) H1 H2.
  exists (n1 ++ n2), (e1 ++ e2). split_and!.
  - by rewrite Hr2, Hr1, app_assoc.
  - by rewrite He2, He1, app_assoc.
  - by rewrite Hp1, Hp2.
  - intros x [?|?]%elem_of_app; eauto.
  - eauto.
  - eauto.
Qed.

(** The depth a call for [id] needs. *)
Definition depth (id : string) : nat :=
  match R !! id with Some _ => S (S (rank id)) | None => 1 end.

(** What one call of [resolve], or of any [f] like it, achieves. *)
Definition step_ok (f : state -> string -> option state) (good : string -> Prop) : Prop :=
  forall id st, good id -> closed st ->
    exists st', f st id = Some st' /\ closed st' /\
      extends (fun x => rank x <= rank id /\ is_Some (R !! id)) st st' /\
      (is_Some (R !! id) -> id ∈ resolved st').

Lemma fold_ok f good ids st :
  step_ok f good -> (forall id, id ∈ ids -> good id) -> closed st ->
  exists st', fold_option f st ids = Some st' /\ closed st' /\
    extends (fun x => exists d, d ∈ ids /\ is_Some (R !! d) /\ rank x <= rank d) st st' /\
    (forall d, d ∈ ids -> is_Some (R !! d) -> d ∈ resolved st').
Proof.
  intros Hf. revert st. induction ids as [|id ids IH]; intros st Hgood Hst.
  - exists st. split_and!; [done..|apply extends_refl|]. by intros ? ?%elem_of_nil.
  - destruct (Hf id st) as (st1 & E1 & Hc1 & Hx1 & Hin1); [apply Hgood; left|done|].
    destruct (IH st1) as (st2 & E2 & Hc2 & Hx2 & Hin2);
      [intros; apply Hgood; by right|done|].
    exists st2. simpl. rewrite E1. simpl. split_and!; [done..| |].
    + eapply extends_trans; [done..| |].
      * intros x [? ?]. exists id. split_and!; [left|done..].
      * intros x (d & ? & ? & ?). exists d. split_and!; [by right|done..].
    + intros d [->|Hd]%elem_of_cons Hsome; [|by apply Hin2].
      destruct Hx2 as (n2 & _ & -> & _). apply elem_of_app. left. by apply Hin1.
Qed.

Lemma resolve_ok fuel :
  step_ok (fun st id => resolve fuel registry id st)
          (fun id => depth id <= fuel /\ plain R id).
Proof.
  induction fuel as [|fuel IH]; intros id st [Hd Hid] Hst.
  { unfold depth in Hd. destruct (R !! id); lia. }
  cbn [resolve]. destruct (decide (id ∈ resolved st)) as [Hin|Hnin].
  { exists st. split_and!; [done..|apply extends_refl|done]. }
  destruct (R !! id) as [c|] eqn:Hc.
  - (* expansion *)
    rewrite (get_Own _ _ _ Hc).
    set (st0 := {| resolved := resolved st; utils := utils st; files := files st;
                   warnings := warnings st; expansions := expansions st ++ [id] |}).
    assert (closed st0) as Hst0 by by destruct Hst.
    destruct (fold_ok (fun st dep => resolve fuel registry dep st)
                (fun d => depth d <= fuel /\ plain R d) (dep_components (dependencies c)) st0 IH)
      as (st1 & E1 & Hc1 & (new & newE & Hr1 & He1 & Hp1 & Hb1 & Hf1 & Hu1) & Hin1).
    { intros d Hdep. split; [|by apply (Hplain id c Hc)].
      unfold depth in *. rewrite Hc in Hd.
      destruct (R !! d) as [cd|] eqn:Hcd; [|lia].
      assert (rank d < rank id) by (eapply Hrank; eauto). lia. }
    { done. }
    rewrite E1. simpl. eexists. split; [done|].
    assert (id ∉ resolved st1) as Hfresh.
    { rewrite Hr1. intros [?|Hn]%elem_of_app; [done|].
      destruct (Hb1 _ Hn) as (d & Hdep & Hsome & Hle).
      assert (rank d < rank id) by (eapply Hrank; eauto). lia. }
    split_and!.
    + destruct Hc1 as [N1 N2 N3 Hres]. constructor; simpl.
      * by apply NoDup_set_add.
      * by apply NoDup_set_add_all.
      * by apply NoDup_set_add_all.
      * intros x [->|Hx]%elem_of_set_add.
        -- exists c. split_and!; [done| | |].
           ++ intros f Hf. apply elem_of_set_add_all. by left.
           ++ intros u Hu. apply elem_of_set_add_all. by left.
           ++ intros d Hdep Hsome. apply elem_of_set_add. right. by apply Hin1.
        -- destruct (Hres x Hx) as (cx & ? & Hfx & Hux & Hdx). exists cx.
           split_and!; [done| | |].
           ++ intros f Hf. apply elem_of_set_add_all. right. by apply Hfx.
           ++ intros u Hu. apply elem_of_set_add_all. right. by apply Hux.
           ++ intros d Hdep Hsome. apply elem_of_set_add. right. by apply Hdx.
    + exists (new ++ [id]), (id :: newE). simpl. split_and!.
      * rewrite set_add_fresh by done. by rewrite Hr1, app_assoc.
      * rewrite He1. simpl. by rewrite <- app_assoc.
      * rewrite Hp1. apply Permutation_cons_append.
      * intros x [Hx| ->%list_elem_of_singleton]%elem_of_app; [|split; [lia|done]].
        destruct (Hb1 _ Hx) as (d & Hdep & Hsome & Hle).
        assert (rank d < rank id) by (eapply Hrank; eauto). split; [lia|done].
      * intros f Hf. apply elem_of_set_add_all. right. by apply Hf1.
      * intros u Hu. apply elem_of_set_add_all. right. by apply Hu1.
    + intros _. simpl. apply elem_of_set_add. by left.
  - (* not in the registry: a warning *)
    rewrite (get_plain _ _ Hc Hid).
    eexists. split; [done|]. split_and!.
    + by destruct Hst.
    + exists [], []. simpl. rewrite !app_nil_r. split_and!; try done.
      by intros ? ?%elem_of_nil.
    + by intros [? ?].
Qed.

(** The utilities that the traversal collects are named by components. *)
Definition utils_plain (st : state) : Prop :=
  forall u, u ∈ utils st -> plain (utilities registry) u.

Lemma fold_utils_plain (f : state -> string -> option state) ids :
  (forall id st st', f st id = Some st' -> utils_plain st -> utils_plain st') ->
  forall st st', fold_option f st ids = Some st' -> utils_plain st -> utils_plain st'.
Proof.
  intros Hf. induction ids as [|id ids IH]; intros st st'; simpl.
  - by intros [= <-].
  - destruct (f st id) as [st1|] eqn:E; [|done]. simpl. intros H Hst.
    eapply IH; [done|]. by eapply Hf.
Qed.

Lemma resolve_utils_plain fuel id st st' :
  resolve fuel registry id st = Some st' -> utils_plain st -> utils_plain st'.
Proof.
  revert id st st'. induction fuel as [|fuel IH]; intros id st st'; [done|].
  cbn [resolve]. destruct (decide (id ∈ resolved st)); [by intros [= <-]|].
  unfold Js.get. destruct (R !! id) as [c|] eqn:Hc.
  - match goal with
    | |- context [fold_option ?f ?a ?l] => destruct (fold_option f a l) as [st1|] eqn:E
    end; [|done].
    simpl. intros [= <-] Hst u. simpl. intros [Hu|Hu]%elem_of_set_add_all.
    + by apply (Hplain id c Hc).
    + revert u Hu. eapply (fold_utils_plain _ _ (fun d s s' => IH d s s')); [exact E|].
      exact Hst.
  - destruct (decide (id ∈ Js.Object_prototype)); [done|]. by intros [= <-].
Qed.

Lemma closed_initial : closed initial.
Proof.
  constructor; simpl; try apply NoDup_nil_2. by intros ? ?%elem_of_nil.
Qed.

Lemma collectUtilities_spec st :
  NoDup (files st) -> utils_plain st ->
  exists fs npm,
    collectUtilities registry st = Some (fs, npm) /\
    NoDup fs /\ NoDup npm /\ forall f, f ∈ files st -> f ∈ fs.
Proof.
  unfold collectUtilities, utils_plain. generalize (utils st). intros us.
  assert (NoDup (@nil string)) as Hnil by apply NoDup_nil_2.
  revert Hnil. generalize (@nil string) as npm. generalize (files st) as fs.
  induction us as [|u us IH]; intros fs npm Hnpm Hfs Hus; simpl.
  { by exists fs, npm. }
  assert (forall u', u' ∈ us -> plain (utilities registry) u') as Hus'
    by (intros; apply Hus; by right).
  destruct (utilities registry !! u) as [ut|] eqn:Hu.
  - rewrite (get_Own _ _ _ Hu). simpl.
    destruct (IH (set_add_all (util_files ut) fs) (set_add_all (util_npm ut) npm))
      as (fs' & npm' & E & ? & ? & Hsub); [by apply NoDup_set_add_all..|done|].
    exists fs', npm'. split_and!; [done..|].
    intros f Hf. apply Hsub, elem_of_set_add_all. by right.
  - rewrite (get_plain _ _ Hu) by (apply Hus; left). simpl. by apply IH.
Qed.

(** All the registry fits in this depth. *)
Definition enough : nat := S (S (max_list (rank <$> keys R))).

Lemma depth_enough id fuel : enough <= fuel -> depth id <= fuel.
Proof.
  unfold enough, depth. intros Hfuel. destruct (R !! id) as [c|] eqn:Hc; [|lia].
  assert (rank id ∈ rank <$> keys R) as Hin.
  { apply list_elem_of_fmap_2, elem_of_keys. by rewrite Hc. }
  apply max_list_elem_of_le in Hin. lia.
Qed.

(** The run on a registry without cycles. *)
Lemma resolveRun_ok selection fuel :
  enough <= fuel ->
  (forall id, id ∈ requestedComponents selection registry -> plain R id) ->
  exists st r,
    resolveRun fuel selection registry = Some (st, r) /\
    closed st /\
    expansions st ≡ₚ resolved st /\
    (forall d, d ∈ requestedComponents selection registry -> is_Some (R !! d) ->
               d ∈ resolved st) /\
    res_components r = resolved st /\
    res_utilities r = utils st /\
    NoDup (res_files r) /\
    NoDup (res_npmPackages r) /\
    (forall f, f ∈ files st -> f ∈ res_files r).
Proof.
  intros Hfuel Hreq. unfold resolveRun.
  destruct (fold_ok (fun st id => resolve fuel registry id st)
              (fun id => depth id <= fuel /\ plain R id)
              (requestedComponents selection registry) initial (resolve_ok fuel))
    as (st & E & Hc & (new & newE & Hr & He & Hp & _) & Hin).
  { intros id Hid. split; [by apply depth_enough|by apply Hreq]. }
  { apply closed_initial. }
  simpl in Hr, He.
  assert (utils_plain st) as Hus.
  { eapply (fold_utils_plain _ _ (fun d s s' => resolve_utils_plain fuel d s s')); [exact E|].
    by intros u ?%elem_of_nil. }
  destruct (collectUtilities_spec st (closed_files _ Hc) Hus)
    as (fs & npm & Ecu & N1 & N2 & Hsub).
  destruct (mode selection) eqn:Hmode.
  - exists initial. eexists. split; [done|]. simpl.
    split_and!; try done; try apply NoDup_nil_2; try apply closed_initial.
    unfold requestedComponents. rewrite Hmode. by intros ? ?%elem_of_nil.
  - rewrite E. simpl. rewrite Ecu. simpl.
    eexists _, _. split; [done|]. simpl. split_and!; try done. by rewrite Hr, He.
  - rewrite E. simpl. rewrite Ecu. simpl.
    eexists _, _. split; [done|]. simpl. split_and!; try done. by rewrite Hr, He.
  - rewrite E. simpl. rewrite Ecu. simpl.
    eexists _, _. split; [done|]. simpl. split_and!; try done. by rewrite Hr, He.
Qed.

End Resolve.

(** *** Warnings do not steer the traversal *)
Definition same_sets (st1 st2 : state) : Prop :=
  resolved st1 = resolved st2 /\ utils st1 = utils st2 /\ files st1 = files st2 /\
  expansions st1 = expansions st2.



Lemma closed_same registry st1 st2 :
  same_sets st1 st2 -> closed registry st1 -> closed registry st2.
Proof.
  intros (Hr & Hu & Hf & _) [N1 N2 N3 H]. constructor; rewrite <- ?Hr, <- ?Hu, <- ?Hf; try done.
Qed.




(** *** A cycle *)
Lemma resolve_cyclic fuel st :
  "a" ∉ resolved st -> resolve fuel Samples.cyclic "a" st = None.
Proof.
  revert st. induction fuel as [|fuel IH]; intros st Hst; [done|].
  assert (Js.get (components Samples.cyclic) "a" =
          Js.Own (Samples.component "ui" ["src/components/ui/A.astro"] [] ["a"])) as Hc
    by (vm_compute; reflexivity).
  cbn [resolve]. rewrite decide_False by done. rewrite Hc.
  cbn [Samples.component dependencies dep_components fold_option].
  by rewrite IH.
Qed.

Lemma resolveDependencies_cyclic fuel cats ids :
  resolveDependencies fuel
    {| mode := mode_all; sel_categories := cats; sel_components := ids |}
    Samples.cyclic = None.
Proof.
  unfold resolveDependencies, resolveRun, requestedComponents. cbn [mode].
  assert (keys (components Samples.cyclic) = ["a"]) as -> by (vm_compute; reflexivity).
  cbn [fold_option]. rewrite resolve_cyclic; [done|]. by intros ?%elem_of_nil.
Qed.

(** *** An inherited name *)





Lemma ranked_diamond : ranked Samples.diamond Samples.diamond_rank.
Proof.
  intros id c dep Hc Hdep Hsome. unfold Samples.diamond in Hc. simpl in Hc.
  apply lookup_insert_Some in Hc as [[<- <-]|[_ Hc]]; [by apply elem_of_nil in Hdep|].
  apply lookup_insert_Some in Hc as [[<- <-]|[_ Hc]].
  { apply list_elem_of_singleton in Hdep as ->. by vm_compute. }
  apply lookup_singleton_Some in Hc as [<- <-]. simpl in Hdep.
  apply elem_of_cons in Hdep as [->|Hdep]; [by vm_compute|].
  apply list_elem_of_singleton in Hdep as ->. by destruct Hsome as [? [=]].
Qed.

Lemma plain_diamond : names_plain Samples.diamond.
Proof.
  intros id c Hc. unfold Samples.diamond in Hc. simpl in Hc.
  apply lookup_insert_Some in Hc as [[<- <-]|[_ Hc]];
    [|apply lookup_insert_Some in Hc as [[<- <-]|[_ Hc]];
      [|apply lookup_singleton_Some in Hc as [<- <-]]];
    (split; intros x Hx; simpl in Hx;
     repeat (apply elem_of_cons in Hx as [->|Hx]; [by vm_compute|]);
     by apply elem_of_nil in Hx).
Qed.

End ResolverFacts.

Definition empty_result : Registry.ResolvedComponents :=
  {| Registry.res_components := []; Registry.res_utilities := [];
     Registry.res_files := []; Registry.res_npmPackages := [] |}.

(** On a registry with a cycle the recursion does not come back: a
    component that depends on itself is entered again before it is marked,
    at every depth. *)
Lemma resolve_all_cycle_never_returns :
  ~ exists fuel r,
      Registry.resolveDependencies fuel
        (Samples.select Registry.mode_all None None) Samples.cyclic = Some r.
Proof.
  intros (fuel & r & H). unfold Samples.select in H.
  by rewrite ResolverFacts.resolveDependencies_cyclic in H.
Qed.







Example diamond_individual :
  Registry.resolveDependencies 3
    (Samples.select Registry.mode_individual None (Some ["card"; "dialog"; "ghost"]))
    Samples.diamond =
  Some {| Registry.res_components := ["button"; "card"; "dialog"];
          Registry.res_utilities := ["cn"];
          Registry.res_files :=
            ["src/components/ui/Button.astro"; "src/components/ui/Card.astro";
             "src/components/ui/Dialog.astro"; "src/lib/cn.ts"];
          Registry.res_npmPackages := ["clsx"; "tailwind-merge"] |}.
Proof. vm_compute. reflexivity. Qed.


(** ** Walking and pruning the tree *)
Module TreeFacts.
Import Fs FsFacts Scaffold.
#[local] Open Scope nat_scope.

Fixpoint nsize (n : node) : nat :=
  match n with
  | File _ => 1
  | Dir m => S (map_fold (fun _ child acc => nsize child + acc) 0 m)
  end.

Lemma nsize_child m k child : m !! k = Some child -> nsize child < nsize (Dir m).
Proof.
  simpl. revert child.
  induction m as [|k' c' m Hk' Hfold IH] using map_first_key_ind; intros child.
  - by rewrite lookup_empty.
  - rewrite map_fold_insert_first_key by done. rewrite lookup_insert.
    case_decide; [intros [= ->]; lia|]. intros Hc%IH. lia.
Qed.

(** Induction on the tree: a directory, once its entries are done. *)
Lemma node_ind' (P : node -> Prop) :
  (forall c, P (File c)) ->
  (forall m, (forall k child, m !! k = Some child -> P child) -> P (Dir m)) ->
  forall n, P n.
Proof.
  intros Hfile Hdir n. remember (nsize n) as s eqn:Hs. revert n Hs.
  induction s as [s IH] using lt_wf_ind. intros [c|m] ->; [apply Hfile|].
  apply Hdir. intros k child Hk. eapply IH; [|done]. by eapply nsize_child.
Qed.

(** Membership in a list that [map_fold] appends to. *)
Lemma elem_of_map_fold_app {A B} (g : string -> A -> list B) (m : gmap string A) x :
  x ∈ map_fold (fun k a acc => acc ++ g k a) [] m <->
  exists k a, m !! k = Some a /\ x ∈ g k a.
Proof.
  induction m as [|k a m Hk Hfirst IH] using map_first_key_ind.
  - rewrite map_fold_empty. split; [by intros ?%elem_of_nil|].
    intros (k & a & H & _). by rewrite lookup_empty in H.
  - rewrite map_fold_insert_first_key by done. rewrite elem_of_app, IH. split.
    + intros [(k' & a' & H & ?)|?].
      * exists k', a'. split; [|done]. rewrite lookup_insert_ne; [done|].
        intros <-. by rewrite Hk in H.
      * exists k, a. by rewrite lookup_insert_eq.
    + intros (k' & a' & H & ?). rewrite lookup_insert in H.
      case_decide; simplify_eq; [by right|]. left. by exists k', a'.
Qed.

(** [walk] lists the files below a node. *)
Lemma elem_of_walk n rel p :
  p ∈ walk n rel <-> exists q c, p = rel ++ q /\ kind_at q n = Some (IsFile c).
Proof.
  revert rel p. induction n as [c|m IH] using node_ind'; intros rel p.
  - simpl. rewrite list_elem_of_singleton. split.
    + intros ->. exists [], c. by rewrite app_nil_r.
    + intros ([|x q] & c' & -> & H); [by rewrite app_nil_r|]. by rewrite kind_at_cons in H.
  - simpl. rewrite elem_of_map_fold_app. split.
    + intros (k & child & Hk & (q & c & -> & Hq)%(IH k child Hk)).
      exists (k :: q), c. split; [by rewrite <- app_assoc|].
      by rewrite kind_at_cons, Hk.
    + intros ([|k q] & c & -> & Hq); [done|]. rewrite kind_at_cons in Hq.
      destruct (m !! k) as [child|] eqn:Hk; [|done]. simpl in Hq.
      exists k, child. split; [done|]. apply (IH k child Hk).
      exists q, c. by rewrite <- app_assoc.
Qed.

(** [prune] keeps the files where they are, and removes a directory only
    when no file is below it. *)
Lemma file_at_prune n :
  match prune n with
  | Some n' => forall q, file_at q n' = file_at q n
  | None => is_dir n = true /\ forall q, file_at q n = None
  end.
Proof.
  induction n as [c|m IH] using node_ind'; [done|].
  assert (forall q, q <> [] -> file_at q (Dir (omap prune m)) = file_at q (Dir m)) as Hsame.
  { intros [|k q] _; [done|]. unfold file_at. simpl. rewrite lookup_omap.
    destruct (m !! k) as [child|] eqn:Hk; [|done]. simpl.
    specialize (IH k child Hk). destruct (prune child) as [child'|]; simpl.
    - apply IH.
    - destruct IH as [_ IH]. symmetry. apply IH. }
  simpl. case_decide as Hsize.
  - split; [done|]. intros [|k q]; [done|]. rewrite <- Hsame by done.
    apply map_size_empty_iff in Hsize. rewrite Hsize. unfold file_at. simpl.
    by rewrite lookup_empty.
  - intros [|k q]; [done|]. by apply Hsame.
Qed.

Lemma kind_at_replace p n n' t q :
  lookup p t = Some n ->
  kind_of n' = kind_of n ->
  kind_at q (replace_at p n' t) =
  if decide (p `prefix_of` q) then kind_at (drop (length p) q) n' else kind_at q t.
Proof.
  revert t q. induction p as [|x p IH]; intros t q Hp Hkind.
  - rewrite if_prefix_nil_l. done.
  - destruct t as [c|m]; [done|]. simpl in Hp.
    destruct (m !! x) as [child|] eqn:Hx; [|done]. simpl in Hp.
    destruct q as [|y q].
    + by rewrite if_prefix_nil_r.
    + rewrite if_prefix_cons. simpl. rewrite !kind_at_cons, lookup_alter.
      destruct (decide (y = x)) as [->|Hxy].
      * rewrite decide_True by done. rewrite Hx. simpl. by apply IH.
      * by rewrite decide_False.
Qed.

Lemma file_at_of_kind q t :
  file_at q t = match kind_at q t with Some (IsFile c) => Some c | _ => None end.
Proof. unfold file_at, kind_at. by destruct (lookup q t) as [[?|?]|]. Qed.

Lemma file_at_app p r t n : lookup p t = Some n -> file_at (p ++ r) t = file_at r n.
Proof. intros H. unfold file_at. by rewrite lookup_app, H. Qed.

Lemma classic_file (k : option kind) :
  (exists c, k = Some (IsFile c)) \/ (forall c, k <> Some (IsFile c)).
Proof. destruct k as [[c|]|]; [left; by exists c|by right..]. Qed.

(** *** [keepOnlyFiles] *)
Definition dropFile (keep : gset string) (t : node) (relativePath : path) : node :=
  if decide (render relativePath ∈ keep) then t else rmFileSync relativePath t.

Definition unfile (k : option kind) : option kind :=
  match k with Some (IsFile _) => None | _ => k end.

Lemma kind_at_dropFiles keep l t q :
  (forall p, p ∈ l -> p <> []) ->
  kind_at q (foldl (dropFile keep) t l) =
  if decide (q ∈ l /\ render q ∉ keep) then unfile (kind_at q t) else kind_at q t.
Proof.
  revert t. induction l as [|p l IH]; intros t Hl.
  { cbn [foldl]. rewrite decide_False; [done|]. by intros [?%elem_of_nil _]. }
  cbn [foldl]. rewrite IH by (intros; apply Hl; by right).
  assert (kind_at q (dropFile keep t p) =
          if decide (q = p /\ render q ∉ keep) then unfile (kind_at q t) else kind_at q t)
    as ->.
  { unfold dropFile. destruct (decide (render p ∈ keep)) as [Hp|Hp].
    - rewrite decide_False; [done|]. by intros [-> ?].
    - rewrite kind_at_rmFile by (apply Hl; left).
      destruct (decide (q = p)) as [->|].
      + rewrite decide_True by done. by destruct (kind_at p t) as [[?|]|].
      + rewrite decide_False; [done|]. by intros [? _]. }
  destruct (decide (q = p /\ render q ∉ keep)) as [[-> Hk]|Hn].
  - rewrite (decide_True (P := p ∈ p :: l /\ _)) by (split; [left|done]).
    case_decide; [|done]. by destruct (kind_at p t) as [[?|]|].
  - destruct (decide (q ∈ l /\ render q ∉ keep)) as [[Hq Hk]|Hn'].
    + by rewrite decide_True by (split; [by right|done]).
    + rewrite decide_False; [done|]. intros [[->|?]%elem_of_cons ?]; tauto.
Qed.

Lemma removeEmptyDirs_spec d t m :
  d <> [] -> lookup d t = Some (Dir m) ->
  exists t', removeEmptyDirs d t = Ok t' /\
    (forall q, file_at q t' = file_at q t) /\
    (forall q, ~ d `prefix_of` q -> kind_at q t' = kind_at q t).
Proof.
  intros Hd Hm. unfold removeEmptyDirs. rewrite Hm.
  pose proof (file_at_prune (Dir m)) as Hp.
  destruct (prune (Dir m)) as [n'|] eqn:E.
  - eexists. split; [done|].
    assert (kind_of n' = kind_of (Dir m)) as Hk.
    { simpl in E. case_decide; by simplify_eq. }
    split.
    + intros q. rewrite !file_at_of_kind, (kind_at_replace _ _ _ _ _ Hm Hk).
      case_decide as Hq; [|done]. destruct Hq as [r ->].
      rewrite drop_app_length, <- !file_at_of_kind, Hp. symmetry. by apply file_at_app.
    + intros q Hq. by rewrite (kind_at_replace _ _ _ _ _ Hm Hk), decide_False.
  - eexists. split; [done|]. destruct Hp as [_ Hp]. split.
    + intros q. rewrite !file_at_of_kind, kind_at_rm by done.
      case_decide as Hq; [|done]. destruct Hq as [r ->].
      by rewrite <- file_at_of_kind, (file_at_app _ _ _ _ Hm), Hp.
    + intros q Hq. by rewrite kind_at_rm, decide_False.
Qed.

Lemma keepOnlyIn_spec keep t d :
  d <> [] ->
  (forall c, kind_at d t <> Some (IsFile c)) ->
  exists t', keepOnlyIn keep t d = Ok t' /\
    (forall q, file_at q t' =
               if decide (d `prefix_of` q /\ render q ∉ keep) then None else file_at q t) /\
    (forall q, ~ d `prefix_of` q -> kind_at q t' = kind_at q t).
Proof.
  intros Hd Hnf. unfold keepOnlyIn. rewrite existsSync_kind.
  destruct (kind_at d t) as [[c|]|] eqn:Hk.
  - by destruct (Hnf c).
  - rewrite bool_decide_eq_true_2 by done. simpl.
    apply kind_at_dir in Hk as [m Hm]. unfold walkFilesRelative. rewrite Hm. simpl.
    fold (dropFile keep).
    set (l := map_fold _ _ _).
    assert (forall p, p ∈ l <-> d `prefix_of` p /\ exists c, kind_at p t = Some (IsFile c))
      as Hl.
    { intros p. subst l. change (map_fold _ [] m) with (walk (Dir m) d).
      rewrite elem_of_walk. split.
      - intros (q & c & -> & Hq). split; [by exists q|]. exists c.
        by rewrite kind_at_app, Hm.
      - intros [[q ->] [c Hc]]. exists q, c. split; [done|].
        by rewrite kind_at_app, Hm in Hc. }
    assert (forall p, p ∈ l -> p <> []) as Hne.
    { intros p [[q ->] _]%Hl. by destruct d. }
    set (t1 := foldl (dropFile keep) t l).
    assert (exists m1, lookup d t1 = Some (Dir m1)) as [m1 Hm1].
    { apply kind_at_dir. subst t1. rewrite kind_at_dropFiles by done.
      rewrite (lookup_kind _ _ _ Hm). by case_decide. }
    destruct (removeEmptyDirs_spec d t1 m1 Hd Hm1) as (t2 & -> & Hf2 & Hk2).
    exists t2. split; [done|]. split.
    + intros q. rewrite Hf2. subst t1. rewrite !file_at_of_kind, kind_at_dropFiles by done.
      destruct (decide (q ∈ l /\ render q ∉ keep)) as [[Hq Hkeep]|Hn].
      * apply Hl in Hq as [Hq [c Hc]]. rewrite decide_True by done. by rewrite Hc.
      * case_decide as Hq; [|done]. destruct Hq as [Hq Hkeep].
        destruct (kind_at q t) as [[c|]|] eqn:Hc; try done.
        destruct Hn. split; [|done]. apply Hl. eauto.
    + intros q Hq. rewrite Hk2 by done. subst t1. rewrite kind_at_dropFiles by done.
      rewrite decide_False; [done|]. intros [[? _]%Hl _]. done.
  - rewrite bool_decide_eq_false_2 by (by intros [? ?]). simpl.
    exists t. split; [done|]. split; [|done].
    intros q. case_decide as Hq; [|done]. destruct Hq as [[r ->] _].
    rewrite file_at_of_kind, kind_at_app. unfold kind_at in Hk.
    by destruct (lookup d t).
Qed.

Lemma keepOnlyIn_file keep t d c :
  kind_at d t = Some (IsFile c) -> keepOnlyIn keep t d = Err ENOTDIR.
Proof.
  intros Hk. unfold keepOnlyIn. rewrite existsSync_kind, Hk.
  rewrite bool_decide_eq_true_2 by done. simpl.
  apply kind_at_file in Hk. unfold walkFilesRelative. by rewrite Hk.
Qed.

(** The loop over directories none of which lies within another. *)
Lemma keepOnly_fold keep dirs t :
  NoDup dirs ->
  (forall d, d ∈ dirs -> d <> []) ->
  (forall d d', d ∈ dirs -> d' ∈ dirs -> d `prefix_of` d' -> d = d') ->
  (exists d c, d ∈ dirs /\ kind_at d t = Some (IsFile c)) /\
    foldM (keepOnlyIn keep) t dirs = Err ENOTDIR \/
  (forall d c, d ∈ dirs -> kind_at d t <> Some (IsFile c)) /\
    exists t', foldM (keepOnlyIn keep) t dirs = Ok t' /\
      (forall q, file_at q t' =
         if decide (Exists (fun d => d `prefix_of` q) dirs /\ render q ∉ keep)
         then None else file_at q t) /\
      (forall q, Forall (fun d => ~ d `prefix_of` q) dirs -> kind_at q t' = kind_at q t).
Proof.
  revert t. induction dirs as [|d dirs IH]; intros t Hnd Hne Hdisj.
  { right. split; [by intros ?? ?%elem_of_nil|]. exists t. split; [done|]. split; [|done].
    intros q. rewrite decide_False; [done|]. by intros [?%list.Exists_exists _]; set_solver. }
  apply list.NoDup_cons in Hnd as [Hd Hnd].
  destruct (classic_file (kind_at d t)) as [[c Hk]|Hk].
  { left. split; [exists d, c; split; [left|done]|]. simpl.
    by rewrite (keepOnlyIn_file _ _ _ c). }
  destruct (keepOnlyIn_spec keep t d) as (t1 & E1 & Hf1 & Hk1); [apply Hne; left|done|].
  assert (forall d', d' ∈ dirs -> kind_at d' t1 = kind_at d' t) as Hsame.
  { intros d' Hd'. apply Hk1. intros Hp.
    assert (d = d') as <- by (apply Hdisj; [left|by right|done]). done. }
  simpl. rewrite E1. simpl.
  destruct (IH t1) as [[(d' & c & Hd' & Hc) E]|[Hnf (t' & E & Hf & Hkk)]];
    [done|intros; apply Hne; by right|intros ????; apply Hdisj; by right| |].
  - left. split; [|done]. exists d', c. split; [by right|]. by rewrite <- Hsame.
  - right. split.
    { intros d' c [->|Hd']%elem_of_cons; [done|]. rewrite <- Hsame by done. by apply Hnf. }
    exists t'. split; [done|]. split.
    + intros q. rewrite Hf, Hf1.
      destruct (decide (render q ∈ keep)) as [Hkeep|Hkeep].
      { rewrite !decide_False; [done|tauto..]. }
      destruct (decide (d `prefix_of` q)) as [Hq|Hq].
      * rewrite (decide_True (P := Exists _ (d :: dirs) /\ _))
          by (split; [apply list.Exists_exists; exists d; split; [left|done]|done]).
        rewrite (decide_True (P := d `prefix_of` q /\ _)) by done. by case_decide.
      * rewrite (decide_False (P := d `prefix_of` q /\ _)) by tauto.
        destruct (decide (Exists (fun d0 => d0 `prefix_of` q) dirs)) as [Hex|Hex].
        -- apply list.Exists_exists in Hex as (d0 & ? & ?).
           rewrite !decide_True; [done| |split; [|done]]; [split; [|done]|];
             apply list.Exists_exists; exists d0; split; done || by right.
        -- rewrite !decide_False; [done| |tauto].
           intros [(d0 & [->|?]%elem_of_cons & ?)%list.Exists_exists _]; [done|]. apply Hex, list.Exists_exists. eauto.
    + intros q [Hq Hqs]%list.Forall_cons. rewrite Hkk by done. by apply Hk1.
Qed.

Definition under_optional (q : path) : Prop :=
  Exists (fun d => d `prefix_of` q) componentDirs.

(** [keepOnlyFiles] throws when a file stands where an optional directory
    should be; otherwise it removes, below the optional directories, the
    files that are not to be kept, and nothing else. *)
Lemma keepOnlyFiles_spec keep t :
  (exists d c, d ∈ componentDirs /\ kind_at d t = Some (IsFile c)) /\
    keepOnlyFiles keep t = Err ENOTDIR \/
  (forall d c, d ∈ componentDirs -> kind_at d t <> Some (IsFile c)) /\
    exists t', keepOnlyFiles keep t = Ok t' /\
      (forall q, file_at q t' =
         if decide (under_optional q /\ render q ∉ keep) then None else file_at q t) /\
      (forall q, ~ under_optional q -> kind_at q t' = kind_at q t).
Proof.
  destruct (keepOnly_fold keep componentDirs t) as [H|(Hnf & t' & E & Hf & Hk)].
  - unfold componentDirs. repeat (apply list.NoDup_cons; split; [set_solver|]). apply NoDup_nil_2.
  - intros d Hd ->. unfold componentDirs in Hd. set_solver.
  - intros d d' Hd Hd' [r Hr]. unfold componentDirs in *.
    repeat (apply elem_of_cons in Hd as [->|Hd]); [..|by apply elem_of_nil in Hd];
      repeat (apply elem_of_cons in Hd' as [->|Hd']); try (by apply elem_of_nil in Hd');
      simplify_eq/=; done.
  - by left.
  - right. split; [done|]. exists t'. split; [done|]. split; [done|].
    intros q Hq. apply Hk. apply list.Forall_forall. intros d Hd Hp. apply Hq.
    apply list.Exists_exists. eauto.
Qed.

End TreeFacts.


(** ** Component selection *)
Module SelectionFacts.
Import Fs FsFacts Scaffold TreeFacts Registry.

Lemma mkdirSync_possible p t t' : mkdirSync p t = Ok t' -> dir_possible p t = true.
Proof.
  revert t t'. induction p as [|x p IH]; intros [c|m] t'; simpl; try done.
  destruct (m !! x) as [child|]; [|done].
  intros (child' & H & _)%bind_Ok. by eapply IH.
Qed.

(** Making directories changes no file. *)
Lemma file_at_ensureDir p t t' q : ensureDir p t = Ok t' -> file_at q t' = file_at q t.
Proof.
  unfold ensureDir. destruct (existsSync p t); simpl; [by intros [= <-]|].
  intros H. rewrite !file_at_of_kind, (kind_at_mkdir _ _ _ _ H).
  case_decide as Hq; [|done]. apply mkdirSync_possible in H.
  destruct (kind_at q t) as [[c|]|] eqn:Hk; try done.
  by eapply dir_possible_kind in H.
Qed.

Lemma kind_at_removeItems items t q :
  (forall d, d ∈ items -> d <> []) ->
  kind_at q (removeItems items t) =
  if decide (Exists (fun d => d `prefix_of` q) items) then None else kind_at q t.
Proof.
  unfold removeItems. revert t. induction items as [|d items IH]; intros t Hne.
  { cbn [foldl]. rewrite decide_False; [done|]. intros ?%list.Exists_exists. set_solver. }
  cbn [foldl]. rewrite IH by (intros; apply Hne; by right).
  assert (kind_at q (if existsSync d t then rmSync d t else t) =
          if decide (d `prefix_of` q) then None else kind_at q t) as ->.
  { rewrite existsSync_kind. destruct (kind_at d t) as [k|] eqn:Hk.
    - rewrite bool_decide_eq_true_2 by done. apply kind_at_rm, Hne. left.
    - rewrite bool_decide_eq_false_2 by (by intros [? ?]).
      destruct (decide (d `prefix_of` q)) as [[r ->]|]; [|done].
      rewrite kind_at_app. unfold kind_at in Hk. by destruct (lookup d t). }
  destruct (decide (Exists (fun d0 => d0 `prefix_of` q) items)) as [Hex|Hex].
  - rewrite decide_True; [done|]. apply list.Exists_exists in Hex as (d0 & ? & ?).
    apply list.Exists_exists. exists d0. split; [by right|done].
  - destruct (decide (d `prefix_of` q)) as [Hq|Hq].
    + rewrite decide_True; [done|]. apply list.Exists_exists. exists d. split; [left|done].
    + rewrite decide_False; [done|].
      intros (d0 & [->|?]%elem_of_cons & ?)%list.Exists_exists; [done|].
      apply Hex, list.Exists_exists. eauto.
Qed.

Lemma optional_dirs_nonempty d : d ∈ OPTIONAL_COMPONENT_DIRS -> d <> [].
Proof. intros Hd ->. unfold OPTIONAL_COMPONENT_DIRS in Hd. set_solver. Qed.

End SelectionFacts.

(** C4. [keepOnlyFiles] throws when a file stands at the path of an optional
    directory. Otherwise it returns, and then: a file below an optional
    directory whose path is not to be kept is gone; a file to be kept is
    there as before; outside the optional directories nothing changes. The
    stage [applyComponentSelection] keeps the files outside the optional
    directories for every selection, and with a resolved selection it does
    to the files what [keepOnlyFiles] does with the resolved file set. *)
Theorem selective_filtering :
  (forall (keep : gset string) t,
     (exists d c, d ∈ Scaffold.componentDirs /\ Fs.kind_at d t = Some (Fs.IsFile c)) /\
       Scaffold.keepOnlyFiles keep t = Err ENOTDIR \/
     (forall d c, d ∈ Scaffold.componentDirs -> Fs.kind_at d t <> Some (Fs.IsFile c)) /\
       exists t',
         Scaffold.keepOnlyFiles keep t = Ok t' /\
         (forall p, TreeFacts.under_optional p -> Fs.render p ∉ keep ->
                    Fs.file_at p t' = None) /\
         (forall p c, Fs.render p ∈ keep -> Fs.file_at p t = Some c ->
                      Fs.file_at p t' = Some c) /\
         (forall p, ~ TreeFacts.under_optional p -> Fs.kind_at p t' = Fs.kind_at p t)) /\
  (forall selection cache net fuel t t' warnings,
     Scaffold.applyComponentSelection selection cache net fuel t = Ok (t', warnings) ->
     forall p, ~ TreeFacts.under_optional p -> Fs.file_at p t' = Fs.file_at p t) /\
  (forall selection cache net fuel t t' warnings registry resolved,
     Registry.mode selection = Registry.mode_categories \/
     Registry.mode selection = Registry.mode_individual ->
     (Registry.fetchRegistry cache net).1 = Ok registry ->
     Registry.resolveDependencies fuel selection registry = Some resolved ->
     Scaffold.applyComponentSelection selection cache net fuel t = Ok (t', warnings) ->
     forall p,
       Fs.file_at p t' =
       if decide (TreeFacts.under_optional p /\ Fs.render p ∉ Registry.res_files resolved)
       then None else Fs.file_at p t).
Proof.
  split; [|split].
  - intros keep t.
    destruct (TreeFacts.keepOnlyFiles_spec keep t) as [H|(Hnf & t' & E & Hf & Hk)];
      [by left|right].
    split; [done|]. exists t'. split; [done|]. split; [|split; [|done]].
    + intros p Hp Hkeep. by rewrite Hf, decide_True.
    + intros p c Hkeep Hc. rewrite Hf, decide_False; [done|]. tauto.
  - intros selection cache net fuel t t' warnings H p Hp.
    unfold Scaffold.applyComponentSelection in H.
    destruct (Registry.mode selection).
    + replace t' with (Scaffold.removeItems Scaffold.OPTIONAL_COMPONENT_DIRS t)
        by congruence.
      rewrite !TreeFacts.file_at_of_kind.
      rewrite SelectionFacts.kind_at_removeItems
        by apply SelectionFacts.optional_dirs_nonempty.
      by rewrite decide_False.
    + destruct (Registry.fetchRegistry cache net).1 as [registry|]; [|by injection H as <- _].
      destruct (Registry.resolveDependencies fuel selection registry) as [r|];
        [|by injection H as <- _].
      apply FsFacts.bind_Ok in H as (t1 & H1 & H).
      apply FsFacts.bind_Ok in H as (t2 & H2 & [= <- _]).
      assert (Fs.file_at p t2 = Fs.file_at p t1) as ->.
      { case_decide; [by eapply SelectionFacts.file_at_ensureDir|by injection H2 as <-]. }
      destruct (TreeFacts.keepOnlyFiles_spec (list_to_set (Registry.res_files r)) t)
        as [[_ E]|(_ & t1' & E & Hf & _)]; rewrite E in H1; [done|].
      injection H1 as <-. rewrite Hf, decide_False; [done|]. tauto.
    + destruct (Registry.fetchRegistry cache net).1 as [registry|]; [|by injection H as <- _].
      destruct (Registry.resolveDependencies fuel selection registry) as [r|];
        [|by injection H as <- _].
      apply FsFacts.bind_Ok in H as (t1 & H1 & H).
      apply FsFacts.bind_Ok in H as (t2 & H2 & [= <- _]).
      assert (Fs.file_at p t2 = Fs.file_at p t1) as ->.
      { case_decide; [by eapply SelectionFacts.file_at_ensureDir|by injection H2 as <-]. }
      destruct (TreeFacts.keepOnlyFiles_spec (list_to_set (Registry.res_files r)) t)
        as [[_ E]|(_ & t1' & E & Hf & _)]; rewrite E in H1; [done|].
      injection H1 as <-. rewrite Hf, decide_False; [done|]. tauto.
    + by injection H as <- _.
  - intros selection cache net fuel t t' warnings registry r Hmode Hfetch Hres H p.
    unfold Scaffold.applyComponentSelection in H. rewrite Hfetch, Hres in H.
    assert (Scaffold.keepOnlyFiles (list_to_set (Registry.res_files r)) t ≫=
              (fun t => (if decide ("cn" ∈ Registry.res_utilities r)
                         then Fs.ensureDir ["src"; "lib"] t else Ok t) ≫=
                        fun t => Ok (t, [])) = Ok (t', warnings)) as H'.
    { by destruct Hmode as [Hm|Hm]; rewrite Hm in H. }
    clear H. apply FsFacts.bind_Ok in H' as (t1 & H1 & H).
    apply FsFacts.bind_Ok in H as (t2 & H2 & [= <- _]).
    assert (Fs.file_at p t2 = Fs.file_at p t1) as ->.
    { case_decide; [by eapply SelectionFacts.file_at_ensureDir|by injection H2 as <-]. }
    destruct (TreeFacts.keepOnlyFiles_spec (list_to_set (Registry.res_files r)) t)
      as [[_ E]|(_ & t1' & E & Hf & _)]; rewrite E in H1; [done|].
    injection H1 as <-. rewrite Hf.
    apply decide_ext. by rewrite elem_of_list_to_set.
Qed.

(** C4, on the sample template with only [Button.astro] to keep: the other
    optional components go, and the directories they leave empty. *)
Example keep_button_sample :
  Samples.same_paths
    (Fs.render <$>
       Scaffold.walk
         (Samples.tree_of
            ((fun t => (t, [])) <$>
               Scaffold.keepOnlyFiles {[ "src/components/ui/Button.astro" ]} Samples.template))
         [])
    [ "package.json"; "pnpm-lock.yaml";
      "src/pages/404.astro"; "src/pages/about.astro"; "src/pages/index.astro";
      "src/layouts/PageLayout.astro"; "src/layouts/LandingLayout.astro";
      "src/content/blog/hello.md"; "src/config/routes.ts";
      "src/components/landing/Navbar.astro";
      "src/components/ui/Button.astro";
      "src/components/seo/Head.astro" ] = true.
Proof. vm_compute. reflexivity. Qed.

(** C4, at a run: the registry answers, and [button] alone is selected on
    the sample template; the file [src/components/ui/form/Input.astro]. *)
Lemma selective_filtering_witness :
  Fs.file_at ["src"; "components"; "ui"; "form"; "Input.astro"]
    (Samples.tree_of
       (Scaffold.applyComponentSelection
          (Samples.select Registry.mode_individual None (Some ["button"]))
          None (Registry.Json Samples.diamond) 8 Samples.template)) =
  if decide (TreeFacts.under_optional ["src"; "components"; "ui"; "form"; "Input.astro"] /\
             Fs.render ["src"; "components"; "ui"; "form"; "Input.astro"] ∉
               Registry.res_files
                 (default empty_result
                    (Registry.resolveDependencies 8
                       (Samples.select Registry.mode_individual None (Some ["button"]))
                       Samples.diamond)))
  then None else Fs.file_at ["src"; "components"; "ui"; "form"; "Input.astro"] Samples.template.
Proof.
  destruct selective_filtering as (_ & _ & H).
  apply (H (Samples.select Registry.mode_individual None (Some ["button"]))
           None (Registry.Json Samples.diamond) 8%nat Samples.template _ []
           Samples.diamond _).
  - right. reflexivity.
  - reflexivity.
  - vm_compute. reflexivity.
  - vm_compute. reflexivity.
Defined.

(** C5, as stated, fails: with the network down, [fetchRegistry] throws, and
    the stage returns the tree as it was, with a warning. *)
Lemma registry_failure_not_surfaced :
  (Registry.fetchRegistry None (Registry.FetchRejected "fetch failed")).1 =
    Err (Registry.registry_unavailable "fetch failed") /\
  Scaffold.applyComponentSelection
    (Samples.select Registry.mode_categories (Some ["ui"]) None)
    None (Registry.FetchRejected "fetch failed") 8 Samples.template =
  Ok (Samples.template, [Scaffold.registry_warning]).
Proof. split; reflexivity. Qed.

(** C5, amended. When the retrieval of the registry fails in a run with a
    categories or individual selection, [fetchRegistry] throws its own error,
    "Could not fetch component registry" with the cause; the stage catches
    it, prints a warning and returns the working tree as it was. The one
    handler also catches a resolver that throws on a registry that was
    retrieved, with the same warning and the same tree. *)
Theorem registry_failure_falls_back selection cache net fuel t :
  Registry.mode selection = Registry.mode_categories \/
  Registry.mode selection = Registry.mode_individual ->
  (forall e,
     (Registry.fetchRegistry cache net).1 = Err e ->
     cache = None /\
     (exists cause, e = Registry.registry_unavailable cause) /\
     Scaffold.applyComponentSelection selection cache net fuel t =
       Ok (t, [Scaffold.registry_warning])) /\
  (forall registry,
     (Registry.fetchRegistry cache net).1 = Ok registry ->
     Registry.resolveDependencies fuel selection registry = None ->
     Scaffold.applyComponentSelection selection cache net fuel t =
       Ok (t, [Scaffold.registry_warning])).
Proof.
  intros Hmode. split.
  - intros e Hfetch. split_and!.
    + by destruct cache.
    + destruct cache; [done|]. destruct net; simpl in Hfetch; simplify_eq; by eexists.
    + unfold Scaffold.applyComponentSelection. rewrite Hfetch.
      by destruct Hmode as [-> | ->].
  - intros registry Hfetch Hnone. unfold Scaffold.applyComponentSelection.
    rewrite Hfetch, Hnone. by destruct Hmode as [-> | ->].
Qed.

(** C5, amended, at two runs with an individual selection: the registry
    answers with status 503; the registry is retrieved and the selection
    asks for [constructor]. *)
Lemma registry_failure_falls_back_witness :
  (@None Registry.ComponentRegistry = None /\
   (exists cause,
      Registry.registry_unavailable "Failed to fetch registry: 503 Service Unavailable" =
      Registry.registry_unavailable cause) /\
   Scaffold.applyComponentSelection
     (Samples.select Registry.mode_individual None (Some ["constructor"]))
     None (Registry.HttpError "503" "Service Unavailable") 8 Samples.template =
   Ok (Samples.template, [Scaffold.registry_warning])) /\
  Scaffold.applyComponentSelection
    (Samples.select Registry.mode_individual None (Some ["constructor"]))
    None (Registry.Json Samples.diamond) 8 Samples.template =
  Ok (Samples.template, [Scaffold.registry_warning]).
Proof.
  split.
  - apply (proj1 (registry_failure_falls_back
                    (Samples.select Registry.mode_individual None (Some ["constructor"]))
                    None (Registry.HttpError "503" "Service Unavailable") 8 Samples.template
                    (or_intror eq_refl))).
    reflexivity.
  - apply (proj2 (registry_failure_falls_back
                    (Samples.select Registry.mode_individual None (Some ["constructor"]))
                    None (Registry.Json Samples.diamond) 8 Samples.template
                    (or_intror eq_refl)) Samples.diamond).
    + reflexivity.
    + vm_compute. reflexivity.
Defined.


(** ** The stages that only add *)
Module GrowFacts.
Import Fs FsFacts Pages Scaffold TreeFacts SelectionFacts.

(** From [t] to [t'] no file is lost, and what is new is within [S]. *)
Definition grows (S : path -> Prop) (t t' : node) : Prop :=
  (forall p, is_Some (file_at p t) -> is_Some (file_at p t')) /\
  (forall p, is_Some (kind_at p t') -> is_Some (kind_at p t) \/ S p).

Lemma grows_refl S t : grows S t t.
Proof. split; [done|]. intros p ?. by left. Qed.

Lemma grows_trans S1 S2 (S : path -> Prop) t1 t2 t3 :
  grows S1 t1 t2 -> grows S2 t2 t3 ->
  (forall p, S1 p -> S p) -> (forall p, S2 p -> S p) -> grows S t1 t3.
Proof.
  intros [F1 C1] [F2 C2] H1 H2. split; [eauto|].
  intros p [Hp|Hp]%C2; [|eauto]. apply C1 in Hp as [?|?]; eauto.
Qed.

Lemma grows_mono (S S' : path -> Prop) t t' :
  grows S t t' -> (forall p, S p -> S' p) -> grows S' t t'.
Proof. intros H HS. eapply grows_trans; [done|apply (grows_refl S')|done..]. Qed.

Lemma is_Some_file_kind p t : is_Some (file_at p t) -> is_Some (kind_at p t).
Proof. rewrite file_at_of_kind. by destruct (kind_at p t) as [[?|]|]. Qed.

Lemma grows_write p c t t' :
  writeFileSync p c t = Ok t' -> grows (fun q => q = p) t t'.
Proof.
  intros H. split; intros q; rewrite ?file_at_of_kind, (kind_at_write _ _ _ _ _ H);
    case_decide; eauto.
Qed.

Lemma grows_overwrite (S : path -> Prop) p c t t' :
  is_Some (kind_at p t) -> writeFileSync p c t = Ok t' -> grows S t t'.
Proof.
  intros Hp H. split; intros q; rewrite ?file_at_of_kind, (kind_at_write _ _ _ _ _ H);
    case_decide; subst; eauto.
Qed.

Lemma grows_mkdir p t t' :
  mkdirSync p t = Ok t' -> grows (fun q => q `prefix_of` p) t t'.
Proof.
  intros H. split; intros q.
  - rewrite !file_at_of_kind, (kind_at_mkdir _ _ _ _ H). case_decide as Hq; [|done].
    destruct (kind_at q t) as [[c|]|] eqn:Hk; try by intros [? ?].
    apply mkdirSync_possible in H. by eapply dir_possible_kind in H.
  - rewrite (kind_at_mkdir _ _ _ _ H). case_decide; eauto.
Qed.

Lemma grows_ensureDir p t t' :
  ensureDir p t = Ok t' -> grows (fun q => q `prefix_of` p) t t'.
Proof.
  unfold ensureDir. destruct (existsSync p t); cbn [negb].
  - intros [= <-]. apply grows_refl.
  - apply grows_mkdir.
Qed.

Lemma grows_foldM {A} (S : path -> Prop) (f : node -> A -> result node) l t t' :
  (forall x t1 t2, x ∈ l -> f t1 x = Ok t2 -> grows S t1 t2) ->
  foldM f t l = Ok t' -> grows S t t'.
Proof.
  revert t. induction l as [|x l IH]; intros t Hf; simpl.
  - intros [= <-]. apply grows_refl.
  - intros (t1 & H1 & H2)%bind_Ok.
    eapply grows_trans; [eapply Hf; [left|done]|eapply IH; [|done]|done..].
    intros; eapply Hf; [by right|done].
Qed.

Lemma grows_foldM_pair {A B} (S : path -> Prop)
    (f : node * B -> A -> result (node * B)) l st st' :
  (forall x s1 s2, x ∈ l -> f s1 x = Ok s2 -> grows S s1.1 s2.1) ->
  foldM f st l = Ok st' -> grows S st.1 st'.1.
Proof.
  revert st. induction l as [|x l IH]; intros st Hf; simpl.
  - intros [= <-]. apply grows_refl.
  - intros (s1 & H1 & H2)%bind_Ok.
    eapply grows_trans; [eapply Hf; [left|done]|eapply IH; [|done]|done..].
    intros; eapply Hf; [by right|done].
Qed.

(** *** Page generation *)
Lemma existsSync_true p t : existsSync p t = true -> is_Some (kind_at p t).
Proof. rewrite existsSync_kind. by intros ?%bool_decide_eq_true. Qed.

Lemma readFileSync_Ok p t c : readFileSync p t = Ok c -> is_Some (kind_at p t).
Proof. unfold readFileSync, kind_at. by destruct (lookup p t) as [[?|?]|]. Qed.

Lemma grows_addBaseRouteEntry (S : path -> Prop) pageName t t' :
  addBaseRouteEntry pageName t = Ok t' -> grows S t t'.
Proof.
  unfold addBaseRouteEntry. destruct (existsSync baseRoutesPath t) eqn:E; cbn [negb].
  - intros (c & Hc & H)%bind_Ok. destruct (baseRouteSplice c pageName).
    + eapply grows_overwrite; [|done]. by apply existsSync_true.
    + injection H as <-. apply grows_refl.
  - intros [= <-]. apply grows_refl.
Qed.

Lemma grows_addI18nTranslationKeys (S : path -> Prop) routeId title t t' :
  addI18nTranslationKeys routeId title t = Ok t' -> grows S t t'.
Proof.
  unfold addI18nTranslationKeys. apply grows_foldM. intros locale t1 t2 _.
  destruct (existsSync (translationPath locale) t1) eqn:E; cbn [negb].
  - intros (c & Hc & H)%bind_Ok. eapply grows_overwrite; [|done].
    by apply existsSync_true.
  - intros [= <-]. apply grows_refl.
Qed.

Lemma grows_addI18nRouteEntry (S : path -> Prop) pageName t t' :
  addI18nRouteEntry pageName t = Ok t' -> grows S t t'.
Proof.
  unfold addI18nRouteEntry. destruct (existsSync i18nRoutesPath t) eqn:E; cbn [negb].
  - intros (c & Hc & H)%bind_Ok. destruct (i18nRouteSplice c pageName).
    + apply bind_Ok in H as (t1 & H1 & H2).
      eapply grows_trans; [eapply (grows_overwrite S)|
                           eapply (grows_addI18nTranslationKeys S)|done..]; [|done..].
      by apply existsSync_true.
    + injection H as <-. apply grows_refl.
  - intros [= <-]. apply grows_refl.
Qed.

(** What [generatePages] may add: the directories of the pages and the page
    files. *)
Definition page_paths (pages : list string) (q : path) : Prop :=
  q `prefix_of` langDir \/
  exists pageName, pageName ∈ pages /\ (q = pageFile pageName \/ q = langPageFile pageName).

Lemma grows_writeBasePage pages layout isI18n x s1 s2 :
  x ∈ pages -> writeBasePage layout isI18n s1 x = Ok s2 ->
  grows (page_paths pages) s1.1 s2.1.
Proof.
  destruct s1 as [s1 g1]. intros Hx. unfold writeBasePage.
  intros (s & Hw & Hs)%bind_Ok. apply bind_Ok in Hs as (s' & Hs' & [= <-]).
  apply grows_write in Hw.
  assert (grows (page_paths pages) s s') as G.
  { destruct (negb isI18n); [by eapply grows_addBaseRouteEntry|].
    injection Hs' as <-. apply grows_refl. }
  eapply grows_trans; [exact Hw|exact G| |done].
  intros q ->. right. eauto.
Qed.

Lemma grows_writeLangPage pages layout x s1 s2 :
  x ∈ pages -> writeLangPage layout s1 x = Ok s2 ->
  grows (page_paths pages) s1.1 s2.1.
Proof.
  destruct s1 as [s1 g1]. intros Hx. unfold writeLangPage.
  intros (s & Hw & Hs)%bind_Ok. apply bind_Ok in Hs as (s' & Hs' & [= <-]).
  apply grows_write in Hw.
  apply (grows_addI18nRouteEntry (page_paths pages)) in Hs'.
  eapply grows_trans; [exact Hw|exact Hs'| |done].
  intros q ->. right. eauto.
Qed.

Lemma grows_generatePages pages layout isI18n t t' files :
  generatePages pages layout isI18n t = Ok (t', files) ->
  grows (page_paths pages) t t'.
Proof.
  unfold generatePages. destruct pages as [|p0 pages0] eqn:Epages.
  { intros [= <- _]. apply grows_refl. }
  rewrite <- Epages. clear p0 pages0 Epages.
  intros (t1 & H1 & H)%bind_Ok. apply bind_Ok in H as ([t2 f2] & H2 & H).
  assert (grows (page_paths pages) t t1) as G1.
  { eapply grows_mono; [by eapply grows_ensureDir|].
    intros q Hq. left. trans pagesDir; [exact Hq|]. by exists ["[lang]"]. }
  assert (grows (page_paths pages) t1 t2) as G2.
  { apply (grows_foldM_pair (page_paths pages)) in H2; [exact H2|].
    intros x s1 s2. apply grows_writeBasePage. }
  assert (grows (page_paths pages) t t2) as G by by eapply grows_trans.
  destruct isI18n; [|by injection H as <- _].
  apply bind_Ok in H as (t3 & H3 & H4). simpl in H3.
  assert (grows (page_paths pages) t2 t3) as G3.
  { eapply grows_mono; [by eapply grows_ensureDir|]. intros q Hq. by left. }
  assert (grows (page_paths pages) t3 t') as G4.
  { apply (grows_foldM_pair (page_paths pages)) in H4; [exact H4|].
    intros x s1 s2. apply grows_writeLangPage. }
  eapply grows_trans; [exact G|eapply grows_trans; [exact G3|exact G4|done..]|done..].
Qed.

(** *** Copying a template *)
Definition copyEntry (dest : path) (name : string) (entry : node)
    (acc : result node) : result node :=
  t ← acc;
  match entry with
  | Dir _ => copyTemplateFiles entry (dest ++ [name]) t
  | File content => writeFileSync (dest ++ [name]) content t
  end.

Lemma copyTemplateFiles_Dir m dest t :
  copyTemplateFiles (Dir m) dest t =
  ensureDir dest t ≫= fun t0 => map_fold (copyEntry dest) (Ok t0) m.
Proof. reflexivity. Qed.

(** What a copy of [src] to [dest] may add. *)
Definition copied (src : node) (dest : path) (q : path) : Prop :=
  q `prefix_of` dest \/ exists r, q = dest ++ r /\ is_Some (kind_at r src).

Definition copy_ok (src : node) : Prop :=
  forall dest t t', copyTemplateFiles src dest t = Ok t' ->
    grows (copied src dest) t t' /\
    forall r, is_Some (file_at r src) -> is_Some (file_at (dest ++ r) t').

Lemma copy_entries_ok dest m :
  (forall k e, m !! k = Some e -> copy_ok e) ->
  forall t0 t', map_fold (copyEntry dest) (Ok t0) m = Ok t' ->
    grows (copied (Dir m) dest) t0 t' /\
    forall k e r, m !! k = Some e -> is_Some (file_at r e) ->
                  is_Some (file_at (dest ++ k :: r) t').
Proof.
  induction m as [|k e m Hk Hfirst IH] using map_first_key_ind; intros Hm t0 t'.
  { rewrite map_fold_empty. intros [= <-]. split; [apply grows_refl|].
    intros k e r H. by rewrite lookup_empty in H. }
  rewrite map_fold_insert_first_key by done. unfold copyEntry at 1.
  intros (t1 & H1 & He)%bind_Ok.
  destruct (IH (fun k' e' H' => Hm k' e' ltac:(by rewrite lookup_insert_ne
                                                   by (intros <-; by rewrite Hk in H')))
               t0 t1 H1) as [G1 F1].
  assert (grows (copied (Dir (<[k:=e]> m)) dest) t1 t' /\
          forall r, is_Some (file_at r e) -> is_Some (file_at (dest ++ k :: r) t'))
    as [Ge Fe].
  { destruct e as [c|me].
    - split.
      + eapply grows_mono; [by eapply grows_write|]. intros q ->. right. exists [k].
        split; [done|]. by rewrite kind_at_cons, lookup_insert_eq.
      + intros [|x r] Hr; [|by destruct Hr]. rewrite file_at_of_kind.
        by rewrite (kind_at_write _ _ _ _ _ He), decide_True.
    - destruct (Hm k (Dir me) ltac:(by rewrite lookup_insert_eq) _ _ _ He) as [G F].
      split.
      + eapply grows_mono; [exact G|]. intros q [Hq|(r & -> & Hr)].
        * destruct (decide (q = dest ++ [k])) as [->|Hne].
          -- right. exists [k]. split; [done|]. by rewrite kind_at_cons, lookup_insert_eq.
          -- left. destruct Hq as [z Hz].
             destruct (decide (z = [])) as [->|Hz']; [by rewrite app_nil_r in Hz|].
             apply (f_equal (take (length dest))) in Hz as Hz2.
             rewrite take_app_length in Hz2.
             destruct z as [|y z] using rev_ind; [done|].
             rewrite app_assoc in Hz. apply app_inj_tail in Hz as [-> _]. by exists z.
        * right. exists (k :: r). split; [by rewrite <- app_assoc|].
          by rewrite kind_at_cons, lookup_insert_eq.
      + intros r Hr. specialize (F r Hr). by rewrite <- app_assoc in F. }
  split.
  - eapply grows_trans; [exact G1|exact Ge| |done].
    intros q [?|(r & -> & Hr)]; [by left|]. right. exists r. split; [done|].
    destruct r as [|x r]; [done|]. rewrite kind_at_cons in *.
    destruct (decide (x = k)) as [->|Hx]; [rewrite Hk in Hr; by destruct Hr|].
    by rewrite lookup_insert_ne.
  - intros k' e' r Hk' Hr. rewrite lookup_insert in Hk'. case_decide; simplify_eq.
    + by apply Fe.
    + apply Ge. by eapply F1.
Qed.

Lemma copyTemplateFiles_ok src : copy_ok src.
Proof.
  induction src as [c|m IH] using node_ind'; intros dest t t'; [done|].
  rewrite copyTemplateFiles_Dir. intros (t0 & H0 & H)%bind_Ok.
  destruct (copy_entries_ok dest m IH t0 t' H) as [G F]. split.
  - eapply grows_trans; [by eapply grows_ensureDir|exact G| |done]. intros q Hq. by left.
  - intros [|k r] Hr; [by destruct Hr|]. unfold file_at in Hr. simpl in Hr.
    destruct (m !! k) as [e|] eqn:Hk; [|by destruct Hr]. eapply (F k e r Hk).
    unfold file_at. exact Hr.
Qed.

(** A copy to the root of the working tree. *)
Lemma copy_root src t t' :
  copyTemplateFiles src [] t = Ok t' ->
  grows (fun q => is_Some (kind_at q src)) t t' /\
  forall r, is_Some (file_at r src) -> is_Some (file_at r t').
Proof.
  intros H. destruct (copyTemplateFiles_ok src [] t t' H) as [G F]. split; [|exact F].
  eapply grows_mono; [exact G|]. intros q [Hq|(r & -> & Hr)]; [|done].
  apply prefix_nil_inv in Hq as ->. destruct src; [done|]. by eexists.
Qed.

(** *** The last stages *)
Lemma grows_createContentDirectories t t' :
  createContentDirectories t = Ok t' ->
  grows (fun q => q `prefix_of` ["src"; "content"; "blog"; ".gitkeep"]) t t'.
Proof.
  unfold createContentDirectories. apply grows_foldM.
  intros d t1 t2 ->%list_elem_of_singleton.
  destruct (existsSync _ t1); cbn [negb]; [intros [= <-]; apply grows_refl|].
  intros (t1' & Hm & Hw)%bind_Ok.
  eapply grows_trans; [by eapply grows_mkdir|by eapply grows_write| |by intros q ->].
  intros q Hq. trans ["src"; "content"; "blog"]; [exact Hq|]. by exists [".gitkeep"].
Qed.

Section Project.
Variable packageJson : string -> string -> option string.
Variable velocityConfig : ScaffoldOptions -> node -> option string.

Lemma grows_updatePackageJson (S : path -> Prop) name t t' :
  updatePackageJson packageJson name t = Ok t' -> grows S t t'.
Proof.
  unfold updatePackageJson. destruct (existsSync _ t) eqn:E; cbn [negb]; [|done].
  intros (text & Hr & H)%bind_Ok. destruct (packageJson name text); [|done].
  eapply grows_overwrite; [|done]. by apply existsSync_true.
Qed.

Lemma grows_writeProvenance options t :
  grows (fun q => q = [".velocity.json"]) t (writeProvenance velocityConfig options t).
Proof.
  unfold writeProvenance. destruct (velocityConfig options t); [|apply grows_refl].
  destruct (writeFileSync _ _ t) eqn:E; [|apply grows_refl]. by eapply grows_write.
Qed.

(** What is left to run once the overlay is in place. *)
Definition after_overlay (options : ScaffoldOptions) (w : World) (t : node) : result node :=
  t ← (if negb (demo options) then
         t ← applyBaseTemplate (baseTemplate w) (removeItems DEMO_CONTENT t);
         createContentDirectories t
       else Ok t);
  t ← match pages options with
      | [] => Ok t
      | _ :: _ => fst <$> generatePages (pages options) (pageLayout options) (i18n options) t
      end;
  t ← updatePackageJson packageJson (projectName options) t;
  Ok (writeProvenance velocityConfig options t).

Lemma scaffold_i18n options w t' :
  i18n options = true ->
  scaffold packageJson velocityConfig options w = Ok t' ->
  exists overlay t2 t3,
    i18nTemplate w = Some overlay /\
    copyTemplateFiles overlay [] t2 = Ok t3 /\
    after_overlay options w t3 = Ok t'.
Proof.
  intros Hi. unfold scaffold. rewrite Hi.
  intros (t1 & _ & H)%bind_Ok. apply bind_Ok in H as (t2 & _ & H).
  apply bind_Ok in H as (t3 & H3 & H). unfold applyI18nOverlay in H3.
  destruct (i18nTemplate w) as [overlay|]; [|done].
  exists overlay, t2, t3. split; [done|]. split; [done|]. unfold after_overlay.
  by rewrite Hi.
Qed.

(** From the stage of page generation on. *)
Lemma grows_tail options t t5 t' :
  match pages options with
  | [] => Ok t
  | _ :: _ => fst <$> generatePages (pages options) (pageLayout options) (i18n options) t
  end = Ok t5 ->
  updatePackageJson packageJson (projectName options) t5 ≫=
    (fun t => Ok (writeProvenance velocityConfig options t)) = Ok t' ->
  grows (fun q => page_paths (pages options) q \/ q = [".velocity.json"]) t t'.
Proof.
  intros H5 H6.
  assert (grows (page_paths (pages options)) t t5) as G5.
  { destruct (pages options) as [|p0 ps] eqn:E; [injection H5 as <-; apply grows_refl|].
    rewrite <- E in *.
    destruct (generatePages _ _ _ t) as [[t5' f]|] eqn:Eg; [|done].
    injection H5 as <-. by eapply grows_generatePages. }
  apply bind_Ok in H6 as (t6 & H6 & [= <-]).
  eapply (grows_trans _ (fun q => q = [".velocity.json"])); [exact G5| |by left|by right].
  eapply (grows_trans (fun _ => False)); [by eapply grows_updatePackageJson|
                                          apply grows_writeProvenance|done|done].
Qed.

End Project.

End GrowFacts.


(** ** The overlay and the removal of the demo content *)
Module ComposeFacts.
Import Fs FsFacts Pages Scaffold TreeFacts SelectionFacts GrowFacts.

(** A path at or below an item of [DEMO_CONTENT]. *)
Definition demo_path (q : path) : Prop :=
  Exists (fun d => d `prefix_of` q) DEMO_CONTENT.

#[local] Instance demo_path_dec q : Decision (demo_path q).
Proof. unfold demo_path. apply _. Defined.

(** What stage 4 and the later stages put back, at or below an item of
    [DEMO_CONTENT], once the item is removed: what the base template holds,
    the content directory with its marker, and the pages of stage 5. *)
Definition restored (base : node) (pages : list string) (q : path) : Prop :=
  is_Some (kind_at q base) \/
  q ∈ [ ["src"; "content"; "blog"]; ["src"; "content"; "blog"; ".gitkeep"] ] \/
  exists pageName, pageName ∈ pages /\ (q = pageFile pageName \/ q = langPageFile pageName).

(** The tree that a run leaves, the empty directory when it throws. *)
Definition composed (options : ScaffoldOptions) (w : World) : node :=
  match scaffold Samples.packageJson Samples.velocityConfig options w with
  | Ok t => t
  | Err _ => Dir ∅
  end.

Lemma demo_items_nonempty d : d ∈ DEMO_CONTENT -> d <> [].
Proof. intros Hd ->. unfold DEMO_CONTENT in Hd. set_solver. Qed.

Lemma kind_at_removeDemo q t :
  kind_at q (removeItems DEMO_CONTENT t) =
  if decide (demo_path q) then None else kind_at q t.
Proof. apply kind_at_removeItems, demo_items_nonempty. Qed.

Lemma demo_path_prefix q X :
  demo_path q -> q `prefix_of` X -> demo_path X.
Proof.
  unfold demo_path. rewrite !list.Exists_exists. intros (d & Hd & Hp) Hq.
  exists d. split; [done|]. by trans q.
Qed.

Lemma langDir_not_demo : ~ demo_path langDir.
Proof. apply (bool_decide_eq_false_1 (demo_path _)). vm_compute. reflexivity. Qed.

Lemma provenance_not_demo : ~ demo_path [".velocity.json"].
Proof. apply (bool_decide_eq_false_1 (demo_path _)). vm_compute. reflexivity. Qed.

Lemma prefix_take {A} (q X : list A) :
  q `prefix_of` X -> (length q <= length X)%nat /\ q = take (length q) X.
Proof.
  intros [z ->]. rewrite take_app_length, length_app. split; [lia|done].
Qed.

Lemma marker_demo q :
  demo_path q -> q `prefix_of` ["src"; "content"; "blog"; ".gitkeep"] ->
  q ∈ [ ["src"; "content"; "blog"]; ["src"; "content"; "blog"; ".gitkeep"] ].
Proof.
  intros Hd [Hl Hq]%prefix_take. revert Hd Hl Hq. generalize (length q). intros n Hd Hl ->.
  revert Hd. cbn [length] in Hl.
  destruct n as [|[|[|[|[|n]]]]]; cbn [take]; try lia.
  - intros Hd. exfalso. revert Hd. apply (bool_decide_eq_false_1 (demo_path _)). vm_compute. reflexivity.
  - intros Hd. exfalso. revert Hd. apply (bool_decide_eq_false_1 (demo_path _)). vm_compute. reflexivity.
  - intros Hd. exfalso. revert Hd. apply (bool_decide_eq_false_1 (demo_path _)). vm_compute. reflexivity.
  - intros _. set_solver.
  - intros _. set_solver.
Qed.

Section Project.
Variable packageJson : string -> string -> option string.
Variable velocityConfig : ScaffoldOptions -> node -> option string.

Lemma after_overlay_demo options w t t' :
  demo options = true ->
  after_overlay packageJson velocityConfig options w t = Ok t' ->
  forall p, is_Some (file_at p t) -> is_Some (file_at p t').
Proof.
  intros Hd. unfold after_overlay. rewrite Hd. cbn [negb].
  intros (t4 & [= <-] & H)%bind_Ok. apply bind_Ok in H as (t5 & H5 & H6).
  by destruct (grows_tail packageJson velocityConfig options t t5 t' H5 H6).
Qed.

Lemma after_overlay_minimal options w t t' :
  demo options = false ->
  after_overlay packageJson velocityConfig options w t = Ok t' ->
  exists base, baseTemplate w = Some base /\
    (forall p, is_Some (file_at p t) -> ~ demo_path p -> is_Some (file_at p t')) /\
    (forall q, demo_path q -> is_Some (kind_at q t') -> restored base (pages options) q).
Proof.
  intros Hd. unfold after_overlay. rewrite Hd. cbn [negb].
  intros (t4 & H4 & H)%bind_Ok. apply bind_Ok in H as (t5 & H5 & H6).
  apply bind_Ok in H4 as (tb & Hb & Hc). unfold applyBaseTemplate in Hb.
  destruct (baseTemplate w) as [base|]; [|done]. exists base. split; [done|].
  apply copy_root in Hb as [[Fb Cb] _].
  apply grows_createContentDirectories in Hc as [Fc Cc].
  destruct (grows_tail packageJson velocityConfig options t4 t5 t' H5 H6) as [Ft Ct].
  split.
  - intros p Hp Hn. apply Ft, Fc, Fb.
    by rewrite file_at_of_kind, kind_at_removeDemo, decide_False, <- file_at_of_kind.
  - intros q Hq [Hk|[Hk|Hk]]%Ct.
    + apply Cc in Hk as [Hk|Hk].
      * apply Cb in Hk as [Hk|Hk]; [|by left].
        rewrite kind_at_removeDemo, decide_True in Hk by done. by destruct Hk.
      * right. left. by apply marker_demo.
    + destruct Hk as [Hk|Hk]; [|by right; right].
      destruct langDir_not_demo. by eapply demo_path_prefix.
    + subst q. by destruct provenance_not_demo.
Qed.

End Project.

End ComposeFacts.

(** C1, as stated, fails: the page names of the run are free, and a run
    without demo content that asks for the page [about] ends with
    [src/pages/about.astro] and [src/pages/[lang]/[...about].astro], two
    paths of [DEMO_CONTENT], in the tree. *)
Lemma demo_page_paths_written_again :
  let options := Samples.options false true
                   (Samples.select Registry.mode_all None None) ["about"] in
  let w := Samples.world (Registry.Json Samples.diamond) in
  Scaffold.demo options = false /\ Scaffold.i18n options = true /\
  Scaffold.scaffold Samples.packageJson Samples.velocityConfig options w =
    Ok (ComposeFacts.composed options w) /\
  ["src"; "pages"; "about.astro"] ∈ Scaffold.DEMO_CONTENT /\
  ["src"; "pages"; "[lang]"; "[...about].astro"] ∈ Scaffold.DEMO_CONTENT /\
  is_Some (Fs.file_at ["src"; "pages"; "about.astro"] (ComposeFacts.composed options w)) /\
  is_Some (Fs.file_at ["src"; "pages"; "[lang]"; "[...about].astro"]
             (ComposeFacts.composed options w)).
Proof.
  cbv zeta. split; [reflexivity|]. split; [reflexivity|].
  split; [vm_compute; reflexivity|].
  split; [unfold Scaffold.DEMO_CONTENT; set_solver|].
  split; [unfold Scaffold.DEMO_CONTENT; set_solver|].
  split; vm_compute; by eexists.
Qed.

(** C1, amended. In a run with i18n that returns, the overlay is there and
    was copied before anything was removed. With the demo content kept,
    every file of the overlay is a file of the final tree. With the demo
    content declined, every file of the overlay that is not at or below an
    item of [DEMO_CONTENT] is a file of the final tree, and whatever stands
    in the final tree at or below an item of [DEMO_CONTENT] was put back
    after the removal: by the base template, by the content directory of
    stage 4, or by a page of stage 5. *)
Theorem overlay_before_demo_removal packageJson velocityConfig options w t' :
  Scaffold.i18n options = true ->
  Scaffold.scaffold packageJson velocityConfig options w = Ok t' ->
  exists overlay, Scaffold.i18nTemplate w = Some overlay /\
    if Scaffold.demo options then
      forall p, is_Some (Fs.file_at p overlay) -> is_Some (Fs.file_at p t')
    else
      exists base, Scaffold.baseTemplate w = Some base /\
        (forall p, is_Some (Fs.file_at p overlay) -> ~ ComposeFacts.demo_path p ->
                   is_Some (Fs.file_at p t')) /\
        (forall q, ComposeFacts.demo_path q -> is_Some (Fs.kind_at q t') ->
                   ComposeFacts.restored base (Scaffold.pages options) q).
Proof.
  intros Hi H.
  apply (GrowFacts.scaffold_i18n _ _ _ _ _ Hi) in H as (overlay & t2 & t3 & Ho & Hc & Ha).
  exists overlay. split; [done|].
  apply GrowFacts.copy_root in Hc as [_ Hfiles].
  destruct (Scaffold.demo options) eqn:Hd.
  - intros p Hp. eapply ComposeFacts.after_overlay_demo; [done..|]. by apply Hfiles.
  - destruct (ComposeFacts.after_overlay_minimal _ _ _ _ _ _ Hd Ha) as (base & Hb & Hk & Hn).
    exists base. split; [done|]. split; [|done].
    intros p Hp Hnd. apply Hk; [by apply Hfiles|done].
Qed.

(** C1, amended, at a run without demo content, with i18n and no pages. *)
Lemma overlay_before_demo_removal_witness :
  exists overlay,
    Scaffold.i18nTemplate (Samples.world (Registry.Json Samples.diamond)) = Some overlay /\
    exists base,
      Scaffold.baseTemplate (Samples.world (Registry.Json Samples.diamond)) = Some base /\
      (forall p, is_Some (Fs.file_at p overlay) -> ~ ComposeFacts.demo_path p ->
         is_Some (Fs.file_at p
           (ComposeFacts.composed
              (Samples.options false true (Samples.select Registry.mode_all None None) [])
              (Samples.world (Registry.Json Samples.diamond))))) /\
      (forall q, ComposeFacts.demo_path q ->
         is_Some (Fs.kind_at q
           (ComposeFacts.composed
              (Samples.options false true (Samples.select Registry.mode_all None None) [])
              (Samples.world (Registry.Json Samples.diamond)))) ->
         ComposeFacts.restored base [] q).
Proof.
  apply (overlay_before_demo_removal Samples.packageJson Samples.velocityConfig
           (Samples.options false true (Samples.select Registry.mode_all None None) [])
           (Samples.world (Registry.Json Samples.diamond))
           (ComposeFacts.composed
              (Samples.options false true (Samples.select Registry.mode_all None None) [])
              (Samples.world (Registry.Json Samples.diamond)))).
  - reflexivity.
  - vm_compute. reflexivity.
Defined.

(** The two runs of C1 on the sample template: with the demo content the
    localized demo pages are there; without it the content directory is
    there again, nothing else of [DEMO_CONTENT] is, and the routing files of
    the overlay are there. *)
Example overlay_runs :
  let sel := Samples.select Registry.mode_all None None in
  let w := Samples.world (Registry.Json Samples.diamond) in
  let full := ComposeFacts.composed (Samples.options true true sel []) w in
  let minimal := ComposeFacts.composed (Samples.options false true sel []) w in
  is_Some (Fs.file_at ["src"; "pages"; "[lang]"; "index.astro"] full) /\
  is_Some (Fs.file_at ["src"; "pages"; "[lang]"; "[...about].astro"] full) /\
  Fs.kind_at ["src"; "content"; "blog"] minimal = Some Fs.IsDir /\
  forallb (fun p => bool_decide (Fs.kind_at p minimal = None))
    (filter (fun p => p <> ["src"; "content"; "blog"]) Scaffold.DEMO_CONTENT) = true /\
  is_Some (Fs.file_at ["src"; "i18n"; "config.ts"] minimal) /\
  is_Some (Fs.file_at ["src"; "i18n"; "routes.ts"] minimal).
Proof.
  cbv zeta. split; [vm_compute; by eexists|]. split; [vm_compute; by eexists|].
  split; [vm_compute; reflexivity|]. split; [vm_compute; reflexivity|].
  split; vm_compute; by eexists.
Qed.


(** ** The resolver: what it returns and in which order *)
Module ResolverMore.
Import Registry RegistryTools ResolverFacts.
#[local] Open Scope nat_scope.

Lemma fold_option_inv {A S : Type} (I : S -> Prop) (f : S -> A -> option S) l s s' :
  (forall s x s', x ∈ l -> I s -> f s x = Some s' -> I s') ->
  I s -> fold_option f s l = Some s' -> I s'.
Proof.
  revert s. induction l as [|x l IH]; intros s Hf Hs; simpl.
  - by intros [= <-].
  - destruct (f s x) as [s1|] eqn:E; simpl; [|done]. apply IH.
    + intros s2 y s3 Hy. apply Hf. by right.
    + eapply Hf; [left|done..].
Qed.

Section Sound.
Variable registry : ComponentRegistry.
Local Notation "'R'" := (components registry).

(** [x] needs [y]: [y] is [x], or a dependency of a registered component
    that [x] needs. *)
Inductive needs : string -> string -> Prop :=
  | needs_refl x : needs x x
  | needs_step x y c d :
      needs x y -> R !! y = Some c -> d ∈ dep_components (dependencies c) ->
      needs x d.

(** Nothing is in the sets of [st] without a reason: the resolved components
    are registered and within [P], a file or a utility comes from a resolved
    component, a warning names an unregistered identifier within [P]. *)
Record sound (P : string -> Prop) (st : state) : Prop := {
  sound_resolved : forall x, x ∈ resolved st -> P x /\ is_Some (R !! x);
  sound_files : forall f, f ∈ files st ->
    exists x c, x ∈ resolved st /\ R !! x = Some c /\ f ∈ comp_files c;
  sound_utils : forall u, u ∈ utils st ->
    exists x c, x ∈ resolved st /\ R !! x = Some c /\ u ∈ dep_utilities (dependencies c);
  sound_warnings : forall w, w ∈ warnings st ->
    exists x, P x /\ R !! x = None /\ w = "Component not found: " +:+ x
}.

Lemma sound_initial P : sound P initial.
Proof. split; intros x H; by apply elem_of_nil in H. Qed.

Lemma resolve_sound (P : string -> Prop) fuel :
  (forall x c d, P x -> R !! x = Some c -> d ∈ dep_components (dependencies c) -> P d) ->
  forall id st st',
    P id -> sound P st -> resolve fuel registry id st = Some st' -> sound P st'.
Proof.
  intros HP. induction fuel as [|fuel IH]; intros id st st' Hid Hst; [done|]. simpl.
  case_decide as Hin; [by intros [= <-]|].
  unfold Js.get. destruct (R !! id) as [c|] eqn:Ec.
  - destruct (fold_option _ _ _) as [st1|] eqn:Ef; simpl; [|done]. intros [= <-].
    assert (sound P st1) as H1.
    { match type of Ef with fold_option _ ?s _ = _ => assert (sound P s) as H0 end.
      { destruct Hst. by split. }
      revert Ef. apply (fold_option_inv (sound P)); [|done].
      intros s x s' Hx Hs. apply IH; [|done]. by eapply HP. }
    destruct H1 as [Hr Hf Hu Hw]. split; simpl.
    + intros x [->|Hx]%elem_of_set_add; [|by apply Hr]. split; [done|by eexists].
    + intros f [Hf'|Hf']%elem_of_set_add_all.
      * exists id, c. rewrite elem_of_set_add. auto.
      * destruct (Hf f Hf') as (x & cx & ? & ? & ?). exists x, cx.
        rewrite elem_of_set_add. auto.
    + intros u [Hu'|Hu']%elem_of_set_add_all.
      * exists id, c. rewrite elem_of_set_add. auto.
      * destruct (Hu u Hu') as (x & cx & ? & ? & ?). exists x, cx.
        rewrite elem_of_set_add. auto.
    + done.
  - destruct (decide (id ∈ Js.Object_prototype)); [done|].
    intros [= <-]. destruct Hst as [Hr Hf Hu Hw]. split; simpl; [done..|].
    intros w [Hw'| ->%list_elem_of_singleton]%elem_of_app; [by apply Hw|]. by exists id.
Qed.

(** *** The order of the resolved components *)

Lemma prefix_set_add x l : l `prefix_of` set_add x l.
Proof. unfold set_add. case_decide; [done|]. by apply prefix_app_r. Qed.

Definition grows_to (id : string) (st st' : state) : Prop :=
  resolved st `prefix_of` resolved st' /\ (is_Some (R !! id) -> id ∈ resolved st').

Lemma fold_grows (f : state -> string -> option state) deps st st1 :
  (forall d s s', f s d = Some s' -> grows_to d s s') ->
  fold_option f st deps = Some st1 ->
  resolved st `prefix_of` resolved st1 /\
  forall d, d ∈ deps -> is_Some (R !! d) -> d ∈ resolved st1.
Proof.
  intros Hf. revert st. induction deps as [|d deps IH]; intros st; simpl.
  - intros [= <-]. split; [done|]. intros d H. by apply elem_of_nil in H.
  - destruct (f st d) as [s1|] eqn:E; simpl; [|done]. intros H.
    destruct (Hf _ _ _ E) as [Hp Hin]. destruct (IH _ H) as [Hp' Hin'].
    split; [by trans (resolved s1)|].
    intros d' [->|Hd]%elem_of_cons Hreg; [|by apply Hin'].
    eapply elem_of_prefix; [by apply Hin|done].
Qed.

Lemma resolve_grows fuel id st st' :
  resolve fuel registry id st = Some st' -> grows_to id st st'.
Proof.
  revert id st st'. induction fuel as [|fuel IH]; intros id st st'; [done|]. simpl.
  case_decide as Hin; [intros [= <-]; by split|].
  unfold Js.get. destruct (R !! id) as [c|] eqn:Ec.
  - destruct (fold_option _ _ _) as [st1|] eqn:Ef; simpl; [|done]. intros [= <-].
    apply (fold_grows _ _ _ _ (fun d s s' => IH d s s')) in Ef as [Hp _].
    split; simpl.
    + trans (resolved st1); [exact Hp|apply prefix_set_add].
    + intros _. rewrite elem_of_set_add. by left.
  - destruct (decide (id ∈ Js.Object_prototype)); [done|].
    intros [= <-]. split; [done|]. intros [? ?]. congruence.
Qed.

(** Every registered dependency of a resolved component stands before it. *)
Definition ordered (l : list string) : Prop :=
  forall i x c d,
    l !! i = Some x -> R !! x = Some c -> d ∈ dep_components (dependencies c) ->
    is_Some (R !! d) ->
    exists j, j < i /\ l !! j = Some d.

Lemma resolve_ordered fuel id st st' :
  ordered (resolved st) -> resolve fuel registry id st = Some st' ->
  ordered (resolved st').
Proof.
  revert id st st'. induction fuel as [|fuel IH]; intros id st st' Hst; [done|]. simpl.
  case_decide as Hin; [by intros [= <-]|].
  unfold Js.get. destruct (R !! id) as [c|] eqn:Ec;
    [|destruct (decide (id ∈ Js.Object_prototype)); [done|by intros [= <-]]].
  destruct (fold_option _ _ _) as [st1|] eqn:Ef; simpl; [|done]. intros [= <-]. simpl.
  assert (ordered (resolved st1)) as H1.
  { revert Ef. apply (fold_option_inv (fun s => ordered (resolved s))); [|done].
    intros s x s' _ Hs. by apply IH. }
  apply (fold_grows _ _ _ _ (fun d s s' => resolve_grows fuel d s s')) in Ef as [_ Hdeps].
  unfold set_add. case_decide as Hid; [done|].
  intros i x cx d Hi Hx Hd Hreg.
  destruct (decide (i < length (resolved st1))) as [Hlt|Hge].
  - rewrite lookup_app_l in Hi by done.
    destruct (H1 i x cx d Hi Hx Hd Hreg) as (j & Hj & Hjd).
    exists j. split; [done|]. rewrite lookup_app_l by lia. done.
  - rewrite lookup_app_r in Hi by lia.
    apply list_lookup_singleton_Some in Hi as [Hi <-].
    rewrite Ec in Hx. injection Hx as <-.
    destruct (proj1 (list_elem_of_lookup _ _) (Hdeps d Hd Hreg)) as [j Hj].
    exists j. apply lookup_lt_Some in Hj as Hlt. split; [lia|].
    by rewrite lookup_app_l.
Qed.

(** *** The utilities at the end *)

Lemma fold_option_snoc {A S : Type} (f : S -> A -> option S) s l x :
  fold_option f s (l ++ [x]) = fold_option f s l ≫= fun s' => f s' x.
Proof.
  revert s. induction l as [|y l IH]; intros s; simpl.
  - by destruct (f s x).
  - destruct (f s y) as [s1|]; simpl; [apply IH|done].
Qed.

Lemma collectUtilities_from st fs ps :
  collectUtilities registry st = Some (fs, ps) ->
  (forall f, f ∈ fs ->
     f ∈ files st \/
     exists u util, u ∈ utils st /\ utilities registry !! u = Some util /\
                    f ∈ util_files util) /\
  (forall p, p ∈ ps ->
     exists u util, u ∈ utils st /\ utilities registry !! u = Some util /\
                    p ∈ util_npm util) /\
  (forall u util, u ∈ utils st -> utilities registry !! u = Some util ->
     (forall f, f ∈ util_files util -> f ∈ fs) /\
     (forall p, p ∈ util_npm util -> p ∈ ps)).
Proof.
  unfold collectUtilities. generalize (utils st). intros us. revert fs ps.
  induction us as [|u us IH] using rev_ind; intros fs ps; simpl.
  - intros [= <- <-]. split; [auto|]. split; [intros ? H; by apply elem_of_nil in H|].
    intros ? ? H. by apply elem_of_nil in H.
  - rewrite fold_option_snoc.
    destruct (fold_option _ _ us) as [[fs0 ps0]|] eqn:E; simpl; [|done].
    destruct (IH fs0 ps0 eq_refl) as (IH1 & IH2 & IH3).
    unfold Js.get. destruct (utilities registry !! u) as [util|] eqn:Eu.
    + intros [= <- <-]. split; [|split].
      * intros f [Hf|Hf]%elem_of_set_add_all.
        -- right. exists u, util. rewrite elem_of_app, list_elem_of_singleton. auto.
        -- destruct (IH1 f Hf) as [?|(u' & util' & ? & ? & ?)]; [by left|].
           right. exists u', util'. rewrite elem_of_app. auto.
      * intros p [Hp|Hp]%elem_of_set_add_all.
        -- exists u, util. rewrite elem_of_app, list_elem_of_singleton. auto.
        -- destruct (IH2 p Hp) as (u' & util' & ? & ? & ?).
           exists u', util'. rewrite elem_of_app. auto.
      * intros u' util' [Hu| ->%list_elem_of_singleton]%elem_of_app Hutil.
        -- destruct (IH3 u' util' Hu Hutil) as [Hf Hp].
           split; intros x Hx; rewrite elem_of_set_add_all; auto.
        -- rewrite Eu in Hutil. injection Hutil as <-.
           split; intros x Hx; rewrite elem_of_set_add_all; auto.
    + destruct (decide (u ∈ Js.Object_prototype)); [done|].
      intros [= <- <-]. split; [|split].
      * intros f Hf. destruct (IH1 f Hf) as [?|(u' & util' & ? & ? & ?)]; [by left|].
        right. exists u', util'. rewrite elem_of_app. auto.
      * intros p Hp. destruct (IH2 p Hp) as (u' & util' & ? & ? & ?).
        exists u', util'. rewrite elem_of_app. auto.
      * intros u' util' [Hu| ->%list_elem_of_singleton]%elem_of_app Hutil.
        -- by eapply IH3.
        -- by rewrite Eu in Hutil.
Qed.

End Sound.

Lemma resolveRun_inv registry selection fuel st r :
  resolveRun fuel selection registry = Some (st, r) ->
  mode selection = mode_none /\ st = initial /\ r = empty_result \/
  fold_option (fun st componentId => resolve fuel registry componentId st) initial
    (requestedComponents selection registry) = Some st /\
  res_components r = resolved st /\
  res_utilities r = utils st /\
  collectUtilities registry st = Some (res_files r, res_npmPackages r).
Proof.
  unfold resolveRun. intros H.
  assert (mode selection = mode_none \/
          (st' ← fold_option (fun st componentId => resolve fuel registry componentId st)
                   initial (requestedComponents selection registry);
           '(files, npmPackages) ← collectUtilities registry st';
           Some (st', {| res_components := resolved st'; res_utilities := utils st';
                         res_files := files; res_npmPackages := npmPackages |})) =
          Some (st, r)) as [Hm|H'].
  { destruct (mode selection); auto. }
  - left. rewrite Hm in H. by injection H as <- <-.
  - right. clear H. destruct (fold_option _ _ _) as [st'|]; simpl in H'; [|done].
    destruct (collectUtilities registry st') as [[fs ps]|] eqn:E; simpl in H'; [|done].
    injection H' as <- <-. by rewrite E.
Qed.

Lemma resolveDependencies_inv registry selection fuel r :
  resolveDependencies fuel selection registry = Some r ->
  exists st, resolveRun fuel selection registry = Some (st, r).
Proof.
  unfold resolveDependencies. destruct (resolveRun _ _ _) as [[st r']|]; [|done].
  intros [= <-]. by exists st.
Qed.

End ResolverMore.

(** X1. On a registry without a dependency cycle that names no inherited
    property, for a selection whose requested identifiers are plain, the
    resolver returns, and what it returns is closed: every requested
    identifier that is registered is resolved, every registered dependency
    of a resolved component is resolved, the files and the utilities of a
    resolved component are in the result, and so are the files and the
    packages of every registered utility of the result. *)
Theorem resolution_closed registry selection :
  Registry.acyclic registry ->
  Registry.names_plain registry ->
  (forall id, id ∈ Registry.requestedComponents selection registry ->
              Registry.plain (Registry.components registry) id) ->
  exists fuel0, forall fuel, (fuel0 <= fuel)%nat ->
    exists r,
      Registry.resolveDependencies fuel selection registry = Some r /\
      (forall id, id ∈ Registry.requestedComponents selection registry ->
         is_Some (Registry.components registry !! id) ->
         id ∈ Registry.res_components r) /\
      (forall x, x ∈ Registry.res_components r ->
         exists c, Registry.components registry !! x = Some c /\
           (forall d, d ∈ Registry.dep_components (Registry.dependencies c) ->
              is_Some (Registry.components registry !! d) ->
              d ∈ Registry.res_components r) /\
           (forall f, f ∈ Registry.comp_files c -> f ∈ Registry.res_files r) /\
           (forall u, u ∈ Registry.dep_utilities (Registry.dependencies c) ->
              u ∈ Registry.res_utilities r)) /\
      (forall u util, u ∈ Registry.res_utilities r ->
         Registry.utilities registry !! u = Some util ->
         (forall f, f ∈ Registry.util_files util -> f ∈ Registry.res_files r) /\
         (forall p, p ∈ Registry.util_npm util -> p ∈ Registry.res_npmPackages r)).
Proof.
  intros [rank Hrank] Hplain Hreq. exists (ResolverFacts.enough registry rank).
  intros fuel Hfuel.
  destruct (ResolverFacts.resolveRun_ok registry rank Hrank Hplain selection fuel Hfuel Hreq)
    as (st & r & E & Hc & _ & Hin & Hr & Hu & _ & _ & Hsub).
  exists r. split; [unfold Registry.resolveDependencies; by rewrite E|].
  rewrite Hr, Hu. split; [exact Hin|].
  apply ResolverMore.resolveRun_inv in E as [(Hm & -> & ->)|(_ & _ & _ & Hcu)].
  { split; [intros ? Hnil; by apply elem_of_nil in Hnil|].
    intros ? ? Hnil. by apply elem_of_nil in Hnil. }
  destruct (ResolverMore.collectUtilities_from registry st _ _ Hcu) as (_ & _ & Hcoll).
  split.
  - intros x Hx. destruct (ResolverFacts.closed_resolved _ _ Hc x Hx) as (c & Ec & F & U & D).
    exists c. split; [done|]. split; [done|]. split; [|done]. intros f Hfc. by apply Hsub, F.
  - intros u util Hu' Hutil. by eapply Hcoll.
Qed.

(** X1, on the sample registry. *)
Lemma resolution_closed_witness :
  exists fuel0, forall fuel, (fuel0 <= fuel)%nat ->
    exists r,
      Registry.resolveDependencies fuel
        (Samples.select Registry.mode_individual None (Some ["dialog"])) Samples.diamond =
        Some r /\
      "button" ∈ Registry.res_components r /\
      "src/components/ui/Button.astro" ∈ Registry.res_files r /\
      "clsx" ∈ Registry.res_npmPackages r.
Proof.
  destruct (resolution_closed Samples.diamond
              (Samples.select Registry.mode_individual None (Some ["dialog"])))
    as [fuel0 H].
  { exists Samples.diamond_rank. exact ResolverFacts.ranked_diamond. }
  { exact ResolverFacts.plain_diamond. }
  { intros id Hid. vm_compute in Hid.
    repeat (apply elem_of_cons in Hid as [->|Hid]; [by vm_compute|]).
    by apply elem_of_nil in Hid. }
  exists fuel0. intros fuel Hfuel. destruct (H fuel Hfuel) as (r & E & Hreq & Hclosed & Hutil).
  exists r. split; [exact E|].
  assert ("dialog" ∈ Registry.res_components r) as Hd.
  { apply Hreq; [vm_compute; left|]. vm_compute. by eexists. }
  destruct (Hclosed "dialog" Hd) as (c & Ec & Hdeps & _).
  vm_compute in Ec. injection Ec as <-.
  assert ("button" ∈ Registry.res_components r) as Hb.
  { apply Hdeps; [vm_compute; left|]. vm_compute. by eexists. }
  destruct (Hclosed "button" Hb) as (cb & Ecb & _ & Hfiles & Hus).
  vm_compute in Ecb. injection Ecb as <-.
  split; [exact Hb|]. split; [apply Hfiles; vm_compute; left|].
  assert ("cn" ∈ Registry.res_utilities r) as Hcn by (apply Hus; vm_compute; left).
  destruct (Hutil "cn" _ Hcn eq_refl) as [_ Hnpm].
  apply Hnpm. vm_compute. left.
Defined.

(** X2. The resolver adds nothing without a reason. Whenever it returns,
    every resolved component is registered and is needed by a requested
    one, every utility is named by a resolved component, every file belongs
    to a resolved component or to a registered utility of the result, and
    every package belongs to a registered utility of the result. *)
Theorem resolution_minimal registry selection fuel r :
  Registry.resolveDependencies fuel selection registry = Some r ->
  (forall x, x ∈ Registry.res_components r ->
     is_Some (Registry.components registry !! x) /\
     exists root, root ∈ Registry.requestedComponents selection registry /\
                  ResolverMore.needs registry root x) /\
  (forall u, u ∈ Registry.res_utilities r ->
     exists x c, x ∈ Registry.res_components r /\
       Registry.components registry !! x = Some c /\
       u ∈ Registry.dep_utilities (Registry.dependencies c)) /\
  (forall f, f ∈ Registry.res_files r ->
     (exists x c, x ∈ Registry.res_components r /\
        Registry.components registry !! x = Some c /\ f ∈ Registry.comp_files c) \/
     (exists u util, u ∈ Registry.res_utilities r /\
        Registry.utilities registry !! u = Some util /\ f ∈ Registry.util_files util)) /\
  (forall p, p ∈ Registry.res_npmPackages r ->
     exists u util, u ∈ Registry.res_utilities r /\
       Registry.utilities registry !! u = Some util /\ p ∈ Registry.util_npm util).
Proof.
  intros [st E]%ResolverMore.resolveDependencies_inv.
  apply ResolverMore.resolveRun_inv in E as [(_ & _ & ->)|(Ef & -> & -> & Hcu)].
  { split; [|split; [|split]]; intros ? Hnil; by apply elem_of_nil in Hnil. }
  set (P := fun x => exists root, root ∈ Registry.requestedComponents selection registry /\
                                  ResolverMore.needs registry root x).
  assert (ResolverMore.sound registry P st) as [Hr Hf Hu _].
  { revert Ef. apply (ResolverMore.fold_option_inv (ResolverMore.sound registry P));
      [|apply ResolverMore.sound_initial].
    intros s x s' Hx Hs. apply ResolverMore.resolve_sound; [|by exists x; split; [|constructor]|done].
    intros y c d (root & Hroot & Hy) Hc Hd. exists root. split; [done|].
    by eapply ResolverMore.needs_step. }
  destruct (ResolverMore.collectUtilities_from registry st _ _ Hcu) as (Hfiles & Hnpm & _).
  split; [|split; [|split]].
  - intros x Hx. destruct (Hr x Hx). done.
  - exact Hu.
  - intros f [Hin|Hin]%Hfiles; [left; by apply Hf|by right].
  - exact Hnpm.
Qed.

(** X2, at a run on the sample registry. *)
Lemma resolution_minimal_witness :
  (forall x, x ∈ ["button"; "card"] ->
     is_Some (Registry.components Samples.diamond !! x) /\
     exists root,
       root ∈ Registry.requestedComponents
                (Samples.select Registry.mode_individual None (Some ["card"]))
                Samples.diamond /\
       ResolverMore.needs Samples.diamond root x) /\
  (forall p, p ∈ ["clsx"; "tailwind-merge"] ->
     exists u util, u ∈ ["cn"] /\
       Registry.utilities Samples.diamond !! u = Some util /\ p ∈ Registry.util_npm util).
Proof.
  destruct (resolution_minimal Samples.diamond
              (Samples.select Registry.mode_individual None (Some ["card"])) 3
              {| Registry.res_components := ["button"; "card"];
                 Registry.res_utilities := ["cn"];
                 Registry.res_files :=
                   ["src/components/ui/Button.astro"; "src/components/ui/Card.astro";
                    "src/lib/cn.ts"];
                 Registry.res_npmPackages := ["clsx"; "tailwind-merge"] |})
    as (Hc & _ & _ & Hp).
  - vm_compute. reflexivity.
  - split; [exact Hc|exact Hp].
Defined.

(** X3. Dependencies come first: whenever the resolver returns, every
    registered dependency of a resolved component stands at a smaller index
    of the list of resolved components than the component itself. *)
Theorem dependencies_first registry selection fuel r :
  Registry.resolveDependencies fuel selection registry = Some r ->
  forall i x c d,
    Registry.res_components r !! i = Some x ->
    Registry.components registry !! x = Some c ->
    d ∈ Registry.dep_components (Registry.dependencies c) ->
    is_Some (Registry.components registry !! d) ->
    exists j, (j < i)%nat /\ Registry.res_components r !! j = Some d.
Proof.
  intros [st E]%ResolverMore.resolveDependencies_inv.
  apply ResolverMore.resolveRun_inv in E as [(_ & _ & ->)|(Ef & -> & _)].
  { intros i x c d Hi. by destruct i. }
  revert Ef.
  apply (ResolverMore.fold_option_inv (fun s => ResolverMore.ordered registry (Registry.resolved s))).
  - intros s x s' _ Hs. by apply ResolverMore.resolve_ordered.
  - intros i x c d Hi. by destruct i.
Qed.

(** X3, at a run on the sample registry: [card] is resolved at index 1, its
    dependency [button] before it. *)
Lemma dependencies_first_witness :
  exists j, (j < 1)%nat /\ ["button"; "card"] !! j = Some "button".
Proof.
  refine (dependencies_first Samples.diamond
           (Samples.select Registry.mode_individual None (Some ["card"])) 3
           {| Registry.res_components := ["button"; "card"];
              Registry.res_utilities := ["cn"];
              Registry.res_files :=
                ["src/components/ui/Button.astro"; "src/components/ui/Card.astro";
                 "src/lib/cn.ts"];
              Registry.res_npmPackages := ["clsx"; "tailwind-merge"] |}
           _ 1%nat "card"
           (Samples.component "ui" ["src/components/ui/Card.astro"] ["cn"] ["button"])
           "button" _ _ _ _).
  - vm_compute. reflexivity.
  - reflexivity.
  - vm_compute. reflexivity.
  - vm_compute. left.
  - vm_compute. by eexists.
Defined.


(** ** [getDependencyTree] *)
Module DependencyTreeFacts.
Import Registry RegistryTools ResolverFacts.
#[local] Open Scope nat_scope.

(** The identifiers of a tree, the root first. *)
Fixpoint ids (t : DependencyTree) : list string :=
  match t with
  | TreeNode id _ deps => id :: concat (ids <$> deps)
  end.




Lemma concat_snoc {A} (ls : list (list A)) l : concat (ls ++ [l]) = concat ls ++ l.
Proof. by rewrite concat_app; simpl; rewrite app_nil_r. Qed.

Section Tree.
Variable registry : ComponentRegistry.
Hypothesis Hplain : names_plain registry.
Local Notation "'R'" := (components registry).










End Tree.

End DependencyTreeFacts.




(** On that registry the tree is the component alone. *)
Example dependency_tree_cyclic :
  RegistryTools.getDependencyTree 2 "a" Samples.cyclic [] =
  Some (Some (RegistryTools.TreeNode "a" "" []), ["a"]).
Proof. vm_compute. reflexivity. Qed.

(** For an inherited name the call throws. *)
Example dependency_tree_constructor fuel :
  RegistryTools.getDependencyTree fuel "constructor" Samples.diamond [] = None.
Proof. destruct fuel as [|fuel]; [done|]. by vm_compute. Qed.


(** ** Validation, statistics and categories *)
Module RegistryToolsFacts.
Import Registry RegistryTools ResolverFacts.
#[local] Open Scope nat_scope.

Lemma filter_nil_iff {A} (P : A -> Prop) `{!forall x, Decision (P x)} (l : list A) :
  length (filter P l) = 0 <-> forall x, x ∈ l -> ~ P x.
Proof.
  split.
  - intros Hlen x Hx Hp. apply length_zero_iff_nil in Hlen.
    assert (x ∈ filter P l) as Hin by (by apply list_elem_of_filter).
    rewrite Hlen in Hin. by apply elem_of_nil in Hin.
  - intros Hall. apply length_zero_iff_nil. apply elem_of_nil_inv. intros x Hx.
    apply list_elem_of_filter in Hx as [Hp Hx]. by apply (Hall x).
Qed.

Lemma elem_of_byCategory registry categoryId id :
  id ∈ getComponentsByCategory categoryId registry <->
  exists c, components registry !! id = Some c /\ category c = categoryId.
Proof.
  unfold getComponentsByCategory. rewrite list_elem_of_fmap. split.
  - intros ([i c] & -> & [Hc Hin]%list_elem_of_filter). exists c.
    by apply elem_of_map_to_list in Hin.
  - intros (c & Hc & Hcat). exists (id, c). split; [done|]. apply list_elem_of_filter.
    split; [done|]. by apply elem_of_map_to_list.
Qed.

Lemma elem_of_add_category c d s : c ∈ add_category d s <-> c = d \/ c ∈ s.
Proof.
  unfold add_category. case_decide; [naive_solver|].
  rewrite elem_of_app, list_elem_of_singleton. naive_solver.
Qed.

Lemma NoDup_add_category d s : NoDup s -> NoDup (add_category d s).
Proof.
  unfold add_category. case_decide; [done|]. intros Hs.
  apply list.NoDup_app. split_and!; [done| |apply NoDup_singleton].
  intros x Hx ->%list_elem_of_singleton. done.
Qed.

Lemma get_inv {A} (m : gmap string A) k :
  match Js.get m k with
  | Js.Own a => m !! k = Some a
  | Js.Inherited => m !! k = None /\ k ∈ Js.Object_prototype
  | Js.Undefined => m !! k = None /\ k ∉ Js.Object_prototype
  end.
Proof.
  unfold Js.get. destruct (m !! k); [done|].
  by destruct (decide (k ∈ Js.Object_prototype)).
Qed.

(** What [getSelectionStats] adds for an identifier: the category of the
    component, or [undefined] for an inherited value. *)
Definition adds (registry : ComponentRegistry) (id : string) (c : option string) : Prop :=
  (exists comp, components registry !! id = Some comp /\ c = Some (category comp)) \/
  (components registry !! id = None /\ id ∈ Js.Object_prototype /\ c = None).

Lemma stats_categories registry ids acc :
  NoDup acc ->
  let cs := foldl (fun categories componentId =>
                     match Js.get (components registry) componentId with
                     | Js.Own component => add_category (Some (category component)) categories
                     | Js.Inherited => add_category None categories
                     | Js.Undefined => categories
                     end) acc ids in
  NoDup cs /\
  forall c, c ∈ cs <-> c ∈ acc \/ exists id, id ∈ ids /\ adds registry id c.
Proof.
  revert acc. induction ids as [|id ids IH]; intros acc Hacc; simpl.
  - split; [done|]. intros c. split; [auto|]. intros [?|(? & H & _)]; [done|].
    by apply elem_of_nil in H.
  - pose proof (get_inv (components registry) id) as G.
    destruct (Js.get (components registry) id) as [comp| |];
      [rename G into E|destruct G as [E Hp]|destruct G as [E Hp]].
    + destruct (IH (add_category (Some (category comp)) acc)) as [Hn Hc];
        [by apply NoDup_add_category|].
      split; [done|]. intros c. rewrite Hc, elem_of_add_category. split.
      * intros [[->|?]|(i & ? & ?)]; [right|by left|right].
        -- exists id. split; [left|]. left. by exists comp.
        -- exists i. split; [by right|done].
      * intros [?|(i & [->|?]%elem_of_cons & Hi)]; [by left; right| |].
        -- destruct Hi as [(comp' & Hi & ->)|(Hi & _)]; [|by rewrite E in Hi].
           rewrite E in Hi. injection Hi as <-. left. by left.
        -- right. by exists i.
    + destruct (IH (add_category None acc)) as [Hn Hc]; [by apply NoDup_add_category|].
      split; [done|]. intros c. rewrite Hc, elem_of_add_category. split.
      * intros [[->|?]|(i & ? & ?)]; [right|by left|right].
        -- exists id. split; [left|]. by right.
        -- exists i. split; [by right|done].
      * intros [?|(i & [->|?]%elem_of_cons & Hi)]; [by left; right| |].
        -- destruct Hi as [(comp' & Hi & _)|(_ & _ & ->)]; [by rewrite E in Hi|].
           left. by left.
        -- right. by exists i.
    + destruct (IH acc Hacc) as [Hn Hc]. split; [done|]. intros c. rewrite Hc. split.
      * intros [?|(i & ? & ?)]; [by left|right]. exists i. split; [by right|done].
      * intros [?|(i & [->|?]%elem_of_cons & Hi)]; [by left| |].
        -- destruct Hi as [(comp' & Hi & _)|(_ & Hi & _)]; [by rewrite E in Hi|done].
        -- right. by exists i.
Qed.

End RegistryToolsFacts.

(** X5. Validation agrees with resolution. On a registry without a
    dependency cycle that names no inherited property, for plain
    identifiers, the identifiers that [validateComponents] reports as
    invalid are exactly the requested identifiers that an individual
    selection of the same list leaves unresolved, and the list is valid
    exactly when every requested identifier is resolved. *)
Theorem validation_agrees_with_resolution registry componentIds cats :
  Registry.acyclic registry ->
  Registry.names_plain registry ->
  (forall id, id ∈ componentIds -> Registry.plain (Registry.components registry) id) ->
  exists fuel0, forall fuel, (fuel0 <= fuel)%nat ->
    exists r,
      Registry.resolveDependencies fuel
        {| Registry.mode := Registry.mode_individual; Registry.sel_categories := cats;
           Registry.sel_components := Some componentIds |} registry = Some r /\
      (forall id, id ∈ RegistryTools.invalid
                         (RegistryTools.validateComponents componentIds registry) <->
                  id ∈ componentIds /\ id ∉ Registry.res_components r) /\
      (RegistryTools.valid (RegistryTools.validateComponents componentIds registry) = true <->
       forall id, id ∈ componentIds -> id ∈ Registry.res_components r).
Proof.
  intros [rank Hrank] Hplain Hids. exists (ResolverFacts.enough registry rank).
  intros fuel Hfuel.
  destruct (ResolverFacts.resolveRun_ok registry rank Hrank Hplain
              {| Registry.mode := Registry.mode_individual; Registry.sel_categories := cats;
                 Registry.sel_components := Some componentIds |} fuel Hfuel Hids)
    as (st & r & E & Hc & _ & Hin & Hr & _).
  exists r. split; [unfold Registry.resolveDependencies; by rewrite E|].
  rewrite Hr. unfold Registry.requestedComponents in Hin. simpl in Hin.
  assert (forall id, id ∈ componentIds ->
            (id ∈ Registry.resolved st <-> is_Some (Registry.components registry !! id)))
    as Hiff.
  { intros id Hid. split; [|by apply Hin].
    intros Hx. destruct (ResolverFacts.closed_resolved _ _ Hc id Hx) as (c & -> & _).
    by eexists. }
  assert (forall id, id ∈ componentIds ->
            (RegistryTools.missing (Registry.components registry) id <->
             Registry.components registry !! id = None)) as Hmiss.
  { intros id Hid. unfold RegistryTools.missing. split.
    - unfold Js.get. by destruct (Registry.components registry !! id).
    - intros Hnone. apply ResolverFacts.get_plain; [done|by apply Hids]. }
  split.
  - intros id. simpl. rewrite list_elem_of_filter. split.
    + intros [Hnone Hid]. split; [done|]. apply (Hmiss id Hid) in Hnone.
      rewrite (Hiff id Hid), Hnone. by intros [? ?].
    + intros [Hid Hnot]. split; [|done]. rewrite (Hiff id Hid) in Hnot.
      apply (Hmiss id Hid). by apply eq_None_not_Some.
  - simpl. rewrite bool_decide_eq_true, RegistryToolsFacts.filter_nil_iff. split.
    + intros H id Hid. apply (Hiff id Hid). specialize (H id Hid).
      rewrite (Hmiss id Hid) in H. by apply not_eq_None_Some.
    + intros H id Hid Hnone. apply (Hmiss id Hid) in Hnone.
      pose proof (proj1 (Hiff id Hid) (H id Hid)) as Hreg.
      rewrite Hnone in Hreg. by destruct Hreg.
Qed.

(** X5, on the sample registry: of [card] and [ghost] the second is invalid. *)
Lemma validation_agrees_with_resolution_witness :
  exists fuel0, forall fuel, (fuel0 <= fuel)%nat ->
    exists r,
      Registry.resolveDependencies fuel
        {| Registry.mode := Registry.mode_individual; Registry.sel_categories := None;
           Registry.sel_components := Some ["card"; "ghost"] |} Samples.diamond = Some r /\
      ("ghost" ∉ Registry.res_components r) /\
      RegistryTools.valid (RegistryTools.validateComponents ["card"; "ghost"] Samples.diamond)
        = false.
Proof.
  destruct (validation_agrees_with_resolution Samples.diamond ["card"; "ghost"] None)
    as [fuel0 H].
  { exists Samples.diamond_rank. exact ResolverFacts.ranked_diamond. }
  { exact ResolverFacts.plain_diamond. }
  { intros id Hid.
    repeat (apply elem_of_cons in Hid as [->|Hid]; [by vm_compute|]).
    by apply elem_of_nil in Hid. }
  exists fuel0. intros fuel Hfuel. destruct (H fuel Hfuel) as (r & E & Hinv & _).
  exists r. split; [exact E|]. split; [|vm_compute; reflexivity].
  apply (Hinv "ghost"). vm_compute. left.
Defined.

(** An inherited name is reported valid, whatever the registry holds. *)
Example inherited_names_pass_validation :
  RegistryTools.validateComponents ["toString"; "constructor"; "__proto__"; "button"]
    Samples.diamond =
  {| RegistryTools.valid := true; RegistryTools.invalid := [] |}.
Proof. vm_compute. reflexivity. Qed.

(** X6. [getSelectionStats] counts the resolved components and files as
    they are listed. Its categories are, each once, the categories of the
    listed components that are registered, and [undefined] when a listed
    identifier is an inherited name that is not registered. For the full
    selection of a registry without a dependency cycle that names no
    inherited property the count is the number of registered components,
    and no category is [undefined]. *)
Theorem selection_stats registry :
  (forall resolved,
     let stats := RegistryTools.getSelectionStats resolved registry in
     RegistryTools.componentCount stats = length (Registry.res_components resolved) /\
     RegistryTools.fileCount stats = length (Registry.res_files resolved) /\
     NoDup (RegistryTools.stat_categories stats) /\
     (forall c, Some c ∈ RegistryTools.stat_categories stats <->
        exists id comp, id ∈ Registry.res_components resolved /\
          Registry.components registry !! id = Some comp /\ Registry.category comp = c) /\
     (None ∈ RegistryTools.stat_categories stats <->
        exists id, id ∈ Registry.res_components resolved /\
          Registry.components registry !! id = None /\ id ∈ Js.Object_prototype)) /\
  (Registry.acyclic registry ->
   Registry.names_plain registry ->
   exists fuel0, forall fuel cats ids, (fuel0 <= fuel)%nat ->
     exists r,
       Registry.resolveDependencies fuel
         {| Registry.mode := Registry.mode_all; Registry.sel_categories := cats;
            Registry.sel_components := ids |} registry = Some r /\
       RegistryTools.componentCount (RegistryTools.getSelectionStats r registry) =
         size (Registry.components registry) /\
       None ∉ RegistryTools.stat_categories (RegistryTools.getSelectionStats r registry)).
Proof.
  assert (forall resolved c,
            c ∈ RegistryTools.stat_categories
                  (RegistryTools.getSelectionStats resolved registry) <->
            exists id, id ∈ Registry.res_components resolved /\
                       RegistryToolsFacts.adds registry id c) as Hcats.
  { intros resolved c.
    destruct (RegistryToolsFacts.stats_categories registry
                (Registry.res_components resolved) [] (NoDup_nil_2)) as [_ Hc].
    simpl. rewrite Hc. split; [|by right].
    intros [H|H]; [by apply elem_of_nil in H|done]. }
  split.
  - intros resolved. split; [done|]. split; [done|]. split; [|split].
    + by destruct (RegistryToolsFacts.stats_categories registry
                     (Registry.res_components resolved) [] (NoDup_nil_2)).
    + intros c. rewrite Hcats. split.
      * intros (id & Hid & [(comp & Hc & [= ->])|(_ & _ & [=])]). by exists id, comp.
      * intros (id & comp & Hid & Hc & <-). exists id. split; [done|]. left. by exists comp.
    + rewrite Hcats. split.
      * intros (id & Hid & [(comp & _ & [=])|(Hc & Hp & _)]). by exists id.
      * intros (id & Hid & Hc & Hp). exists id. split; [done|]. by right.
  - intros [rank Hrank] Hplain. exists (ResolverFacts.enough registry rank).
    intros fuel cats ids Hfuel.
    destruct (ResolverFacts.resolveRun_ok registry rank Hrank Hplain
                {| Registry.mode := Registry.mode_all; Registry.sel_categories := cats;
                   Registry.sel_components := ids |} fuel Hfuel)
      as (st & r & E & Hc & _ & Hin & Hr & _).
    { intros id [c Hid]%ResolverFacts.elem_of_keys. unfold Registry.plain.
      by rewrite (ResolverFacts.get_Own _ _ _ Hid). }
    exists r. split; [unfold Registry.resolveDependencies; by rewrite E|]. split.
    + simpl. rewrite Hr.
      assert (Registry.resolved st ≡ₚ Registry.keys (Registry.components registry)) as Hp.
      { apply NoDup_Permutation.
        - apply (ResolverFacts.closed_nodup _ _ Hc).
        - apply ResolverFacts.NoDup_keys.
        - intros x. rewrite ResolverFacts.elem_of_keys. split.
          + intros Hx. destruct (ResolverFacts.closed_resolved _ _ Hc x Hx) as (c & -> & _).
            by eexists.
          + intros Hx. apply Hin; [|done]. simpl. by apply ResolverFacts.elem_of_keys. }
      rewrite Hp. unfold Registry.keys. by rewrite length_fmap, length_map_to_list.
    + rewrite Hcats. intros (id & Hid & [(comp & _ & [=])|(Hnone & _)]).
      rewrite Hr in Hid.
      destruct (ResolverFacts.closed_resolved _ _ Hc id Hid) as (c & Hsome & _).
      by rewrite Hnone in Hsome.
Qed.

(** X6, on the sample registry. *)
Lemma selection_stats_witness :
  exists fuel0, forall fuel cats ids, (fuel0 <= fuel)%nat ->
    exists r,
      Registry.resolveDependencies fuel
        {| Registry.mode := Registry.mode_all; Registry.sel_categories := cats;
           Registry.sel_components := ids |} Samples.diamond = Some r /\
      RegistryTools.componentCount (RegistryTools.getSelectionStats r Samples.diamond) =
        size (Registry.components Samples.diamond) /\
      None ∉ RegistryTools.stat_categories (RegistryTools.getSelectionStats r Samples.diamond).
Proof.
  destruct (selection_stats Samples.diamond) as [_ H]. apply H.
  - exists Samples.diamond_rank. exact ResolverFacts.ranked_diamond.
  - exact ResolverFacts.plain_diamond.
Defined.

(** X7. [getComponentsByCategory] lists, each once, the registered
    components of the category. A categories selection requests the
    components that it lists for the selected categories, and for a single
    category the very list. *)
Theorem components_by_category registry :
  (forall categoryId,
     NoDup (RegistryTools.getComponentsByCategory categoryId registry) /\
     forall id, id ∈ RegistryTools.getComponentsByCategory categoryId registry <->
       exists c, Registry.components registry !! id = Some c /\
                 Registry.category c = categoryId) /\
  (forall cats ids id,
     id ∈ Registry.requestedComponents
            {| Registry.mode := Registry.mode_categories;
               Registry.sel_categories := Some cats; Registry.sel_components := ids |}
            registry <->
     exists categoryId, categoryId ∈ cats /\
       id ∈ RegistryTools.getComponentsByCategory categoryId registry) /\
  (forall categoryId ids,
     Registry.requestedComponents
       {| Registry.mode := Registry.mode_categories;
          Registry.sel_categories := Some [categoryId]; Registry.sel_components := ids |}
       registry =
     RegistryTools.getComponentsByCategory categoryId registry).
Proof.
  split; [|split].
  - intros categoryId. split; [|apply RegistryToolsFacts.elem_of_byCategory].
    unfold RegistryTools.getComponentsByCategory.
    apply (sublist_NoDup _ (map_to_list (Registry.components registry)).*1);
      [apply NoDup_fst_map_to_list|].
    apply fmap_sublist, sublist_filter.
  - intros cats ids id. simpl. unfold Registry.requestedComponents. simpl.
    rewrite list_elem_of_fmap. split.
    + intros ([i c] & -> & [Hc Hin]%list_elem_of_filter). simpl in *.
      exists (Registry.category c). split; [done|].
      apply RegistryToolsFacts.elem_of_byCategory. exists c.
      by apply elem_of_map_to_list in Hin.
    + intros (cat & Hcat & (c & Hc & <-)%RegistryToolsFacts.elem_of_byCategory).
      exists (id, c). split; [done|]. apply list_elem_of_filter. split; [done|].
      by apply elem_of_map_to_list.
  - intros categoryId ids. unfold Registry.requestedComponents,
      RegistryTools.getComponentsByCategory. simpl. f_equal.
    apply list_filter_iff. intros [i c]. simpl. by rewrite list_elem_of_singleton.
Qed.

(** X8. The registry is fetched once: a call that returns leaves the
    registry in the cache, and every later call returns it from there
    whatever the network answers; a call that throws leaves the cache
    empty, so the next call asks the network again, as it does after
    [clearRegistryCache]. *)
Theorem registry_cached_once cache net :
  (forall registry cache',
     Registry.fetchRegistry cache net = (Ok registry, cache') ->
     cache' = Some registry /\
     forall net', Registry.fetchRegistry cache' net' = (Ok registry, cache')) /\
  (forall e cache',
     Registry.fetchRegistry cache net = (Err e, cache') ->
     cache = None /\ cache' = None /\
     forall registry,
       Registry.fetchRegistry cache' (Registry.Json registry) = (Ok registry, Some registry)) /\
  (forall net',
     Registry.fetchRegistry (RegistryTools.clearRegistryCache cache) net' =
     Registry.fetchRegistry None net').
Proof.
  split; [|split].
  - intros registry cache' H. destruct cache as [r|]; simpl in H.
    + by injection H as <- <-.
    + destruct net; simpl in H; try done. by injection H as <- <-.
  - intros e cache' H. destruct cache as [r|]; simpl in H; [done|].
    destruct net; simpl in H; try done; by injection H as <- <-.
  - done.
Qed.

(** X8, for a network that fails first. *)
Lemma registry_cached_once_witness :
  @None Registry.ComponentRegistry = None /\ @None Registry.ComponentRegistry = None /\
  forall registry,
    Registry.fetchRegistry None (Registry.Json registry) = (Ok registry, Some registry).
Proof.
  destruct (registry_cached_once None (Registry.FetchRejected "offline")) as (_ & H & _).
  apply (H (Registry.registry_unavailable "offline") None). reflexivity.
Defined.


(** ** Trees by what their paths name *)
Module TreeMore.
Import Fs FsFacts Scaffold TreeFacts SelectionFacts GrowFacts.

(** Two trees whose paths name the same things are the same tree. *)
Lemma node_ext t1 : forall t2, (forall q, kind_at q t1 = kind_at q t2) -> t1 = t2.
Proof.
  induction t1 as [c|m IH] using node_ind'; intros t2 H.
  - specialize (H []). rewrite !kind_at_nil in H. destruct t2; simpl in H; congruence.
  - pose proof (H []) as H0. rewrite !kind_at_nil in H0.
    destruct t2 as [c|m2]; simpl in H0; [congruence|]. f_equal. apply map_eq. intros k.
    destruct (m !! k) as [c1|] eqn:E1, (m2 !! k) as [c2|] eqn:E2.
    + f_equal. apply (IH k c1 E1). intros q. specialize (H (k :: q)).
      rewrite !kind_at_cons, E1, E2 in H. exact H.
    + specialize (H [k]). rewrite !kind_at_cons, E1, E2 in H. simpl in H.
      rewrite kind_at_nil in H. done.
    + specialize (H [k]). rewrite !kind_at_cons, E1, E2 in H. simpl in H.
      rewrite kind_at_nil in H. done.
    + done.
Qed.

End TreeMore.

(** X9. [removeItems] never throws and removes what stands at or below an
    item, nothing else; removing the same items again, or the items in
    another order, gives the same tree. *)
Theorem removeItems_exact items t :
  (forall d, d ∈ items -> d <> []) ->
  (forall q,
     Fs.kind_at q (Scaffold.removeItems items t) =
     if decide (Exists (fun d => d `prefix_of` q) items) then None else Fs.kind_at q t) /\
  Scaffold.removeItems items (Scaffold.removeItems items t) = Scaffold.removeItems items t /\
  (forall items', items' ≡ₚ items ->
     Scaffold.removeItems items' t = Scaffold.removeItems items t).
Proof.
  intros Hne.
  pose proof (fun t q => SelectionFacts.kind_at_removeItems items t q Hne) as Hk.
  split; [apply Hk|]. split.
  - apply TreeMore.node_ext. intros q. rewrite !Hk. by case_decide.
  - intros items' Hp. apply TreeMore.node_ext. intros q.
    rewrite Hk, SelectionFacts.kind_at_removeItems.
    + apply decide_ext. by rewrite Hp.
    + intros d Hd. apply Hne. by rewrite <- Hp.
Qed.

(** X9, for the lock files and the repository data of the download. *)
Lemma removeItems_exact_witness :
  (forall q,
     Fs.kind_at q (Scaffold.removeItems Scaffold.CLEANUP_ITEMS Samples.template) =
     if decide (Exists (fun d => d `prefix_of` q) Scaffold.CLEANUP_ITEMS) then None
     else Fs.kind_at q Samples.template) /\
  Scaffold.removeItems Scaffold.CLEANUP_ITEMS
    (Scaffold.removeItems Scaffold.CLEANUP_ITEMS Samples.template) =
  Scaffold.removeItems Scaffold.CLEANUP_ITEMS Samples.template /\
  (forall items', items' ≡ₚ Scaffold.CLEANUP_ITEMS ->
     Scaffold.removeItems items' Samples.template =
     Scaffold.removeItems Scaffold.CLEANUP_ITEMS Samples.template).
Proof.
  apply (removeItems_exact Scaffold.CLEANUP_ITEMS Samples.template).
  intros d Hd ->. revert Hd.
  apply (bool_decide_eq_false_1 ([] ∈ Scaffold.CLEANUP_ITEMS)). vm_compute. reflexivity.
Defined.


(** ** What a copy of a template leaves *)
Module CopyFacts.
Import Fs FsFacts Scaffold TreeFacts SelectionFacts GrowFacts.

(** A directory that is there stays what it is; one that is missing is made. *)
Definition ensured (k : option kind) : option kind :=
  match k with Some k => Some k | None => Some IsDir end.

(** The paths where the copy wants a directory: [dest] with the directories
    above it, and the directories of [src] below [dest]. *)
Definition dirs_of (src : node) (dest : path) (q : path) : Prop :=
  q `prefix_of` dest \/ exists r, q = dest ++ r /\ kind_at r src = Some IsDir.

Lemma prefix_snoc (q dest : path) k :
  q `prefix_of` dest ++ [k] <-> q `prefix_of` dest \/ q = dest ++ [k].
Proof.
  split.
  - intros [z Hz]. destruct z as [|y z _] using rev_ind.
    + right. by rewrite app_nil_r in Hz.
    + left. rewrite app_assoc in Hz. apply app_inj_tail in Hz as [-> _]. by exists z.
  - intros [Hq| ->]; [by apply prefix_app_r|done].
Qed.

Lemma kind_at_prefix_dir q p t :
  q `prefix_of` p -> is_Some (kind_at p t) -> is_Some (kind_at q t).
Proof.
  intros [z ->] H. destruct z as [|y z]; [by rewrite app_nil_r in H|].
  rewrite (kind_at_above q (y :: z) t); [by eexists|done..].
Qed.

Lemma ensureDir_kind p t t0 :
  ensureDir p t = Ok t0 ->
  is_Some (kind_at p t0) /\
  forall q, kind_at q t0 = if decide (q `prefix_of` p) then ensured (kind_at q t)
                           else kind_at q t.
Proof.
  unfold ensureDir. destruct (existsSync p t) eqn:E; cbn [negb].
  - intros [= <-]. apply existsSync_true in E. split; [done|]. intros q.
    case_decide as Hq; [|done].
    by destruct (kind_at_prefix_dir q p t Hq E) as [k ->].
  - intros H. split.
    + rewrite (kind_at_mkdir _ _ _ _ H), decide_True by done. by eexists.
    + intros q. rewrite (kind_at_mkdir _ _ _ _ H). case_decide as Hq; [|done].
      destruct (kind_at q t) as [[c|]|] eqn:Ek; [|done..].
      apply mkdirSync_possible in H. by eapply dir_possible_kind in H.
Qed.

(** What a successful copy leaves. *)
Record overlaid (src : node) (dest : path) (t t' : node) : Prop := {
  overlaid_files : forall r c, file_at r src = Some c -> file_at (dest ++ r) t' = Some c;
  overlaid_dirs : forall q, dirs_of src dest q -> kind_at q t' = ensured (kind_at q t);
  overlaid_frame : forall q, ~ copied src dest q -> kind_at q t' = kind_at q t
}.

(** The same for the entries of a directory, once [dest] is there. *)
Record entries_overlaid (m : gmap string node) (dest : path) (t0 t' : node) : Prop := {
  entries_files : forall k e r c,
    m !! k = Some e -> file_at r e = Some c -> file_at (dest ++ k :: r) t' = Some c;
  entries_dirs : forall k e r,
    m !! k = Some e -> kind_at r e = Some IsDir ->
    kind_at (dest ++ k :: r) t' = ensured (kind_at (dest ++ k :: r) t0);
  entries_frame : forall q,
    (forall k e r, m !! k = Some e -> q = dest ++ k :: r -> kind_at r e = None) ->
    kind_at q t' = kind_at q t0
}.

Lemma cons_app_assoc (dest : path) k r : dest ++ k :: r = (dest ++ [k]) ++ r.
Proof. by rewrite <- app_assoc. Qed.

Lemma not_copied_sibling e (dest : path) k k' r :
  k' <> k -> ~ copied e (dest ++ [k]) (dest ++ k' :: r).
Proof.
  intros Hk [Hp|(r' & Hr & _)].
  - apply prefix_snoc in Hp as [[z Hz]|Hp].
    + rewrite <- app_assoc in Hz. apply (f_equal length) in Hz.
      rewrite !length_app in Hz. simpl in Hz. lia.
    + apply app_inv_head in Hp. congruence.
  - rewrite <- app_assoc in Hr. apply app_inv_head in Hr. simpl in Hr. congruence.
Qed.

Lemma copy_entries_overlaid dest m :
  (forall k e, m !! k = Some e ->
     forall dest t t', copyTemplateFiles e dest t = Ok t' -> overlaid e dest t t') ->
  forall t0 t', is_Some (kind_at dest t0) ->
    map_fold (copyEntry dest) (Ok t0) m = Ok t' -> entries_overlaid m dest t0 t'.
Proof.
  induction m as [|k e m Hk Hfirst IH] using map_first_key_ind; intros Hm t0 t' Hdest.
  { rewrite map_fold_empty. intros [= <-]. by split. }
  rewrite map_fold_insert_first_key by done. unfold copyEntry at 1.
  intros (t1 & H1 & He)%bind_Ok.
  destruct (IH (fun k' e' H' => Hm k' e' ltac:(by rewrite lookup_insert_ne
                                                   by (intros <-; by rewrite Hk in H')))
               t0 t1 Hdest H1) as [F1 D1 R1].
  (* what the entry [k] does to the paths of the other entries and of the frame *)
  assert (forall q, (forall r, q = dest ++ k :: r -> kind_at r e = None) ->
                    ~ q `prefix_of` dest -> kind_at q t' = kind_at q t1) as Hother.
  { intros q Hq Hnp. destruct e as [c|me].
    - rewrite (kind_at_write _ _ _ _ q He), decide_False; [done|].
      intros ->. specialize (Hq [] eq_refl). by rewrite kind_at_nil in Hq.
    - apply (overlaid_frame _ _ _ _ (Hm k (Dir me) ltac:(by rewrite lookup_insert_eq) _ _ _ He)).
      intros [Hp|(r & -> & Hr)].
      + apply prefix_snoc in Hp as [Hp| ->]; [done|].
        specialize (Hq [] eq_refl). by rewrite kind_at_nil in Hq.
      + rewrite <- cons_app_assoc in Hq. rewrite (Hq r eq_refl) in Hr. by destruct Hr. }
  assert (forall q, q `prefix_of` dest -> kind_at q t' = kind_at q t1) as Habove.
  { intros q Hq. destruct e as [c|me].
    - rewrite (kind_at_write _ _ _ _ q He), decide_False; [done|].
      intros ->. destruct Hq as [z Hz]. apply (f_equal length) in Hz.
      rewrite !length_app in Hz. simpl in Hz. lia.
    - rewrite (overlaid_dirs _ _ _ _ (Hm k (Dir me) ltac:(by rewrite lookup_insert_eq) _ _ _ He)).
      + assert (is_Some (kind_at q t1)) as [kq ->]; [|done].
        rewrite R1.
        * by eapply kind_at_prefix_dir.
        * intros k' e' r _ ->. destruct Hq as [z Hz]. apply (f_equal length) in Hz.
          rewrite !length_app in Hz. simpl in Hz. lia.
      + left. apply prefix_snoc. by left. }
  assert (forall r, kind_at (dest ++ k :: r) t1 = kind_at (dest ++ k :: r) t0) as Hk1.
  { intros r. apply R1. intros k' e' r' Hk' Heq. apply app_inv_head in Heq.
    injection Heq as <- <-. by rewrite Hk in Hk'. }
  split.
  - intros k' e' r c Hk' Hr. rewrite lookup_insert in Hk'. case_decide; simplify_eq.
    + destruct e' as [c'|me].
      * destruct r as [|x r]; [|done]. simpl in Hr. injection Hr as ->.
        apply file_at_kind. by rewrite (kind_at_write _ _ _ _ _ He), decide_True.
      * rewrite cons_app_assoc.
        by apply (overlaid_files _ _ _ _ (Hm k' (Dir me) ltac:(by rewrite lookup_insert_eq) _ _ _ He)).
    + apply file_at_kind. rewrite Hother.
      * apply file_at_kind. by eapply F1.
      * intros r' Heq. apply app_inv_head in Heq. congruence.
      * intros [z Hz]. apply (f_equal length) in Hz. rewrite !length_app in Hz.
        simpl in Hz. lia.
  - intros k' e' r Hk' Hr. rewrite lookup_insert in Hk'. case_decide; simplify_eq.
    + destruct e' as [c'|me].
      * destruct r as [|x r]; [by rewrite kind_at_nil in Hr|].
        by rewrite kind_at_cons in Hr.
      * rewrite <- Hk1, cons_app_assoc.
        apply (overlaid_dirs _ _ _ _ (Hm k' (Dir me) ltac:(by rewrite lookup_insert_eq) _ _ _ He)).
        right. by exists r.
    + rewrite Hother.
      * by eapply D1.
      * intros r' Heq. apply app_inv_head in Heq. congruence.
      * intros [z Hz]. apply (f_equal length) in Hz. rewrite !length_app in Hz.
        simpl in Hz. lia.
  - intros q Hq.
    assert (kind_at q t1 = kind_at q t0) as <-.
    { apply R1. intros k' e' r Hk' Heq. apply (Hq k' e' r); [|done].
      rewrite lookup_insert_ne; [done|]. intros <-. by rewrite Hk in Hk'. }
    destruct (decide (q `prefix_of` dest)) as [Hp|Hp]; [by apply Habove|].
    apply Hother; [|done]. intros r Heq. apply (Hq k e r); [|done].
    by rewrite lookup_insert_eq.
Qed.

Lemma copyTemplateFiles_overlaid src :
  forall dest t t', copyTemplateFiles src dest t = Ok t' -> overlaid src dest t t'.
Proof.
  induction src as [c|m IH] using node_ind'; intros dest t t'; [done|].
  rewrite copyTemplateFiles_Dir. intros (t0 & H0 & H)%bind_Ok.
  apply ensureDir_kind in H0 as [Hdest H0].
  destruct (copy_entries_overlaid dest m IH t0 t' Hdest H) as [F D R]. split.
  - intros [|k r] c Hr; [done|]. unfold file_at in Hr. simpl in Hr.
    destruct (m !! k) as [e|] eqn:Ek; [|done]. by apply (F k e r c Ek).
  - intros q [Hq|(r & -> & Hr)].
    + rewrite R, H0, decide_True; [done..|].
      intros k e r _ ->. destruct Hq as [z Hz]. apply (f_equal length) in Hz.
      rewrite !length_app in Hz. simpl in Hz. lia.
    + destruct r as [|k r].
      * rewrite app_nil_r, R, H0, decide_True; [done..|].
        intros k e r _ Heq. apply (f_equal length) in Heq.
        rewrite !length_app in Heq. simpl in Heq. lia.
      * rewrite kind_at_cons in Hr. destruct (m !! k) as [e|] eqn:Ek; [|done].
        rewrite (D k e r Ek Hr), H0, decide_False; [done|].
        intros [z Hz]. apply (f_equal length) in Hz. rewrite !length_app in Hz.
        simpl in Hz. lia.
  - intros q Hq. rewrite R, H0, decide_False; [done| |].
    + intros Hp. apply Hq. by left.
    + intros k e r Ek ->. destruct (kind_at r e) as [knd|] eqn:Er; [|done].
      destruct Hq. right. exists (k :: r). split; [done|].
      rewrite kind_at_cons, Ek. simpl. rewrite Er. by eexists.
Qed.

(** The tree after a copy, as it was when the copy throws. *)
Definition copied_tree (src : node) (dest : path) (t : node) : node :=
  match copyTemplateFiles src dest t with Ok t' => t' | Err _ => t end.

End CopyFacts.

(** X10. A copy of a template that returns overlays the tree: every file
    of the template is at its place below [dest] with the content of the
    template, whatever was there; where the copy wants a directory, what is
    there stays and what is missing is made; every other path is as it
    was. *)
Theorem copyTemplateFiles_overlays src dest t t' :
  Scaffold.copyTemplateFiles src dest t = Ok t' ->
  (forall r c, Fs.file_at r src = Some c -> Fs.file_at (dest ++ r) t' = Some c) /\
  (forall q,
     q `prefix_of` dest \/ (exists r, q = dest ++ r /\ Fs.kind_at r src = Some Fs.IsDir) ->
     Fs.kind_at q t' =
     match Fs.kind_at q t with Some k => Some k | None => Some Fs.IsDir end) /\
  (forall q,
     ~ q `prefix_of` dest -> (forall r, q = dest ++ r -> Fs.kind_at r src = None) ->
     Fs.kind_at q t' = Fs.kind_at q t).
Proof.
  intros [F D R]%CopyFacts.copyTemplateFiles_overlaid. split; [exact F|]. split; [exact D|].
  intros q Hp Hq. apply R. intros [?|(r & -> & Hr)]; [done|].
  rewrite (Hq r eq_refl) in Hr. by destruct Hr.
Qed.

(** X10, for the i18n overlay on the sample template. *)
Lemma copyTemplateFiles_overlays_witness :
  (forall r c, Fs.file_at r Samples.i18n_overlay = Some c ->
     Fs.file_at ([] ++ r)
       (CopyFacts.copied_tree Samples.i18n_overlay [] Samples.template) = Some c) /\
  (forall q,
     q `prefix_of` [] \/
     (exists r, q = [] ++ r /\ Fs.kind_at r Samples.i18n_overlay = Some Fs.IsDir) ->
     Fs.kind_at q (CopyFacts.copied_tree Samples.i18n_overlay [] Samples.template) =
     match Fs.kind_at q Samples.template with Some k => Some k | None => Some Fs.IsDir end) /\
  (forall q,
     ~ q `prefix_of` [] ->
     (forall r, q = [] ++ r -> Fs.kind_at r Samples.i18n_overlay = None) ->
     Fs.kind_at q (CopyFacts.copied_tree Samples.i18n_overlay [] Samples.template) =
     Fs.kind_at q Samples.template).
Proof.
  apply (copyTemplateFiles_overlays Samples.i18n_overlay [] Samples.template).
  vm_compute. reflexivity.
Defined.


(** ** The directories that the filter leaves *)
Module KeepFacts.
Import Fs FsFacts Scaffold TreeFacts SelectionFacts.

(** A directory that [prune] leaves was a directory and has a file below it. *)
Lemma prune_dirs n :
  match prune n with
  | Some n' =>
      forall q, kind_at q n' = Some IsDir ->
        kind_at q n = Some IsDir /\ exists r c, file_at (q ++ r) n' = Some c
  | None => True
  end.
Proof.
  induction n as [c|m IH] using node_ind'.
  { simpl. intros [|k q] H; [by rewrite kind_at_nil in H|by rewrite kind_at_cons in H]. }
  simpl. case_decide as Hsize; [done|]. intros [|k q] Hq.
  - split; [done|].
    apply map_size_ne_0_lookup in Hsize as (k & child' & Hk).
    rewrite lookup_omap in Hk. destruct (m !! k) as [child|] eqn:Ek; [|done]. simpl in Hk.
    specialize (IH k child Ek). rewrite Hk in IH. destruct child' as [c|m'].
    + exists [k], c. unfold file_at. simpl. by rewrite lookup_omap, Ek; simpl; rewrite Hk.
    + destruct (IH [] (kind_at_nil _)) as (_ & r & c & Hr).
      exists (k :: r), c. unfold file_at in *. simpl in *.
      by rewrite lookup_omap, Ek; simpl; rewrite Hk.
  - rewrite kind_at_cons, lookup_omap in Hq.
    destruct (m !! k) as [child|] eqn:Ek; [|done]. simpl in Hq.
    specialize (IH k child Ek). destruct (prune child) as [child'|] eqn:Ep; [|done].
    simpl in Hq. destruct (IH q Hq) as (Hkind & r & c & Hr). split.
    + by rewrite kind_at_cons, Ek.
    + exists r, c. unfold file_at in *. simpl.
      by rewrite lookup_omap, Ek; simpl; rewrite Ep.
Qed.

Lemma removeEmptyDirs_dirs d t m t' :
  d <> [] -> lookup d t = Some (Dir m) -> removeEmptyDirs d t = Ok t' ->
  forall q, d `prefix_of` q -> kind_at q t' = Some IsDir ->
    kind_at q t = Some IsDir /\ exists r c, file_at (q ++ r) t' = Some c.
Proof.
  intros Hd Hm. unfold removeEmptyDirs. rewrite Hm.
  pose proof (prune_dirs (Dir m)) as Hp.
  destruct (prune (Dir m)) as [n'|] eqn:E; intros [= <-] q [z ->].
  - assert (kind_of n' = kind_of (Dir m)) as Hk.
    { simpl in E. case_decide; by simplify_eq. }
    rewrite (kind_at_replace _ _ _ _ _ Hm Hk), decide_True by (by exists z).
    rewrite drop_app_length. intros Hz. destruct (Hp z Hz) as (Hkind & r & c & Hr).
    split; [by rewrite kind_at_app, Hm|]. exists r, c.
    rewrite file_at_of_kind, <- app_assoc, (kind_at_replace _ _ _ _ _ Hm Hk).
    rewrite decide_True by (by exists (z ++ r)). rewrite drop_app_length.
    by rewrite <- file_at_of_kind.
  - rewrite kind_at_rm, decide_True by (done || by exists z). done.
Qed.

Lemma keepOnlyIn_dirs keep t d t' :
  d <> [] -> keepOnlyIn keep t d = Ok t' ->
  forall q, d `prefix_of` q -> kind_at q t' = Some IsDir ->
    kind_at q t = Some IsDir /\ exists r c, file_at (q ++ r) t' = Some c.
Proof.
  intros Hd. unfold keepOnlyIn. rewrite existsSync_kind.
  destruct (kind_at d t) as [[c|]|] eqn:Hk.
  - rewrite bool_decide_eq_true_2 by done. simpl.
    apply kind_at_file in Hk. unfold walkFilesRelative. by rewrite Hk.
  - rewrite bool_decide_eq_true_2 by done. simpl.
    apply kind_at_dir in Hk as [m Hm]. unfold walkFilesRelative. rewrite Hm. simpl.
    fold (dropFile keep). set (l := map_fold _ _ _).
    assert (forall p, p ∈ l -> p <> []) as Hne.
    { intros p. subst l. change (map_fold _ [] m) with (walk (Dir m) d).
      rewrite elem_of_walk. intros (q & c & -> & _). by destruct d. }
    set (t1 := foldl (dropFile keep) t l).
    assert (forall q, kind_at q t1 = Some IsDir -> kind_at q t = Some IsDir) as Hdirs.
    { intros q. subst t1. rewrite kind_at_dropFiles by done.
      case_decide; [|done]. by destruct (kind_at q t) as [[?|]|]. }
    assert (exists m1, lookup d t1 = Some (Dir m1)) as [m1 Hm1].
    { apply kind_at_dir. subst t1. rewrite kind_at_dropFiles by done.
      rewrite (lookup_kind _ _ _ Hm). by case_decide. }
    intros H q Hq Hkind.
    destruct (removeEmptyDirs_dirs d t1 m1 t' Hd Hm1 H q Hq Hkind) as [H1 Hfile].
    split; [by apply Hdirs|done].
  - rewrite bool_decide_eq_false_2 by (by intros [? ?]). simpl.
    intros [= <-] q [z ->]. rewrite kind_at_app. unfold kind_at in Hk.
    by destruct (lookup d t).
Qed.

Lemma keepOnly_fold_dirs keep dirs : forall t t',
  NoDup dirs ->
  (forall d, d ∈ dirs -> d <> []) ->
  (forall d d', d ∈ dirs -> d' ∈ dirs -> d `prefix_of` d' -> d = d') ->
  foldM (keepOnlyIn keep) t dirs = Ok t' ->
  forall q, Exists (fun d => d `prefix_of` q) dirs -> kind_at q t' = Some IsDir ->
    kind_at q t = Some IsDir /\ exists r c, file_at (q ++ r) t' = Some c.
Proof.
  induction dirs as [|d dirs IH]; intros t t' Hnd Hne Hdisj.
  { intros _ q H. by apply Exists_nil in H. }
  simpl. intros (t1 & H1 & H)%bind_Ok q Hex Hkind.
  pose proof Hnd as [Hd Hnd']%list.NoDup_cons.
  assert (d <> []) as Hd0 by (apply Hne; left).
  assert (forall c, kind_at d t <> Some (IsFile c)) as Hnf.
  { intros c Hc. by rewrite (keepOnlyIn_file _ _ _ c Hc) in H1. }
  destruct (keepOnlyIn_spec keep t d Hd0 Hnf) as (t1' & E1 & _ & Hk1).
  rewrite H1 in E1. injection E1 as <-.
  destruct (keepOnly_fold keep dirs t1) as [[_ E]|(_ & t'' & E & _ & Hk2)];
    [done|intros; apply Hne; by right|intros ????; apply Hdisj; by right
    |by rewrite H in E|].
  rewrite H in E. injection E as <-.
  apply List.Exists_cons in Hex as [Hq|Hex].
  - assert (forall p, d `prefix_of` p -> Forall (fun d0 => ~ d0 `prefix_of` p) dirs) as Hout.
    { intros p Hp. apply list.Forall_forall. intros d0 Hd0' Hp0.
      destruct (prefix_weak_total d d0 p Hp Hp0) as [Hc|Hc].
      - assert (d = d0) as -> by (apply Hdisj; [left|by right|done]). done.
      - assert (d0 = d) as -> by (apply Hdisj; [by right|left|done]). done. }
    rewrite (Hk2 q (Hout q Hq)) in Hkind.
    destruct (keepOnlyIn_dirs keep t d t1 Hd0 H1 q Hq Hkind) as (Hkt & r & c & Hr).
    split; [done|]. exists r, c. rewrite <- Hr. apply file_at_eq, Hk2, Hout.
    by apply prefix_app_r.
  - destruct (IH t1 t' Hnd' ltac:(intros; apply Hne; by right)
                ltac:(intros ????; apply Hdisj; by right) H q Hex Hkind) as [Hk Hfile].
    split; [|done]. rewrite <- Hk. symmetry. apply Hk1. intros Hq.
    apply list.Exists_exists in Hex as (d0 & Hd0' & Hp0).
    destruct (prefix_weak_total d d0 q Hq Hp0) as [Hc|Hc].
    + assert (d = d0) as -> by (apply Hdisj; [left|by right|done]). done.
    + assert (d0 = d) as -> by (apply Hdisj; [by right|left|done]). done.
Qed.

Lemma componentDirs_apart :
  NoDup componentDirs /\
  (forall d, d ∈ componentDirs -> d <> []) /\
  (forall d d', d ∈ componentDirs -> d' ∈ componentDirs -> d `prefix_of` d' -> d = d').
Proof.
  split; [|split].
  - unfold componentDirs. repeat (apply list.NoDup_cons; split; [set_solver|]). apply NoDup_nil_2.
  - intros d Hd ->. unfold componentDirs in Hd. set_solver.
  - intros d d' Hd Hd' [r Hr]. unfold componentDirs in *.
    repeat (apply elem_of_cons in Hd as [->|Hd]); [..|by apply elem_of_nil in Hd];
      repeat (apply elem_of_cons in Hd' as [->|Hd']); try (by apply elem_of_nil in Hd');
      simplify_eq/=; done.
Qed.

(** What is kept below [q]: a file to keep, at [q] or deeper. *)
Definition kept_below (keep : gset string) (t : node) (q : path) : Prop :=
  exists r c, file_at (q ++ r) t = Some c /\ render (q ++ r) ∈ keep.

Lemma under_optional_app q r : under_optional q -> under_optional (q ++ r).
Proof.
  unfold under_optional. rewrite !list.Exists_exists. intros (d & Hd & Hq).
  exists d. split; [done|]. by apply prefix_app_r.
Qed.

(** The result of [keepOnlyFiles], path by path. *)
Lemma keepOnlyFiles_kinds keep t t' :
  keepOnlyFiles keep t = Ok t' ->
  (forall d c, d ∈ componentDirs -> kind_at d t <> Some (IsFile c)) /\
  (forall q, ~ under_optional q -> kind_at q t' = kind_at q t) /\
  (forall q c, under_optional q ->
     (kind_at q t' = Some (IsFile c) <-> file_at q t = Some c /\ render q ∈ keep)) /\
  (forall q, under_optional q ->
     (kind_at q t' = Some IsDir <-> kind_at q t = Some IsDir /\ kept_below keep t q)).
Proof.
  intros H. destruct (keepOnlyFiles_spec keep t) as [[_ E]|(Hnf & t'' & E & Hf & Hk)];
    [by rewrite H in E|].
  rewrite H in E. injection E as <-.
  split; [done|]. split; [done|]. split.
  - intros q c Hq. rewrite <- file_at_kind, Hf. case_decide as Hd.
    + split; [done|]. intros [_ ?]. tauto.
    + split; [|by intros [? _]]. intros Hc. split; [done|].
      destruct (decide (render q ∈ keep)); [done|]. destruct Hd. done.
  - intros q Hq. split.
    + intros Hkind. destruct componentDirs_apart as (Hnd & Hne & Hdisj).
      destruct (keepOnly_fold_dirs keep componentDirs t t' Hnd Hne Hdisj H q Hq Hkind)
        as (Hkt & r & c & Hr).
      split; [done|]. exists r, c. rewrite Hf in Hr. case_decide as Hd; [done|].
      split; [done|]. destruct (decide (render (q ++ r) ∈ keep)); [done|].
      destruct Hd. split; [by apply under_optional_app|done].
    + intros [Hkt (r & c & Hr & Hkeep)].
      assert (file_at (q ++ r) t' = Some c) as Hr'.
      { rewrite Hf, decide_False; [done|]. tauto. }
      destruct r as [|x r].
      * rewrite app_nil_r in Hr. apply file_at_kind in Hr. congruence.
      * apply (kind_at_above q (x :: r)); [|done]. apply file_at_kind in Hr'.
        rewrite Hr'. by eexists.
Qed.

Lemma kind_eq (k1 k2 : option kind) :
  (forall c, k1 = Some (IsFile c) <-> k2 = Some (IsFile c)) ->
  (k1 = Some IsDir <-> k2 = Some IsDir) -> k1 = k2.
Proof.
  intros Hf Hd. destruct k1 as [[c|]|].
  - symmetry. by apply Hf.
  - symmetry. by apply Hd.
  - destruct k2 as [[c|]|]; [|by apply Hd|done]. by apply Hf.
Qed.

Lemma keepOnlyFiles_twice keepA keepB t t1 :
  keepOnlyFiles keepA t = Ok t1 ->
  exists t2, keepOnlyFiles keepB t1 = Ok t2 /\ keepOnlyFiles (keepA ∩ keepB) t = Ok t2.
Proof.
  intros HA. destruct (keepOnlyFiles_kinds _ _ _ HA) as (Hnf & HoutA & HfA & HdA).
  destruct (keepOnlyFiles_spec keepB t1) as [[(d & c & Hd & Hc) _]|(_ & t2 & HB & _)].
  { assert (under_optional d) as Hu by (apply list.Exists_exists; by exists d).
    apply (HfA d c Hu) in Hc as [Hc%file_at_kind _]. by destruct (Hnf d c). }
  destruct (keepOnlyFiles_spec (keepA ∩ keepB) t) as [[(d & c & Hd & Hc) _]|(_ & t3 & HAB & _)].
  { by destruct (Hnf d c). }
  exists t2. split; [done|]. rewrite HAB. f_equal. symmetry.
  destruct (keepOnlyFiles_kinds _ _ _ HB) as (_ & HoutB & HfB & HdB).
  destruct (keepOnlyFiles_kinds _ _ _ HAB) as (_ & Hout & Hf & Hdir).
  assert (forall q c, under_optional q ->
            (file_at q t1 = Some c <-> file_at q t = Some c /\ render q ∈ keepA)) as Hf1.
  { intros q c Hq. rewrite file_at_kind. by apply HfA. }
  apply TreeMore.node_ext. intros q.
  destruct (decide (under_optional q)) as [Hq|Hq].
  2: { by rewrite HoutB, HoutA, Hout. }
  apply kind_eq.
  - intros c. rewrite (HfB q c Hq), (Hf q c Hq), (Hf1 q c Hq), elem_of_intersection. tauto.
  - rewrite (HdB q Hq), (Hdir q Hq), (HdA q Hq). unfold kept_below. split.
    + intros [[Hk _] (r & c & Hr & HrB)]. split; [done|]. exists r, c.
      apply (Hf1 _ _ (under_optional_app q r Hq)) in Hr as [Hr HrA].
      split; [done|]. by apply elem_of_intersection.
    + intros [Hk (r & c & Hr & [HrA HrB]%elem_of_intersection)].
      split; [split; [done|by exists r, c]|]. exists r, c. split; [|done].
      by apply (Hf1 _ _ (under_optional_app q r Hq)).
Qed.

(** The tree after the filter, as it was when the filter throws. *)
Definition kept (keep : gset string) (t : node) : node :=
  match keepOnlyFiles keep t with Ok t' => t' | Err _ => t end.

End KeepFacts.

(** X11. After [keepOnlyFiles] no empty directory is left at or below an
    optional component directory: a directory is there exactly when it was
    a directory with a file to keep somewhere below it, and such a file is
    still below it. *)
Theorem keepOnlyFiles_prunes_directories keep t t' :
  Scaffold.keepOnlyFiles keep t = Ok t' ->
  forall q, TreeFacts.under_optional q ->
    (Fs.kind_at q t' = Some Fs.IsDir <->
     Fs.kind_at q t = Some Fs.IsDir /\
     exists r c, Fs.file_at (q ++ r) t = Some c /\ Fs.render (q ++ r) ∈ keep) /\
    (Fs.kind_at q t' = Some Fs.IsDir ->
     exists r c, Fs.file_at (q ++ r) t' = Some c /\ Fs.render (q ++ r) ∈ keep).
Proof.
  intros H q Hq.
  destruct (KeepFacts.keepOnlyFiles_kinds _ _ _ H) as (_ & _ & Hf & Hd).
  split; [apply (Hd q Hq)|].
  intros (_ & r & c & Hr & Hkeep)%(Hd q Hq). exists r, c. split; [|done].
  apply FsFacts.file_at_kind, Hf; [by apply KeepFacts.under_optional_app|done].
Qed.

(** X11, on the sample template with only [Button.astro] to keep: the
    directory [src/components/ui/form] goes with its only file. *)
Lemma keepOnlyFiles_prunes_directories_witness :
  (Fs.kind_at ["src"; "components"; "ui"; "form"]
     (Samples.tree_of
        ((fun t => (t, [])) <$>
           Scaffold.keepOnlyFiles {[ "src/components/ui/Button.astro" ]} Samples.template))
   = Some Fs.IsDir <->
   Fs.kind_at ["src"; "components"; "ui"; "form"] Samples.template = Some Fs.IsDir /\
   exists r c,
     Fs.file_at (["src"; "components"; "ui"; "form"] ++ r) Samples.template = Some c /\
     Fs.render (["src"; "components"; "ui"; "form"] ++ r) ∈
       ({[ "src/components/ui/Button.astro" ]} : gset string)) /\
  (Fs.kind_at ["src"; "components"; "ui"; "form"]
     (Samples.tree_of
        ((fun t => (t, [])) <$>
           Scaffold.keepOnlyFiles {[ "src/components/ui/Button.astro" ]} Samples.template))
   = Some Fs.IsDir ->
   exists r c,
     Fs.file_at (["src"; "components"; "ui"; "form"] ++ r)
       (Samples.tree_of
          ((fun t => (t, [])) <$>
             Scaffold.keepOnlyFiles {[ "src/components/ui/Button.astro" ]} Samples.template))
       = Some c /\
     Fs.render (["src"; "components"; "ui"; "form"] ++ r) ∈
       ({[ "src/components/ui/Button.astro" ]} : gset string)).
Proof.
  apply (keepOnlyFiles_prunes_directories {[ "src/components/ui/Button.astro" ]}
           Samples.template).
  - vm_compute. reflexivity.
  - apply (bool_decide_eq_true_1 (TreeFacts.under_optional _)). vm_compute. reflexivity.
Defined.

(** X12. Filtering twice is filtering once with what both sets keep: when
    [keepOnlyFiles] returns for the first set, it returns for the second on
    the result, with the tree that the intersection gives at once. In
    particular the filter is idempotent. *)
Theorem keepOnlyFiles_composes keepA keepB t t1 :
  Scaffold.keepOnlyFiles keepA t = Ok t1 ->
  Scaffold.keepOnlyFiles keepB t1 = Scaffold.keepOnlyFiles (keepA ∩ keepB) t /\
  Scaffold.keepOnlyFiles keepA t1 = Ok t1 /\
  exists t2, Scaffold.keepOnlyFiles keepB t1 = Ok t2.
Proof.
  intros HA. destruct (KeepFacts.keepOnlyFiles_twice keepA keepB t t1 HA) as (t2 & HB & HAB).
  split; [by rewrite HB, HAB|]. split; [|by exists t2].
  destruct (KeepFacts.keepOnlyFiles_twice keepA keepA t t1 HA) as (t3 & HA' & HAA).
  rewrite HA'. assert (keepA ∩ keepA = keepA) as Hid by set_solver.
  rewrite Hid in HAA. congruence.
Qed.

(** X12, on the sample template. *)
Lemma keepOnlyFiles_composes_witness :
  Scaffold.keepOnlyFiles {[ "src/components/hero/Hero.astro" ]}
    (KeepFacts.kept {[ "src/components/ui/Button.astro" ]} Samples.template) =
  Scaffold.keepOnlyFiles
    ({[ "src/components/ui/Button.astro" ]} ∩ {[ "src/components/hero/Hero.astro" ]})
    Samples.template /\
  Scaffold.keepOnlyFiles {[ "src/components/ui/Button.astro" ]}
    (KeepFacts.kept {[ "src/components/ui/Button.astro" ]} Samples.template) =
  Ok (KeepFacts.kept {[ "src/components/ui/Button.astro" ]} Samples.template) /\
  exists t2,
    Scaffold.keepOnlyFiles {[ "src/components/hero/Hero.astro" ]}
      (KeepFacts.kept {[ "src/components/ui/Button.astro" ]} Samples.template) = Ok t2.
Proof.
  apply (keepOnlyFiles_composes
           {[ "src/components/ui/Button.astro" ]} {[ "src/components/hero/Hero.astro" ]}
           Samples.template
           (KeepFacts.kept {[ "src/components/ui/Button.astro" ]} Samples.template)).
  vm_compute. reflexivity.
Defined.


(** ** The stages of [scaffold], one by one *)
Module StageFacts.
Import Fs FsFacts Scaffold TreeFacts SelectionFacts GrowFacts.

Lemma kind_at_removeOptional t q :
  kind_at q (removeItems OPTIONAL_COMPONENT_DIRS t) =
  if decide (under_optional q) then None else kind_at q t.
Proof. apply kind_at_removeItems, optional_dirs_nonempty. Qed.

Definition blog : path := ["src"; "content"; "blog"].

Lemma bind_Ok_r {A} (m : result A) : (m ≫= fun a => Ok a) = m.
Proof. by destruct m. Qed.

Lemma createContentDirectories_cases t :
  createContentDirectories t =
  if existsSync blog t then Ok t
  else t1 ← mkdirSync blog t; writeFileSync (blog ++ [".gitkeep"]) "" t1.
Proof.
  unfold createContentDirectories. cbn [foldM]. fold blog.
  rewrite bind_Ok_r. by destruct (existsSync blog t).
Qed.

(** The tree after [createContentDirectories], as it was when it throws. *)
Definition created (t : node) : node :=
  match createContentDirectories t with Ok t' => t' | Err _ => t end.


End StageFacts.

(** X13. Selecting no component is keeping no file: the stage removes the
    optional component directories with all that is below them and leaves
    every other path as it is, without a look at the registry; and whenever
    the filter for the empty file set returns, it returns that same tree. *)
Theorem select_none_keeps_nothing selection cache net fuel t :
  Registry.mode selection = Registry.mode_none ->
  exists t',
    Scaffold.applyComponentSelection selection cache net fuel t = Ok (t', []) /\
    (forall q, Fs.kind_at q t' =
               if decide (TreeFacts.under_optional q) then None else Fs.kind_at q t) /\
    (forall t'', Scaffold.keepOnlyFiles ∅ t = Ok t'' -> t'' = t').
Proof.
  intros Hm. exists (Scaffold.removeItems Scaffold.OPTIONAL_COMPONENT_DIRS t).
  split; [unfold Scaffold.applyComponentSelection; by rewrite Hm|].
  split; [apply StageFacts.kind_at_removeOptional|].
  intros t'' H. apply TreeMore.node_ext. intros q.
  rewrite StageFacts.kind_at_removeOptional.
  destruct (KeepFacts.keepOnlyFiles_kinds _ _ _ H) as (_ & Hout & Hf & Hd).
  case_decide as Hq; [|by apply Hout].
  destruct (Fs.kind_at q t'') as [[c|]|] eqn:E; [| |done].
  - apply (Hf q c Hq) in E as [_ E]. set_solver.
  - apply (Hd q Hq) in E as (_ & r & c & _ & E). set_solver.
Qed.

(** X13, on the sample template. *)
Lemma select_none_keeps_nothing_witness :
  exists t',
    Scaffold.applyComponentSelection (Samples.select Registry.mode_none None None)
      None (Registry.FetchRejected "offline") 0 Samples.template = Ok (t', []) /\
    (forall q, Fs.kind_at q t' =
               if decide (TreeFacts.under_optional q) then None
               else Fs.kind_at q Samples.template) /\
    (forall t'', Scaffold.keepOnlyFiles ∅ Samples.template = Ok t'' -> t'' = t').
Proof.
  apply (select_none_keeps_nothing (Samples.select Registry.mode_none None None)
           None (Registry.FetchRejected "offline") 0 Samples.template).
  reflexivity.
Defined.

(** X14. [createContentDirectories] leaves a tree that has something at
    [src/content/blog] alone: when the path is there the tree is returned
    as it is, without a [.gitkeep]; when it is missing and the call
    returns, the directory is made with an empty [.gitkeep] and no other
    path changes. A second call changes nothing. *)
Theorem createContentDirectories_once t t' :
  Scaffold.createContentDirectories t = Ok t' ->
  (is_Some (Fs.kind_at StageFacts.blog t) -> t' = t) /\
  (Fs.kind_at StageFacts.blog t = None ->
     Fs.kind_at StageFacts.blog t' = Some Fs.IsDir /\
     Fs.file_at (StageFacts.blog ++ [".gitkeep"]) t' = Some EmptyString /\
     forall q, ~ q `prefix_of` StageFacts.blog ++ [".gitkeep"] ->
               Fs.kind_at q t' = Fs.kind_at q t) /\
  Scaffold.createContentDirectories t' = Ok t'.
Proof.
  rewrite StageFacts.createContentDirectories_cases, FsFacts.existsSync_kind.
  destruct (Fs.kind_at StageFacts.blog t) as [k|] eqn:Ek.
  - rewrite bool_decide_eq_true_2 by done. intros [= <-].
    split; [done|]. split; [done|].
    rewrite StageFacts.createContentDirectories_cases, FsFacts.existsSync_kind, Ek.
    by rewrite bool_decide_eq_true_2.
  - rewrite bool_decide_eq_false_2 by (by intros [? ?]).
    intros (t1 & H1 & H2)%FsFacts.bind_Ok.
    assert (forall q, Fs.kind_at q t' =
              if decide (q = StageFacts.blog ++ [".gitkeep"]) then Some (Fs.IsFile EmptyString)
              else if decide (q `prefix_of` StageFacts.blog) then Some Fs.IsDir
              else Fs.kind_at q t) as Hk.
    { intros q. rewrite (FsFacts.kind_at_write _ _ _ _ q H2).
      by rewrite (FsFacts.kind_at_mkdir _ _ _ q H1). }
    split; [by intros [? ?]|]. split.
    + intros _. split; [by rewrite Hk|]. split.
      * apply FsFacts.file_at_kind. by rewrite Hk, decide_True.
      * intros q Hq. rewrite Hk, !decide_False; [done| |].
        -- intros Hp. apply Hq. by apply prefix_app_r.
        -- by intros ->.
    + rewrite StageFacts.createContentDirectories_cases, FsFacts.existsSync_kind, Hk.
      by rewrite bool_decide_eq_true_2.
Qed.

(** X14, on the sample template without its demo content. *)
Lemma createContentDirectories_once_witness :
  (is_Some (Fs.kind_at StageFacts.blog
              (Scaffold.removeItems Scaffold.DEMO_CONTENT Samples.template)) ->
   StageFacts.created (Scaffold.removeItems Scaffold.DEMO_CONTENT Samples.template) =
   Scaffold.removeItems Scaffold.DEMO_CONTENT Samples.template) /\
  (Fs.kind_at StageFacts.blog
     (Scaffold.removeItems Scaffold.DEMO_CONTENT Samples.template) = None ->
     Fs.kind_at StageFacts.blog
       (StageFacts.created (Scaffold.removeItems Scaffold.DEMO_CONTENT Samples.template)) =
       Some Fs.IsDir /\
     Fs.file_at (StageFacts.blog ++ [".gitkeep"])
       (StageFacts.created (Scaffold.removeItems Scaffold.DEMO_CONTENT Samples.template)) =
       Some EmptyString /\
     forall q, ~ q `prefix_of` StageFacts.blog ++ [".gitkeep"] ->
       Fs.kind_at q
         (StageFacts.created (Scaffold.removeItems Scaffold.DEMO_CONTENT Samples.template)) =
       Fs.kind_at q (Scaffold.removeItems Scaffold.DEMO_CONTENT Samples.template)) /\
  Scaffold.createContentDirectories
    (StageFacts.created (Scaffold.removeItems Scaffold.DEMO_CONTENT Samples.template)) =
  Ok (StageFacts.created (Scaffold.removeItems Scaffold.DEMO_CONTENT Samples.template)).
Proof.
  apply (createContentDirectories_once
           (Scaffold.removeItems Scaffold.DEMO_CONTENT Samples.template)
           (StageFacts.created (Scaffold.removeItems Scaffold.DEMO_CONTENT Samples.template))).
  vm_compute. reflexivity.
Defined.

(** X15. A run that keeps everything (all components, the demo content, no
    i18n, no pages) returns the download without the lock files and the
    repository data, with [package.json] rewritten for the project; apart
    from [package.json] and the provenance record no path differs. *)
Theorem scaffold_keeps_the_download packageJson velocityConfig options w t' :
  Registry.mode (Scaffold.componentSelection options) = Registry.mode_all ->
  Scaffold.i18n options = false ->
  Scaffold.demo options = true ->
  Scaffold.pages options = [] ->
  Scaffold.scaffold packageJson velocityConfig options w = Ok t' ->
  exists d text text',
    Scaffold.download w = Ok d /\
    Fs.file_at ["package.json"] d = Some text /\
    packageJson (Scaffold.projectName options) text = Some text' /\
    Fs.file_at ["package.json"] t' = Some text' /\
    forall q, q <> ["package.json"] -> q <> [".velocity.json"] ->
      Fs.kind_at q t' =
      if decide (Exists (fun c => c `prefix_of` q) Scaffold.CLEANUP_ITEMS) then None
      else Fs.kind_at q d.
Proof.
  intros Hm Hi Hd Hp. unfold Scaffold.scaffold. rewrite Hm, Hi, Hd, Hp.
  destruct (Scaffold.download w) as [d|]; [|done].
  set (t0 := Scaffold.removeItems Scaffold.CLEANUP_ITEMS d).
  intros (t1 & H1 & H)%FsFacts.bind_Ok.
  assert (t1 = t0) as -> by congruence. clear H1.
  apply FsFacts.bind_Ok in H as (t2 & H2 & H). assert (t2 = t0) as -> by congruence.
  apply FsFacts.bind_Ok in H as (t3 & H3 & H). assert (t3 = t0) as -> by congruence.
  cbn [negb] in H.
  apply FsFacts.bind_Ok in H as (t4 & H4 & H). assert (t4 = t0) as -> by congruence.
  apply FsFacts.bind_Ok in H as (t5 & H5 & H). assert (t5 = t0) as -> by congruence.
  apply FsFacts.bind_Ok in H as (t6 & H6 & H7).
  assert (t' = Scaffold.writeProvenance velocityConfig options t6) as -> by congruence.
  clear H2 H3 H4 H5 H7.
  assert (forall q, Fs.kind_at q t0 =
            if decide (Exists (fun c => c `prefix_of` q) Scaffold.CLEANUP_ITEMS) then None
            else Fs.kind_at q d) as H0.
  { intros q. apply SelectionFacts.kind_at_removeItems. intros c Hc ->. revert Hc.
    apply (bool_decide_eq_false_1 ([] ∈ Scaffold.CLEANUP_ITEMS)). vm_compute. reflexivity. }
  unfold Scaffold.updatePackageJson in H6.
  destruct (Fs.existsSync ["package.json"] t0); cbn [negb] in H6; [|done].
  apply FsFacts.bind_Ok in H6 as (text & Hr & H6).
  destruct (packageJson (Scaffold.projectName options) text) as [text'|] eqn:Ej; [|done].
  assert (Fs.file_at ["package.json"] t0 = Some text) as Hf0.
  { unfold Fs.readFileSync in Hr. unfold Fs.file_at.
    destruct (Fs.lookup ["package.json"] t0) as [[c|m]|]; by simplify_eq. }
  assert (forall q, Fs.kind_at q (Scaffold.writeProvenance velocityConfig options t6) =
                    if decide (q = [".velocity.json"])
                    then Fs.kind_at q (Scaffold.writeProvenance velocityConfig options t6)
                    else Fs.kind_at q t6) as Hprov.
  { intros q. case_decide as Hq; [done|]. unfold Scaffold.writeProvenance.
    destruct (velocityConfig options t6) as [v|]; [|done].
    destruct (Fs.writeFileSync [".velocity.json"] v t6) as [t7|] eqn:Ew; [|done].
    by rewrite (FsFacts.kind_at_write _ _ _ _ q Ew), decide_False. }
  exists d, text, text'. split; [done|]. split; [|split; [done|split]].
  - rewrite TreeFacts.file_at_of_kind, H0 in Hf0. case_decide; [done|].
    by rewrite TreeFacts.file_at_of_kind.
  - apply FsFacts.file_at_kind. rewrite Hprov, decide_False by done.
    by rewrite (FsFacts.kind_at_write _ _ _ _ _ H6), decide_True.
  - intros q Hq1 Hq2. rewrite Hprov, decide_False by done.
    by rewrite (FsFacts.kind_at_write _ _ _ _ _ H6), decide_False, H0.
Qed.

(** X15, on the sample template. *)
Lemma scaffold_keeps_the_download_witness :
  exists d text text',
    Scaffold.download (Samples.world (Registry.Json Samples.diamond)) = Ok d /\
    Fs.file_at ["package.json"] d = Some text /\
    Samples.packageJson
      (Scaffold.projectName
         (Samples.options true false (Samples.select Registry.mode_all None None) []))
      text = Some text' /\
    Fs.file_at ["package.json"]
      (ComposeFacts.composed
         (Samples.options true false (Samples.select Registry.mode_all None None) [])
         (Samples.world (Registry.Json Samples.diamond))) = Some text' /\
    forall q, q <> ["package.json"] -> q <> [".velocity.json"] ->
      Fs.kind_at q
        (ComposeFacts.composed
           (Samples.options true false (Samples.select Registry.mode_all None None) [])
           (Samples.world (Registry.Json Samples.diamond))) =
      if decide (Exists (fun c => c `prefix_of` q) Scaffold.CLEANUP_ITEMS) then None
      else Fs.kind_at q d.
Proof.
  apply (scaffold_keeps_the_download Samples.packageJson Samples.velocityConfig
           (Samples.options true false (Samples.select Registry.mode_all None None) [])
           (Samples.world (Registry.Json Samples.diamond))
           (ComposeFacts.composed
              (Samples.options true false (Samples.select Registry.mode_all None None) [])
              (Samples.world (Registry.Json Samples.diamond)))).
  - reflexivity.
  - reflexivity.
  - reflexivity.
  - reflexivity.
  - vm_compute. reflexivity.
Defined.


(** ** What page generation touches and what it reports *)
Module TouchFacts.
Import Fs FsFacts Pages PagesFacts TreeFacts GrowFacts.

(** From [t] to [t'] only the paths in [S] change. *)
Definition touches (S : path -> Prop) (t t' : node) : Prop :=
  forall q, ~ S q -> kind_at q t' = kind_at q t.

Lemma touches_refl S t : touches S t t.
Proof. done. Qed.

Lemma touches_trans S1 S2 (S : path -> Prop) t1 t2 t3 :
  touches S1 t1 t2 -> touches S2 t2 t3 ->
  (forall p, S1 p -> S p) -> (forall p, S2 p -> S p) -> touches S t1 t3.
Proof. intros H1 H2 HS1 HS2 q Hq. rewrite H2, H1; auto. Qed.

Lemma touches_mono (S S' : path -> Prop) t t' :
  touches S t t' -> (forall p, S p -> S' p) -> touches S' t t'.
Proof. intros H HS q Hq. apply H. auto. Qed.

Lemma touches_write p c t t' :
  writeFileSync p c t = Ok t' -> touches (fun q => q = p) t t'.
Proof. intros H q Hq. by rewrite (kind_at_write _ _ _ _ q H), decide_False. Qed.

Lemma touches_ensureDir p t t' :
  ensureDir p t = Ok t' -> touches (fun q => q `prefix_of` p) t t'.
Proof.
  unfold ensureDir. destruct (existsSync p t); cbn [negb]; [by intros [= <-]|].
  intros H q Hq. by rewrite (kind_at_mkdir _ _ _ q H), decide_False.
Qed.

Lemma touches_foldM {A} (S : path -> Prop) (f : node -> A -> result node) l t t' :
  (forall x t1 t2, x ∈ l -> f t1 x = Ok t2 -> touches S t1 t2) ->
  foldM f t l = Ok t' -> touches S t t'.
Proof.
  revert t. induction l as [|x l IH]; intros t Hf; simpl.
  - by intros [= <-].
  - intros (t1 & H1 & H2)%bind_Ok.
    eapply touches_trans; [eapply Hf; [left|done]|eapply IH; [|done]|done..].
    intros; eapply Hf; [by right|done].
Qed.

Lemma touches_foldM_pair {A B} (S : path -> Prop)
    (f : node * B -> A -> result (node * B)) l st st' :
  (forall x s1 s2, x ∈ l -> f s1 x = Ok s2 -> touches S s1.1 s2.1) ->
  foldM f st l = Ok st' -> touches S st.1 st'.1.
Proof.
  revert st. induction l as [|x l IH]; intros st Hf; simpl.
  - by intros [= <-].
  - intros (s1 & H1 & H2)%bind_Ok.
    eapply touches_trans; [eapply Hf; [left|done]|eapply IH; [|done]|done..].
    intros; eapply Hf; [by right|done].
Qed.

(** The files of the route tables and of the translations. *)
Definition config_paths (isI18n : bool) (q : path) : Prop :=
  if isI18n then q = i18nRoutesPath \/ exists locale, locale ∈ locales /\ q = translationPath locale
  else q = baseRoutesPath.

Lemma touches_addBaseRouteEntry pageName t t' :
  addBaseRouteEntry pageName t = Ok t' -> touches (config_paths false) t t'.
Proof.
  unfold addBaseRouteEntry. destruct (existsSync baseRoutesPath t); cbn [negb].
  - intros (c & Hc & H)%bind_Ok. destruct (baseRouteSplice c pageName).
    + by apply touches_write in H.
    + by injection H as <-.
  - by intros [= <-].
Qed.

Lemma touches_addI18nTranslationKeys routeId title t t' :
  addI18nTranslationKeys routeId title t = Ok t' -> touches (config_paths true) t t'.
Proof.
  unfold addI18nTranslationKeys. apply touches_foldM. intros locale t1 t2 Hl.
  destruct (existsSync (translationPath locale) t1); cbn [negb].
  - intros (c & Hc & H)%bind_Ok. apply touches_write in H.
    eapply touches_mono; [exact H|]. intros q ->. right. by exists locale.
  - by intros [= <-].
Qed.

Lemma touches_addI18nRouteEntry pageName t t' :
  addI18nRouteEntry pageName t = Ok t' -> touches (config_paths true) t t'.
Proof.
  unfold addI18nRouteEntry. destruct (existsSync i18nRoutesPath t); cbn [negb].
  - intros (c & Hc & H)%bind_Ok. destruct (i18nRouteSplice c pageName).
    + apply bind_Ok in H as (t1 & H1 & H2). apply touches_write in H1.
      apply touches_addI18nTranslationKeys in H2.
      eapply touches_trans; [exact H1|exact H2| |done]. intros q ->. by left.
    + by injection H as <-.
  - by intros [= <-].
Qed.

Definition page_touch (pages : list string) (isI18n : bool) (q : path) : Prop :=
  page_paths pages q \/ config_paths isI18n q.

Lemma touches_writeBasePage pages layout isI18n x s1 s2 :
  x ∈ pages -> writeBasePage layout isI18n s1 x = Ok s2 ->
  touches (page_touch pages isI18n) s1.1 s2.1.
Proof.
  destruct s1 as [s1 g1]. intros Hx. unfold writeBasePage.
  intros (s & Hw & Hs)%bind_Ok. apply bind_Ok in Hs as (s' & Hs' & [= <-]).
  apply touches_write in Hw. simpl.
  assert (touches (page_touch pages isI18n) s s') as G.
  { destruct isI18n; cbn [negb] in Hs'; [by injection Hs' as <-|].
    apply touches_addBaseRouteEntry in Hs'. eapply touches_mono; [exact Hs'|].
    intros q Hq. by right. }
  eapply touches_trans; [exact Hw|exact G| |done].
  intros q ->. left. right. eauto.
Qed.

Lemma touches_writeLangPage pages layout x s1 s2 :
  x ∈ pages -> writeLangPage layout s1 x = Ok s2 ->
  touches (page_touch pages true) s1.1 s2.1.
Proof.
  destruct s1 as [s1 g1]. intros Hx. unfold writeLangPage.
  intros (s & Hw & Hs)%bind_Ok. apply bind_Ok in Hs as (s' & Hs' & [= <-]).
  apply touches_write in Hw. apply touches_addI18nRouteEntry in Hs'. simpl.
  eapply touches_trans; [exact Hw|exact Hs'| |by right].
  intros q ->. left. right. eauto.
Qed.

Lemma touches_generatePages pages layout isI18n t t' files :
  generatePages pages layout isI18n t = Ok (t', files) ->
  touches (page_touch pages isI18n) t t'.
Proof.
  unfold generatePages. destruct pages as [|p0 pages0] eqn:Epages.
  { by intros [= <- _]. }
  rewrite <- Epages. clear p0 pages0 Epages.
  intros (t1 & H1 & H)%bind_Ok. apply bind_Ok in H as ([t2 f2] & H2 & H).
  assert (touches (page_touch pages isI18n) t t1) as G1.
  { eapply touches_mono; [by eapply touches_ensureDir|].
    intros q Hq. left. left. trans pagesDir; [exact Hq|]. by exists ["[lang]"]. }
  assert (touches (page_touch pages isI18n) t1 t2) as G2.
  { apply (touches_foldM_pair (page_touch pages isI18n)) in H2; [exact H2|].
    intros x s1 s2. apply touches_writeBasePage. }
  assert (touches (page_touch pages isI18n) t t2) as G by by eapply touches_trans.
  destruct isI18n; [|by injection H as <- _].
  apply bind_Ok in H as (t3 & H3 & H4). simpl in H3.
  assert (touches (page_touch pages true) t2 t3) as G3.
  { eapply touches_mono; [by eapply touches_ensureDir|]. intros q Hq. left. by left. }
  apply (touches_foldM_pair (page_touch pages true)) in H4.
  - simpl in H4. eapply touches_trans; [exact G|eapply touches_trans; [exact G3|exact H4|..]|..];
      done.
  - intros x s1 s2. apply touches_writeLangPage.
Qed.

(** The list that the loops return. *)
Lemma foldM_base_files layout isI18n pages : forall t acc t' files,
  foldM (writeBasePage layout isI18n) (t, acc) pages = Ok (t', files) ->
  files = acc ++ (baseName <$> pages) /\
  forall p, p ∈ pages -> is_Some (file_at (pageFile p) t').
Proof.
  induction pages as [|x pages IH]; intros t acc t' files; cbn [foldM].
  - intros [= <- <-]. rewrite app_nil_r. split; [done|]. intros p H. by apply elem_of_nil in H.
  - intros ([t1 f1] & H1 & H2)%bind_Ok.
    pose proof (grows_writeBasePage (x :: pages) layout isI18n x (t, acc) (t1, f1)
                  ltac:(left) H1) as [_ _].
    unfold writeBasePage in H1. apply bind_Ok in H1 as (s & Hw & Hs).
    apply bind_Ok in Hs as (s' & Hs' & [= <- <-]).
    destruct (IH _ _ _ _ H2) as [-> Hin]. split; [by rewrite <- app_assoc|].
    intros p [->|Hp]%elem_of_cons; [|by apply Hin].
    assert (is_Some (file_at (pageFile x) s)) as Hx.
    { rewrite file_at_of_kind, (kind_at_write _ _ _ _ _ Hw), decide_True by done.
      by eexists. }
    assert (grows (page_paths (x :: pages)) s s') as [Gs _].
    { destruct (negb isI18n); [by eapply grows_addBaseRouteEntry|].
      injection Hs' as <-. apply grows_refl. }
    apply (grows_foldM_pair (page_paths (x :: pages))) in H2 as [G2 _].
    + apply G2, Gs, Hx.
    + intros y s1 s2 Hy. apply grows_writeBasePage. by right.
Qed.

Lemma foldM_lang_files layout pages : forall t acc t' files,
  foldM (writeLangPage layout) (t, acc) pages = Ok (t', files) ->
  files = acc ++ (langName <$> pages) /\
  forall p, p ∈ pages -> is_Some (file_at (langPageFile p) t').
Proof.
  induction pages as [|x pages IH]; intros t acc t' files; cbn [foldM].
  - intros [= <- <-]. rewrite app_nil_r. split; [done|]. intros p H. by apply elem_of_nil in H.
  - intros ([t1 f1] & H1 & H2)%bind_Ok.
    unfold writeLangPage in H1. apply bind_Ok in H1 as (s & Hw & Hs).
    apply bind_Ok in Hs as (s' & Hs' & [= <- <-]).
    destruct (IH _ _ _ _ H2) as [-> Hin]. split; [by rewrite <- app_assoc|].
    intros p [->|Hp]%elem_of_cons; [|by apply Hin].
    assert (is_Some (file_at (langPageFile x) s)) as Hx.
    { rewrite file_at_of_kind, (kind_at_write _ _ _ _ _ Hw), decide_True by done.
      by eexists. }
    apply (grows_addI18nRouteEntry (page_paths (x :: pages))) in Hs' as [Gs _].
    apply (grows_foldM_pair (page_paths (x :: pages))) in H2 as [G2 _].
    + apply G2, Gs, Hx.
    + intros y s1 s2 Hy. apply grows_writeLangPage. by right.
Qed.

End TouchFacts.

(** X16. What [generatePages] reports is what it wrote: the returned list
    names the page of every requested name in order, then, with i18n, the
    localized page of every name; and each of those files is in the tree
    that the call leaves. *)
Theorem generatePages_reports pages layout (isI18n : bool) t t' files :
  Pages.generatePages pages layout isI18n t = Ok (t', files) ->
  files = ((fun p => "src/pages/" +:+ p +:+ ".astro") <$> pages) ++
          (if isI18n
           then (fun p => "src/pages/[lang]/[..." +:+ Pages.toRouteId p +:+ "].astro") <$> pages
           else []) /\
  length files = ((if isI18n then 2 else 1) * length pages)%nat /\
  forall p, p ∈ pages ->
    is_Some (Fs.file_at (Pages.pageFile p) t') /\
    (isI18n = true -> is_Some (Fs.file_at (Pages.langPageFile p) t')).
Proof.
  intros H.
  assert (files = (PagesFacts.baseName <$> pages) ++
                  (if isI18n then PagesFacts.langName <$> pages else []) /\
          forall p, p ∈ pages ->
            is_Some (Fs.file_at (Pages.pageFile p) t') /\
            (isI18n = true -> is_Some (Fs.file_at (Pages.langPageFile p) t'))) as [-> Hin].
  { revert H. unfold Pages.generatePages. destruct pages as [|p0 pages0] eqn:Epages.
    { intros [= <- <-]. split; [by destruct isI18n|]. intros p Hp. by apply elem_of_nil in Hp. }
    rewrite <- Epages. clear p0 pages0 Epages.
    intros (t1 & H1 & H)%FsFacts.bind_Ok. apply FsFacts.bind_Ok in H as ([t2 f2] & H2 & H).
    apply TouchFacts.foldM_base_files in H2 as [-> Hbase]. simpl in Hbase.
    destruct isI18n.
    - apply FsFacts.bind_Ok in H as (t3 & H3 & H4). cbn [fst snd] in *.
      pose proof H4 as [-> Hlang]%TouchFacts.foldM_lang_files. split; [done|].
      intros p Hp. split; [|intros _; by apply Hlang].
      apply (GrowFacts.grows_foldM_pair (GrowFacts.page_paths pages)) in H4 as [G4 _].
      + apply G4. simpl. apply GrowFacts.grows_ensureDir in H3 as [G3 _].
        by apply G3, Hbase.
      + intros x s1 s2. apply GrowFacts.grows_writeLangPage.
    - injection H as <- <-. rewrite app_nil_r. split; [done|].
      intros p Hp. split; [by apply Hbase|done]. }
  split; [done|]. split; [|done].
  rewrite length_app, length_fmap. destruct isI18n; [rewrite length_fmap|]; simpl; lia.
Qed.

(** X16, for the page [about] with i18n on the sample project. *)
Lemma generatePages_reports_witness :
  ["src/pages/about.astro"; "src/pages/[lang]/[...about].astro"] =
    ((fun p => "src/pages/" +:+ p +:+ ".astro") <$> ["about"]) ++
    ((fun p => "src/pages/[lang]/[..." +:+ Pages.toRouteId p +:+ "].astro") <$> ["about"]) /\
  length ["src/pages/about.astro"; "src/pages/[lang]/[...about].astro"] =
    (2 * length ["about"])%nat /\
  forall p, p ∈ ["about"] ->
    is_Some (Fs.file_at (Pages.pageFile p)
               (Samples.tree_of (Pages.generatePages ["about"] Pages.page true
                                   Samples.about_project))) /\
    (true = true ->
     is_Some (Fs.file_at (Pages.langPageFile p)
                (Samples.tree_of (Pages.generatePages ["about"] Pages.page true
                                    Samples.about_project)))).
Proof.
  apply (generatePages_reports ["about"] Pages.page true Samples.about_project
           (Samples.tree_of (Pages.generatePages ["about"] Pages.page true
                               Samples.about_project))
           ["src/pages/about.astro"; "src/pages/[lang]/[...about].astro"]).
  vm_compute. reflexivity.
Defined.

(** X17. [generatePages] loses no file, and it changes nothing but the page
    files, the directories that hold them, the route table of the run and,
    with i18n, the translation files. *)
Theorem generatePages_frame pages layout (isI18n : bool) t t' files :
  Pages.generatePages pages layout isI18n t = Ok (t', files) ->
  (forall q, is_Some (Fs.file_at q t) -> is_Some (Fs.file_at q t')) /\
  (forall q,
     ~ q `prefix_of` Pages.langDir ->
     (forall p, p ∈ pages -> q <> Pages.pageFile p /\ q <> Pages.langPageFile p) ->
     q <> PagesFacts.routesPath isI18n ->
     (forall locale, locale ∈ Pages.locales -> q <> Pages.translationPath locale) ->
     Fs.kind_at q t' = Fs.kind_at q t).
Proof.
  intros H. split.
  - by destruct (GrowFacts.grows_generatePages _ _ _ _ _ _ H).
  - intros q Hdir Hpages Hroutes Hlocales.
    apply (TouchFacts.touches_generatePages _ _ _ _ _ _ H).
    intros [[Hq|(p & Hp & Hq)]|Hq].
    + done.
    + destruct (Hpages p Hp). tauto.
    + destruct isI18n; simpl in *; [|done].
      destruct Hq as [Hq|(locale & Hl & Hq)]; [done|]. by apply (Hlocales locale).
Qed.

(** X17, for the page [about] with i18n on the sample project. *)
Lemma generatePages_frame_witness :
  (forall q, is_Some (Fs.file_at q Samples.about_project) ->
     is_Some (Fs.file_at q
                (Samples.tree_of (Pages.generatePages ["about"] Pages.page true
                                    Samples.about_project)))) /\
  (forall q,
     ~ q `prefix_of` Pages.langDir ->
     (forall p, p ∈ ["about"] -> q <> Pages.pageFile p /\ q <> Pages.langPageFile p) ->
     q <> PagesFacts.routesPath true ->
     (forall locale, locale ∈ Pages.locales -> q <> Pages.translationPath locale) ->
     Fs.kind_at q
       (Samples.tree_of (Pages.generatePages ["about"] Pages.page true Samples.about_project)) =
     Fs.kind_at q Samples.about_project).
Proof.
  apply (generatePages_frame ["about"] Pages.page true Samples.about_project
           (Samples.tree_of (Pages.generatePages ["about"] Pages.page true
                               Samples.about_project))
           ["src/pages/about.astro"; "src/pages/[lang]/[...about].astro"]).
  vm_compute. reflexivity.
Defined.


(** ** Configuration files without their anchors *)
Module AnchorFacts.
Import Fs FsFacts Pages PagesFacts.





Section Kept.
Variable locale : string.
Variable k : option kind.

(** What stands at the path of the translation file is absent, or a file
    that has neither anchor. *)
Hypothesis Hk : forall content, k = Some (IsFile content) ->
  match_nav content = None /\ lastIndexOf "} as const" content = None.

Definition kept (t : node) : Prop := kind_at (translationPath locale) t = k.







End Kept.

End AnchorFacts.





From Stdlib Require DecimalN.

(** ** Numbers as text *)
Module NumberFacts.
Import Pages.

Definition digit_step (acc : N) (c : ascii) : N := 10 * acc + (Js.code c - 48).

Lemma integer_foldl ds : integer ds = foldl digit_step 0 (Js.chars ds).
Proof. done. Qed.

Lemma digits_acc d : forall acc : positive,
  foldl digit_step (Npos acc) (Js.chars (NilEmpty.string_of_uint d)) =
  Npos (Pos.of_uint_acc d acc).
Proof.
  induction d; intros acc; simpl; try done; rewrite <- IHd; f_equal;
    unfold digit_step; vm_compute Js.code; lia.
Qed.

Lemma digits_value d :
  foldl digit_step 0 (Js.chars (NilEmpty.string_of_uint d)) = Pos.of_uint d.
Proof.
  induction d; simpl; try done; try apply (digits_acc d 1); try apply (digits_acc d 2);
    try apply (digits_acc d 3); try apply (digits_acc d 4); try apply (digits_acc d 5);
    try apply (digits_acc d 6); try apply (digits_acc d 7); try apply (digits_acc d 8);
    try apply (digits_acc d 9).
Qed.

Lemma digits_only d :
  Forall (fun c => Js.is_digit c = true) (Js.chars (NilEmpty.string_of_uint d)).
Proof. induction d; simpl; constructor; done. Qed.

(** The decimal numeral of [n] writes [n]. *)
Lemma integer_decimal n : integer (Js.decimal n) = n.
Proof.
  rewrite integer_foldl. unfold Js.decimal, NilZero.string_of_uint.
  rewrite <- (DecimalN.Unsigned.of_to n) at 2.
  destruct (N.to_uint n) eqn:E; try apply digits_value. done.
Qed.

Lemma decimal_digits n : Forall (fun c => Js.is_digit c = true) (Js.chars (Js.decimal n)).
Proof.
  unfold Js.decimal, NilZero.string_of_uint.
  destruct (N.to_uint n) eqn:E; try (rewrite <- E; apply digits_only).
  by repeat constructor.
Qed.

Lemma decimal_nonempty n : Js.decimal n <> EmptyString.
Proof. unfold Js.decimal, NilZero.string_of_uint. by destruct (N.to_uint n). Qed.

End NumberFacts.

(** ** The text of a spliced entry *)
Module RouteMore.
Import Fs FsFacts Pages PagesFacts RouteTable.

(** An occurrence of [order: <integer>] that is followed by a character,
    which is not a digit. *)
Definition occurs_inside (s : string) (v : N) : Prop :=
  exists before ws ds c after,
    s = before +:+ "order:" +:+ ws +:+ ds +:+ String c after /\
    Forall (fun c => Js.is_space c = true) (Js.chars ws) /\
    Forall (fun c => Js.is_digit c = true) (Js.chars ds) /\
    ds <> EmptyString /\
    Js.is_digit c = false /\
    v = integer ds.

Lemma occurs_inside_occurrence s v : occurs_inside s v -> order_occurrence s v.
Proof.
  intros (before & ws & ds & c & after & -> & Hws & Hds & Hne & Hc & ->).
  exists before, ws, ds, (String c after). split; [done|]. split; [done|].
  split; [done|]. split; [done|]. split; [|done]. by intros c' r [= <- <-].
Qed.

Lemma occurs_inside_app_r a s v : occurs_inside s v -> occurs_inside (a +:+ s) v.
Proof.
  intros (before & ws & ds & c & after & -> & H).
  exists (a +:+ before), ws, ds, c, after. split; [by rewrite !sapp_assoc|done].
Qed.

Lemma occurs_inside_app_l s b v : occurs_inside s v -> occurs_inside (s +:+ b) v.
Proof.
  intros (before & ws & ds & c & after & -> & H).
  exists before, ws, ds, c, (after +:+ b). split; [|done].
  by rewrite !sapp_assoc, sapp_cons.
Qed.

Lemma occurs_inside_nav n rest :
  n < DoubleFacts.safe ->
  occurs_inside ("    nav: { show: true, order: " +:+ Js.toString (Js.Finite n) +:+
                 String ","%char rest) n.
Proof.
  intros Hn. rewrite DoubleFacts.toString_safe by done.
  exists "    nav: { show: true, ", " ", (Js.decimal n), ","%char, rest.
  split; [done|]. split; [by repeat constructor|]. split; [apply NumberFacts.decimal_digits|].
  split; [apply NumberFacts.decimal_nonempty|]. split; [done|].
  by rewrite NumberFacts.integer_decimal.
Qed.

Lemma baseRouteText_order pageName routeId title n :
  n < DoubleFacts.safe ->
  occurs_inside (baseRouteText pageName routeId title (Js.Finite n)) n.
Proof.
  intros Hn. unfold baseRouteText, lines. cbn [Js.join].
  do 8 apply occurs_inside_app_r. apply occurs_inside_app_l.
  by apply (occurs_inside_nav n (" label: '" +:+ title +:+ "' },")).
Qed.

Lemma i18nRouteText_order pageName routeId n :
  n < DoubleFacts.safe ->
  occurs_inside (i18nRouteText pageName routeId (Js.Finite n)) n.
Proof.
  intros Hn. unfold i18nRouteText, lines. cbn [Js.join].
  do 8 apply occurs_inside_app_r. apply occurs_inside_app_l.
  by apply (occurs_inside_nav n (" label: 'nav." +:+ routeId +:+ "' },")).
Qed.

(** The text of the order in an entry, with what stands around it. *)
Definition order_text (n : N) : string := "order: " +:+ Js.decimal n +:+ ", label: '".

Lemma includes_order_line n a b :
  n < DoubleFacts.safe ->
  Js.includes (order_text n)
    ("    nav: { show: true, order: " +:+ Js.toString (Js.Finite n) +:+ ", label: '" +:+ a +:+ b)
  = true.
Proof.
  intros Hn. rewrite DoubleFacts.toString_safe by done. apply includes_true.
  exists "    nav: { show: true, ", (a +:+ b). unfold order_text.
  by rewrite !sapp_assoc.
Qed.

Lemma baseRouteText_order_text pageName routeId title n :
  n < DoubleFacts.safe ->
  Js.includes (order_text n) (baseRouteText pageName routeId title (Js.Finite n)) = true.
Proof.
  intros Hn. unfold baseRouteText, lines. cbn [Js.join].
  do 8 apply includes_app_r. apply includes_app_l.
  by apply (includes_order_line n title "' },").
Qed.

Lemma i18nRouteText_order_text pageName routeId n :
  n < DoubleFacts.safe ->
  Js.includes (order_text n) (i18nRouteText pageName routeId (Js.Finite n)) = true.
Proof.
  intros Hn. unfold i18nRouteText, lines. cbn [Js.join].
  do 8 apply includes_app_r. apply includes_app_l.
  exact (includes_order_line n "nav." (routeId +:+ "' },") Hn).
Qed.

(** A splice, as long as the new order is below 2^53: the text that is put
    in carries the order. *)
Lemma splice_order content pageName content' m :
  max_order content m -> m + 10 < DoubleFacts.safe ->
  baseRouteSplice content pageName = Some content' \/
  i18nRouteSplice content pageName = Some content' ->
  Js.includes (order_text (m + 10)) content' = true /\ occurs_inside content' (m + 10).
Proof.
  intros Hm Hsafe H.
  pose proof (NavOrderFacts.getNextNavOrder_exact content m Hm Hsafe) as Hnext.
  destruct H as [H|H]; revert H.
  - unfold baseRouteSplice. destruct (Js.includes _ content); [done|].
    destruct (Js.indexOf routes_anchor content) as [i|]; [|done].
    intros [= <-]. rewrite Hnext. split.
    + by apply includes_app_r, includes_app_l, baseRouteText_order_text.
    + by apply occurs_inside_app_r, occurs_inside_app_l, baseRouteText_order.
  - unfold i18nRouteSplice. destruct (Js.includes _ content); [done|].
    destruct (Js.indexOf routes_anchor content) as [i|]; [|done].
    intros [= <-]. rewrite Hnext. split.
    + by apply includes_app_r, includes_app_l, i18nRouteText_order_text.
    + by apply occurs_inside_app_r, occurs_inside_app_l, i18nRouteText_order.
Qed.

Lemma max_order_sample content m :
  NavOrderFacts.largest content = m -> max_order content m.
Proof. intros <-. apply NavOrderFacts.max_order_largest. Qed.

(** *** Words that a table with an entry already has *)

Lemma includes_or needle a b :
  Js.includes needle a = true \/ Js.includes needle b = true ->
  Js.includes needle (a +:+ b) = true.
Proof. intros [H|H]; [by apply includes_app_l|by apply includes_app_r]. Qed.

Lemma map_chars_app f a b : Js.map_chars f (a +:+ b) = Js.map_chars f a +:+ Js.map_chars f b.
Proof. induction a as [|c a IH]; simpl; [done|]. by rewrite IH. Qed.

Lemma includes_suffix_line a id :
  Js.includes (id +:+ ":") ("  " +:+ (a +:+ id) +:+ ": {") = true.
Proof. apply includes_true. exists ("  " +:+ a), " {". by rewrite !sapp_assoc. Qed.

Definition base_words : list string := ["page"; "path"; "nav"; "show"; "order"; "label"].
Definition i18n_words : list string :=
  ["page"; "en"; "es"; "fr"; "nav"; "show"; "order"; "label"].

Lemma baseRouteText_words pageName routeId title n word :
  word ∈ base_words ->
  Js.includes (toRouteId word +:+ ":") (baseRouteText pageName routeId title n) = true.
Proof.
  intros Hw. unfold baseRouteText, lines. cbn [Js.join]. unfold base_words in Hw.
  repeat (apply elem_of_cons in Hw as [->|Hw]); [..|by apply elem_of_nil in Hw].
  - do 2 apply includes_app_r. by do 2 apply includes_app_l.
  - do 6 apply includes_app_r. by do 2 apply includes_app_l.
  - do 8 apply includes_app_r. by do 2 apply includes_app_l.
  - do 8 apply includes_app_r. by do 2 apply includes_app_l.
  - do 8 apply includes_app_r. by do 2 apply includes_app_l.
  - do 8 apply includes_app_r. apply includes_app_l. do 2 apply includes_app_r.
    by apply includes_app_l.
Qed.

Lemma i18nRouteText_words pageName routeId n word :
  word ∈ i18n_words ->
  Js.includes (toRouteId word +:+ ":") (i18nRouteText pageName routeId n) = true.
Proof.
  intros Hw. unfold i18nRouteText, lines. cbn [Js.join]. unfold i18n_words in Hw.
  repeat (apply elem_of_cons in Hw as [->|Hw]); [..|by apply elem_of_nil in Hw].
  - do 2 apply includes_app_r. by do 2 apply includes_app_l.
  - do 6 apply includes_app_r. by do 2 apply includes_app_l.
  - do 6 apply includes_app_r. apply includes_app_l. do 2 apply includes_app_r.
    by apply includes_app_l.
  - do 6 apply includes_app_r. apply includes_app_l. do 4 apply includes_app_r.
    by apply includes_app_l.
  - do 8 apply includes_app_r. by do 2 apply includes_app_l.
  - do 8 apply includes_app_r. by do 2 apply includes_app_l.
  - do 8 apply includes_app_r. by do 2 apply includes_app_l.
  - do 8 apply includes_app_r. apply includes_app_l. do 2 apply includes_app_r.
    by apply includes_app_l.
Qed.

End RouteMore.

(** X18. The test for an existing route is a search for the identifier and
    a colon anywhere in the file. Once an entry is spliced, a page whose
    name is one of the words of that entry ([nav], [order], [label], ...) or
    the end of the name of its page is found there, and gets no entry of
    its own. *)
Theorem entry_words_shadow_pages content pageName content' :
  (Pages.baseRouteSplice content pageName = Some content' ->
   (forall word, word ∈ ["page"; "path"; "nav"; "show"; "order"; "label"] ->
      Pages.baseRouteSplice content' word = None) /\
   (forall a q, pageName = a +:+ q -> Pages.baseRouteSplice content' q = None)) /\
  (Pages.i18nRouteSplice content pageName = Some content' ->
   (forall word, word ∈ ["page"; "en"; "es"; "fr"; "nav"; "show"; "order"; "label"] ->
      Pages.i18nRouteSplice content' word = None) /\
   (forall a q, pageName = a +:+ q -> Pages.i18nRouteSplice content' q = None)).
Proof.
  split.
  - unfold Pages.baseRouteSplice at 1.
    destruct (Js.includes _ content); [done|].
    destruct (Js.indexOf Pages.routes_anchor content) as [i|]; [|done].
    intros [= <-]. split.
    + intros word Hw. unfold Pages.baseRouteSplice.
      rewrite RouteTable.includes_app_r; [done|].
      apply RouteTable.includes_app_l, RouteMore.baseRouteText_words. exact Hw.
    + intros a q ->. unfold Pages.baseRouteSplice.
      rewrite RouteTable.includes_app_r; [done|]. apply RouteTable.includes_app_l.
      unfold Pages.baseRouteText, Pages.lines. cbn [Js.join].
      do 4 apply RouteTable.includes_app_r. apply RouteTable.includes_app_l.
      unfold Pages.toRouteId. rewrite RouteMore.map_chars_app.
      apply RouteMore.includes_suffix_line.
  - unfold Pages.i18nRouteSplice at 1.
    destruct (Js.includes _ content); [done|].
    destruct (Js.indexOf Pages.routes_anchor content) as [i|]; [|done].
    intros [= <-]. split.
    + intros word Hw. unfold Pages.i18nRouteSplice.
      rewrite RouteTable.includes_app_r; [done|].
      apply RouteTable.includes_app_l, RouteMore.i18nRouteText_words. exact Hw.
    + intros a q ->. unfold Pages.i18nRouteSplice.
      rewrite RouteTable.includes_app_r; [done|]. apply RouteTable.includes_app_l.
      unfold Pages.i18nRouteText, Pages.lines. cbn [Js.join].
      do 4 apply RouteTable.includes_app_r. apply RouteTable.includes_app_l.
      unfold Pages.toRouteId. rewrite RouteMore.map_chars_app.
      apply RouteMore.includes_suffix_line.
Qed.

(** X18, on the empty table after the page [faq]. *)
Lemma entry_words_shadow_pages_witness :
  (forall word, word ∈ ["page"; "path"; "nav"; "show"; "order"; "label"] ->
     Pages.baseRouteSplice Samples.routes_empty_faq word = None) /\
  (forall a q, "faq" = a +:+ q -> Pages.baseRouteSplice Samples.routes_empty_faq q = None).
Proof.
  apply (proj1 (entry_words_shadow_pages Samples.routes_empty "faq" Samples.routes_empty_faq)).
  vm_compute. reflexivity.
Defined.

(** X19. As long as the orders of a table stay twenty below 2^53, the
    order that a splice writes is read back: in the new table
    [order: <integer>] occurs with the value that [getNextNavOrder] gave for
    the old one, ten more than its largest order, so the order of the next
    page is larger by ten at least, and no two spliced pages share an
    order. *)
Theorem nav_orders_increase content pageName content' m :
  Pages.max_order content m ->
  m + 20 <= 2 ^ 53 ->
  Pages.baseRouteSplice content pageName = Some content' \/
  Pages.i18nRouteSplice content pageName = Some content' ->
  Pages.getNextNavOrder content = Js.Finite (m + 10) /\
  Pages.order_occurrence content' (m + 10) /\
  Js.ltb (Pages.getNextNavOrder content') (Js.Finite (m + 10 + 10)) = false.
Proof.
  intros Hm Hsafe H.
  assert (m + 10 < DoubleFacts.safe) as Hsafe' by (unfold DoubleFacts.safe; lia).
  destruct (RouteMore.splice_order content pageName content' m Hm Hsafe' H) as [_ Hocc].
  apply RouteMore.occurs_inside_occurrence in Hocc.
  split; [by apply NavOrderFacts.getNextNavOrder_exact|]. split; [exact Hocc|].
  apply (NavOrderFacts.getNextNavOrder_above content' (m + 10)); [exact Hocc|].
  unfold DoubleFacts.safe. lia.
Qed.

(** X19, on the table whose largest order is 40. *)
Lemma nav_orders_increase_witness :
  Pages.getNextNavOrder Samples.routes_forty = Js.Finite (40 + 10) /\
  Pages.order_occurrence Samples.routes_forty_faq (40 + 10) /\
  Js.ltb (Pages.getNextNavOrder Samples.routes_forty_faq) (Js.Finite (40 + 10 + 10)) = false.
Proof.
  apply (nav_orders_increase Samples.routes_forty "faq" Samples.routes_forty_faq 40).
  - apply RouteMore.max_order_sample. vm_compute. reflexivity.
  - vm_compute. discriminate.
  - left. vm_compute. reflexivity.
Defined.

(** Beyond the bound the orders can stall: at 2^57 adding ten changes
    nothing, the entry is written with the order 144115188075855870, which
    is read back as 2^57, and the next page gets the same order. *)
Example nav_order_stalls :
  Pages.getNextNavOrder Samples.routes_coarse = Js.Finite 144115188075855872 /\
  Js.toString (Pages.getNextNavOrder Samples.routes_coarse) = "144115188075855870" /\
  Pages.parseInt "144115188075855870" = Js.Finite 144115188075855872.
Proof. split_and!; vm_compute; reflexivity. Qed.

(** C3, as stated, fails where a double does not hold the integer: on a
    table with the order 9007199254740993, which is 2^53 + 1, the code reads
    2^53 and the entry of the page [faq] gets the order 9007199254741002,
    one less than the largest integer plus ten. *)
Lemma nav_order_rounds_large_integers :
  Pages.max_order Samples.routes_huge 9007199254740993 /\
  Pages.getNextNavOrder Samples.routes_huge = Js.Finite 9007199254741002 /\
  Fs.file_at Pages.baseRoutesPath
    (Samples.tree_of (Pages.generatePages ["faq"] Pages.page false
       (Samples.project Pages.baseRoutesPath Samples.routes_huge))) =
  Some Samples.routes_huge_faq.
Proof.
  split; [|split].
  - apply RouteMore.max_order_sample. vm_compute. reflexivity.
  - vm_compute. reflexivity.
  - vm_compute. reflexivity.
Qed.

(** C3, amended. Every table has a largest integer among its
    [order: <integer>] occurrences, 0 when there is none. As long as that
    integer plus ten is below 2^53, the order of a spliced entry is that
    integer plus ten: [getNextNavOrder] returns it, and the new table holds
    it, written in decimal, in the entry. The first page of an empty table
    gets 10, the next page of a table whose largest order is 40 gets 50. *)
Theorem nav_order_max_plus_ten :
  (forall content, exists m, Pages.max_order content m) /\
  (forall content m,
     Pages.max_order content m ->
     m + 10 < 2 ^ 53 ->
     Pages.getNextNavOrder content = Js.Finite (m + 10) /\
     forall pageName content',
       Pages.baseRouteSplice content pageName = Some content' \/
       Pages.i18nRouteSplice content pageName = Some content' ->
       Js.includes ("order: " +:+ Js.decimal (m + 10) +:+ ", label: '") content' = true /\
       Pages.order_occurrence content' (m + 10)) /\
  (Pages.max_order Samples.routes_empty 0 /\
   Fs.file_at Pages.baseRoutesPath
     (Samples.tree_of (Pages.generatePages ["faq"] Pages.page false
        (Samples.project Pages.baseRoutesPath Samples.routes_empty))) =
   Some Samples.routes_empty_faq) /\
  (Pages.max_order Samples.routes_forty 40 /\
   Fs.file_at Pages.baseRoutesPath
     (Samples.tree_of (Pages.generatePages ["faq"] Pages.page false
        (Samples.project Pages.baseRoutesPath Samples.routes_forty))) =
   Some Samples.routes_forty_faq).
Proof.
  split; [|split; [|split]].
  - intros content. exists (NavOrderFacts.largest content).
    apply NavOrderFacts.max_order_largest.
  - intros content m Hm Hsafe.
    split; [by apply NavOrderFacts.getNextNavOrder_exact|].
    intros pageName content' H.
    destruct (RouteMore.splice_order content pageName content' m Hm Hsafe H) as [Hi Ho].
    split; [exact Hi|]. by apply RouteMore.occurs_inside_occurrence.
  - split; [apply RouteMore.max_order_sample|]; vm_compute; reflexivity.
  - split; [apply RouteMore.max_order_sample|]; vm_compute; reflexivity.
Qed.

(** C3, amended, at the table whose largest order is 40: the entry of page
    [faq] is spliced with the order 50. *)
Lemma nav_order_max_plus_ten_witness :
  Pages.getNextNavOrder Samples.routes_forty = Js.Finite (40 + 10) /\
  Js.includes ("order: " +:+ Js.decimal (40 + 10) +:+ ", label: '")
    Samples.routes_forty_faq = true /\
  Pages.order_occurrence Samples.routes_forty_faq (40 + 10).
Proof.
  destruct nav_order_max_plus_ten as (_ & H & _ & Hforty & _).
  destruct (H Samples.routes_forty 40 Hforty) as [Hnext Hsplice].
  - vm_compute. reflexivity.
  - split; [exact Hnext|].
    apply (Hsplice "faq" Samples.routes_forty_faq). left. vm_compute. reflexivity.
Defined.


(** ** Page names that are slugs already *)
Module SlugFacts.
Import Prompts PromptsFacts.

Definition comma : ascii := ","%char.

Lemma split_plain s : comma ∉ Js.chars s -> Js.split comma s = [s].
Proof.
  induction s as [|c s IH]; [done|]. simpl. intros Hc.
  rewrite decide_False by (intros ->; apply Hc; left).
  rewrite IH; [done|]. intros H. apply Hc. by right.
Qed.

Lemma split_cons_nonempty s : Js.split comma s <> [].
Proof.
  induction s as [|c s IH]; [done|]. simpl. case_decide; [done|].
  by destruct (Js.split comma s).
Qed.

Lemma split_app_comma x rest :
  comma ∉ Js.chars x ->
  Js.split comma (x +:+ String comma rest) = x :: Js.split comma rest.
Proof.
  induction x as [|c x IH]; simpl; intros Hc.
  - done.
  - rewrite decide_False by (intros ->; apply Hc; left).
    rewrite IH; [done|]. intros H. apply Hc. by right.
Qed.

Lemma split_join l :
  l <> [] -> (forall s, s ∈ l -> comma ∉ Js.chars s) ->
  Js.split comma (Js.join "," l) = l.
Proof.
  induction l as [|x l IH]; [done|]. intros _ Hl. destruct l as [|y l].
  - simpl. apply split_plain, Hl. left.
  - change (Js.join "," (x :: y :: l)) with (x +:+ "," +:+ Js.join "," (y :: l)).
    change ("," +:+ Js.join "," (y :: l)) with (String comma (Js.join "," (y :: l))).
    rewrite split_app_comma by (apply Hl; left). f_equal. apply IH; [done|].
    intros s Hs. apply Hl. by right.
Qed.

Lemma slug_char_facts c :
  slug_char c = true ->
  c <> comma /\ Js.is_space c = false /\ Js.lower_char c = c.
Proof.
  destruct c as [[] [] [] [] [] [] [] []]; vm_compute; intros H; try discriminate H;
    (split; [discriminate|split; reflexivity]).
Qed.

Lemma trimStart_id s :
  (forall c, c ∈ Js.chars s -> Js.is_space c = false) -> Js.trimStart s = s.
Proof.
  destruct s as [|c s]; [done|]. simpl. intros H. by rewrite (H c) by left.
Qed.

Lemma trimEnd_id s :
  (forall c, c ∈ Js.chars s -> Js.is_space c = false) -> Js.trimEnd s = s.
Proof.
  induction s as [|c s IH]; [done|]. simpl. intros H.
  rewrite IH by (intros d Hd; apply H; by right).
  destruct s; [|done]. by rewrite (H c) by left.
Qed.

Lemma map_chars_id f s :
  (forall c, c ∈ Js.chars s -> f c = c) -> Js.map_chars f s = s.
Proof.
  induction s as [|c s IH]; [done|]. simpl. intros H.
  rewrite (H c) by left. f_equal. apply IH. intros d Hd. apply H. by right.
Qed.

Lemma no_double_of s :
  (forall a b, s <> a +:+ String hyphen (String hyphen b)) -> no_double s.
Proof.
  induction s as [|c s IH]; [done|]. intros H. split.
  - destruct s as [|d s]; [done|]. intros [-> ->]. by apply (H EmptyString s).
  - apply IH. intros a b ->. by apply (H (String c a) b).
Qed.

Lemma collapse_id s : no_double s -> collapse_hyphens s = s.
Proof.
  induction s as [|c s IH]; [done|]. intros [Hc Hs]%no_double_cons.
  destruct (collapse_cases c s) as [[_ ->]|[(-> & -> & ->)|[(-> & Hh & _)|(-> & _ & ->)]]].
  - by rewrite IH.
  - done.
  - by destruct Hc.
  - by rewrite IH.
Qed.

Lemma strip_trailing_id s :
  (forall r, s <> r +:+ String hyphen EmptyString) -> strip_trailing_hyphen s = s.
Proof.
  induction s as [|c s IH]; [done|]. intros H. destruct s as [|d s].
  - simpl. case_decide as Hc; [|done]. subst c. by destruct (H EmptyString).
  - rewrite strip_trailing_cons, IH; [done|]. intros r Hr.
    apply (H (String c r)). simpl. by rewrite Hr.
Qed.

Lemma sanitize_id s : valid_slug s -> sanitize s = s.
Proof.
  intros [Hne Hab Hlead Htrail Hdouble _]. unfold sanitize, replace_invalid.
  rewrite map_chars_id by (intros c Hc; by rewrite (Hab c Hc)).
  rewrite collapse_id by by apply no_double_of.
  unfold strip_edge_hyphens. destruct s as [|c s]; [done|].
  rewrite decide_False by (intros ->; by apply (Hlead s)).
  by apply strip_trailing_id.
Qed.

Lemma normalize_id s : valid_slug s -> Js.toLowerCase (Js.trim s) = s.
Proof.
  intros Hs. pose proof (slug_alphabet _ Hs) as Hab. unfold Js.trim, Js.toLowerCase.
  rewrite trimStart_id, trimEnd_id by (intros c Hc; by apply slug_char_facts, Hab).
  apply map_chars_id. intros c Hc. by apply slug_char_facts, Hab.
Qed.

Lemma parse_join names :
  Forall valid_slug names -> parsePageNames (Js.join "," names) = names.
Proof.
  intros Hall. destruct names as [|x names]; [done|].
  assert (forall s, s ∈ x :: names -> valid_slug s) as Hv by by apply list.Forall_forall.
  unfold parsePageNames.
  rewrite split_join; [|done|intros s Hs Hc; by apply (slug_char_facts _ (slug_alphabet _ (Hv s Hs) _ Hc))].
  assert (Js.trim (Js.join "," (x :: names)) <> EmptyString) as Hne.
  { pose proof (Hv x ltac:(left)) as Hx.
    assert (exists c r, Js.join "," (x :: names) = String c r /\ Js.is_space c = false)
      as (c & r & -> & Hc).
    { destruct x as [|c x]; [by destruct (slug_nonempty _ Hx)|].
      exists c. destruct names; simpl; eexists; (split; [done|]);
        apply slug_char_facts, (slug_alphabet _ Hx); left. }
    unfold Js.trim. simpl. rewrite Hc. simpl. by destruct (Js.trimEnd r); [rewrite Hc|]. }
  rewrite decide_False by done. generalize (x :: names) Hv. clear. intros l Hv.
  induction l as [|s l IH]; [done|].
  rewrite fmap_cons, (normalize_id s) by (apply Hv; left).
  rewrite filter_cons, decide_True by (apply slug_nonempty, Hv; left).
  rewrite fmap_cons, (sanitize_id s) by (apply Hv; left).
  rewrite filter_cons, decide_True.
  - f_equal. apply IH. intros s' Hs'. apply Hv. by right.
  - destruct (Hv s ltac:(left)). done.
Qed.

End SlugFacts.

(** X20. Page names that are slugs already come back as they are: the
    parser returns the list of valid slugs that were joined by commas, so
    parsing what a first parse returned changes nothing. *)
Theorem parsePageNames_round_trip :
  (forall names, Forall Prompts.valid_slug names ->
     Prompts.parsePageNames (Js.join "," names) = names) /\
  (forall input,
     Prompts.parsePageNames (Js.join "," (Prompts.parsePageNames input)) =
     Prompts.parsePageNames input).
Proof.
  split; [apply SlugFacts.parse_join|].
  intros input. apply SlugFacts.parse_join, list.Forall_forall.
  intros x. apply PromptsFacts.parsed_name_valid.
Qed.

(** X20, for two names. *)
Lemma parsePageNames_round_trip_witness :
  Prompts.parsePageNames (Js.join "," ["about-us"; "faq"]) = ["about-us"; "faq"].
Proof.
  apply (proj1 parsePageNames_round_trip ["about-us"; "faq"]).
  apply list.Forall_forall. intros x Hx. apply (PromptsFacts.parsed_name_valid "about-us,faq").
  vm_compute. vm_compute in Hx. exact Hx.
Defined.


(** ** Project names *)
Module ValidateFacts.
Import Prompts PromptsFacts SlugFacts Validate.

Lemma name_char_facts c :
  name_char c = true ->
  Js.is_space c = false /\ Js.lower_char c = c /\
  (edge_char c = false -> name_head c = true /\ c <> hyphen).
Proof.
  destruct c as [[] [] [] [] [] [] [] []]; vm_compute; intros H; try discriminate H;
    (split; [reflexivity|split; [reflexivity|]]); intros H'; try discriminate H';
    (split; [reflexivity|discriminate]).
Qed.

Lemma forallb_all {A} (f : A -> bool) l :
  (forall x, x ∈ l -> f x = true) -> forallb f l = true.
Proof.
  induction l as [|x l IH]; [done|]. intros H. simpl.
  rewrite (H x) by left. apply IH. intros y Hy. apply H. by right.
Qed.

Lemma existsb_none {A} (f : A -> bool) l :
  (forall x, x ∈ l -> f x = false) -> existsb f l = false.
Proof.
  induction l as [|x l IH]; [done|]. intros H. simpl.
  rewrite (H x) by left. apply IH. intros y Hy. apply H. by right.
Qed.

Lemma hyphen_facts : name_char hyphen = true /\ edge_char hyphen = true.
Proof. done. Qed.

Lemma replace_other_chars s c : c ∈ Js.chars (replace_other s) -> name_char c = true.
Proof.
  unfold replace_other. rewrite chars_map. intros (d & -> & _)%list_elem_of_fmap.
  by destruct (name_char d) eqn:E.
Qed.

Lemma strip_leading_chars s c : c ∈ Js.chars (strip_leading s) -> c ∈ Js.chars s.
Proof.
  induction s as [|d s IH]; [done|]. simpl. destruct (edge_char d); [|done].
  intros H. right. by apply IH.
Qed.

Lemma strip_leading_head s : forall c, head (strip_leading s) = Some c -> edge_char c = false.
Proof.
  induction s as [|d s IH]; [done|]. simpl. destruct (edge_char d) eqn:E; [exact IH|].
  by intros c [= <-].
Qed.

Lemma strip_trailing_chars' s c : c ∈ Js.chars (strip_trailing s) -> c ∈ Js.chars s.
Proof.
  revert c. induction s as [|d s IH]; [done|]. simpl. intros c.
  destruct (strip_trailing s) as [|e r] eqn:E.
  - destruct (edge_char d); [by intros ?%elem_of_nil|].
    intros [->|?%elem_of_nil]%elem_of_cons; [left|done].
  - intros [->|H]%elem_of_cons; [left|]. right. by apply IH.
Qed.

Lemma strip_trailing_head' s c :
  head s = Some c -> edge_char c = false -> head (strip_trailing s) = Some c.
Proof.
  destruct s as [|d s]; [done|]. simpl. intros [= ->] Hc.
  destruct (strip_trailing s); [by rewrite Hc|done].
Qed.

Lemma strip_trailing_empty' s : strip_trailing s = EmptyString -> strip_leading s = EmptyString.
Proof.
  induction s as [|d s IH]; [done|]. simpl.
  destruct (strip_trailing s) as [|e r]; [|done].
  destruct (edge_char d); [|done]. intros _. by apply IH.
Qed.

Lemma strip_trailing_last' s : forall c,
  last_char (strip_trailing s) = Some c -> edge_char c = false.
Proof.
  induction s as [|d s IH]; [done|]. simpl.
  destruct (strip_trailing s) as [|e r] eqn:E.
  - destruct (edge_char d) eqn:Ed; [done|]. by intros c [= <-].
  - intros c. simpl. specialize (IH c). simpl in IH.
    destruct (last_char r) as [l|]; [exact IH|]. intros [= <-]. by apply IH.
Qed.

Lemma strip_trailing_idem s :
  (forall c, last_char s = Some c -> edge_char c = false) -> strip_trailing s = s.
Proof.
  induction s as [|d s IH]; [done|]. simpl. intros H.
  destruct s as [|e r].
  - simpl. by rewrite (H d).
  - rewrite IH; [done|]. intros c Hc. apply H. by rewrite Hc.
Qed.

Lemma collapse_last s : last_char (collapse_hyphens s) = last_char s.
Proof.
  induction s as [|c s IH]; [done|].
  destruct (collapse_cases c s) as [[_ ->]|[(-> & -> & ->)|[(-> & Hh & ->)|(-> & _ & ->)]]].
  - simpl. by rewrite IH.
  - done.
  - rewrite IH. destruct s as [|d s]; [done|]. simpl. by destruct (last_char s).
  - simpl. by rewrite IH.
Qed.

Lemma spaces_to_hyphen_id s :
  (forall c, c ∈ Js.chars s -> Js.is_space c = false) -> spaces_to_hyphen s = s.
Proof.
  induction s as [|c s IH]; [done|]. simpl. intros H. rewrite (H c) by left.
  f_equal. apply IH. intros d Hd. apply H. by right.
Qed.

(** The shape of a sanitized name. *)
Lemma toValidProjectName_shape name :
  let n := toValidProjectName name in
  (forall c, c ∈ Js.chars n -> name_char c = true) /\
  (forall c, head n = Some c -> edge_char c = false) /\
  (forall c, last_char n = Some c -> edge_char c = false) /\
  no_double n.
Proof.
  unfold toValidProjectName.
  set (x := replace_other _). split; [|split; [|split]].
  - intros c Hc%collapse_chars%strip_trailing_chars'%strip_leading_chars.
    by eapply replace_other_chars.
  - intros c. rewrite collapse_head. intros Hc.
    destruct (strip_leading x) as [|d r] eqn:E; [done|].
    pose proof (strip_leading_head x d ltac:(by rewrite E)) as Hd.
    rewrite (strip_trailing_head' (String d r) d eq_refl Hd) in Hc. by injection Hc as <-.
  - intros c. rewrite collapse_last. apply strip_trailing_last'.
  - apply collapse_no_double.
Qed.

Lemma plain_of n :
  n <> EmptyString ->
  (forall c, c ∈ Js.chars n -> name_char c = true) ->
  (forall c, head n = Some c -> edge_char c = false) ->
  plain n = true.
Proof.
  destruct n as [|c r]; [done|]. intros _ Hab Hh. simpl.
  destruct (name_char_facts c (Hab c ltac:(left))) as (_ & _ & Hc).
  destruct (Hc (Hh c eq_refl)) as [-> _]. simpl.
  apply forallb_all. intros d Hd. apply Hab. by right.
Qed.

End ValidateFacts.

(** X21. What [toValidProjectName] returns is a valid project name, unless
    it is empty or longer than 214 characters: [validateProjectName]
    accepts it. *)
Theorem sanitized_name_is_valid name :
  Validate.toValidProjectName name <> EmptyString ->
  (String.length (Validate.toValidProjectName name) <= 214)%nat ->
  Validate.validateProjectName (Validate.toValidProjectName name) =
  {| Validate.name_valid := true; Validate.name_message := None |}.
Proof.
  intros Hne Hlen.
  destruct (ValidateFacts.toValidProjectName_shape name) as (Hab & Hh & _ & _).
  set (n := Validate.toValidProjectName name) in *.
  assert (forall c, c ∈ Js.chars n -> Js.is_space c = false) as Hsp.
  { intros c Hc. by apply ValidateFacts.name_char_facts, Hab. }
  unfold Validate.validateProjectName.
  rewrite (bool_decide_eq_false_2 (n = EmptyString)) by done.
  assert (Js.trim n = n) as ->.
  { unfold Js.trim. by rewrite SlugFacts.trimStart_id, SlugFacts.trimEnd_id. }
  rewrite (bool_decide_eq_false_2 (n = EmptyString)) by done. cbn [orb].
  assert (Js.toLowerCase n = n) as ->.
  { apply SlugFacts.map_chars_id. intros c Hc. by apply ValidateFacts.name_char_facts, Hab. }
  rewrite bool_decide_eq_true_2 by done. cbn [negb].
  assert (Validate.startsWith "."%char n || Validate.startsWith "_"%char n = false) as ->.
  { destruct n as [|c r]; [done|]. specialize (Hh c eq_refl). simpl.
    apply orb_false_intro; apply bool_decide_eq_false_2; by intros ->. }
  assert (existsb Js.is_space (Js.chars n) = false) as ->.
  { by apply ValidateFacts.existsb_none. }
  unfold Validate.name_pattern. rewrite ValidateFacts.plain_of by done. cbn [orb negb].
  by rewrite (proj2 (Nat.ltb_ge _ _) Hlen).
Qed.

(** X21, for a name with capitals, spaces and an underscore at the start. *)
Lemma sanitized_name_is_valid_witness :
  Validate.validateProjectName (Validate.toValidProjectName "  _My  Velocity Site!  ") =
  {| Validate.name_valid := true; Validate.name_message := None |}.
Proof.
  apply (sanitized_name_is_valid "  _My  Velocity Site!  ").
  - vm_compute. discriminate.
  - vm_compute. lia.
Defined.

(** X22. [toValidProjectName] is idempotent: a name that it returned comes
    back as it is. *)
Theorem toValidProjectName_idempotent name :
  Validate.toValidProjectName (Validate.toValidProjectName name) =
  Validate.toValidProjectName name.
Proof.
  destruct (ValidateFacts.toValidProjectName_shape name) as (Hab & Hh & Hl & Hd).
  set (n := Validate.toValidProjectName name) in *.
  assert (forall c, c ∈ Js.chars n -> Js.is_space c = false) as Hsp.
  { intros c Hc. by apply ValidateFacts.name_char_facts, Hab. }
  unfold Validate.toValidProjectName at 1.
  assert (Js.trim n = n) as ->.
  { unfold Js.trim. by rewrite SlugFacts.trimStart_id, SlugFacts.trimEnd_id. }
  assert (Js.toLowerCase n = n) as ->.
  { apply SlugFacts.map_chars_id. intros c Hc. by apply ValidateFacts.name_char_facts, Hab. }
  rewrite ValidateFacts.spaces_to_hyphen_id by done.
  assert (Validate.replace_other n = n) as ->.
  { apply SlugFacts.map_chars_id. intros c Hc. by rewrite (Hab c Hc). }
  assert (Validate.strip_leading n = n) as ->.
  { destruct n as [|c r]; [done|]. simpl. by rewrite (Hh c). }
  rewrite ValidateFacts.strip_trailing_idem by done.
  by apply SlugFacts.collapse_id.
Qed.


(** ** The [--components] flag *)
Module CliFacts.
Import Registry Cli.

Lemma valid_category_dir c :
  c ∈ validCategories -> ["src"; "components"; c] ∈ Scaffold.OPTIONAL_COMPONENT_DIRS.
Proof.
  unfold validCategories, Scaffold.OPTIONAL_COMPONENT_DIRS.
  rewrite !elem_of_cons, elem_of_nil. intros [->|[->|[->|[]]]]; auto.
Qed.

End CliFacts.

(** X23. A selection read from the [--components] flag is never by
    component: it has no component list, and it is [all] or [none] without
    categories, or [categories] with a list that is not empty and holds
    only [ui], [patterns] and [hero], each the name of an optional
    component directory. *)
Theorem parseComponentsFlag_selection value sel :
  Cli.parseComponentsFlag value = Some sel ->
  Registry.sel_components sel = None /\
  match Registry.sel_categories sel with
  | None => Registry.mode sel = Registry.mode_all \/ Registry.mode sel = Registry.mode_none
  | Some cs =>
      Registry.mode sel = Registry.mode_categories /\ cs <> [] /\
      forall c, c ∈ cs ->
        c ∈ Cli.validCategories /\
        ["src"; "components"; c] ∈ Scaffold.OPTIONAL_COMPONENT_DIRS
  end.
Proof.
  unfold Cli.parseComponentsFlag. destruct value as [|[]|s].
  - done.
  - intros [= <-]. simpl. auto.
  - intros [= <-]. simpl. auto.
  - destruct (_ || _); [intros [= <-]; simpl; auto|].
    destruct (_ || _); [intros [= <-]; simpl; auto|].
    case_bool_decide as Hn; intros [= <-]; simpl; [auto|].
    split; [done|]. split; [done|]. split.
    + intros E. by rewrite E in Hn.
    + intros c Hc%list_elem_of_filter. split; [apply Hc|apply CliFacts.valid_category_dir, Hc].
Qed.

(** X23, for a flag with a category in capitals, an unknown one and
    spaces. *)
Lemma parseComponentsFlag_selection_witness :
  Registry.sel_components
    {| Registry.mode := Registry.mode_categories;
       Registry.sel_categories := Some ["ui"; "hero"];
       Registry.sel_components := None |} = None /\
  match Registry.sel_categories
          {| Registry.mode := Registry.mode_categories;
             Registry.sel_categories := Some ["ui"; "hero"];
             Registry.sel_components := None |} with
  | None =>
      Registry.mode
        {| Registry.mode := Registry.mode_categories;
           Registry.sel_categories := Some ["ui"; "hero"];
           Registry.sel_components := None |} = Registry.mode_all \/
      Registry.mode
        {| Registry.mode := Registry.mode_categories;
           Registry.sel_categories := Some ["ui"; "hero"];
           Registry.sel_components := None |} = Registry.mode_none
  | Some cs =>
      Registry.mode
        {| Registry.mode := Registry.mode_categories;
           Registry.sel_categories := Some ["ui"; "hero"];
           Registry.sel_components := None |} = Registry.mode_categories /\ cs <> [] /\
      forall c, c ∈ cs ->
        c ∈ Cli.validCategories /\
        ["src"; "components"; c] ∈ Scaffold.OPTIONAL_COMPONENT_DIRS
  end.
Proof.
  apply (parseComponentsFlag_selection (Cli.FlagString " UI ,forms, hero")).
  vm_compute. reflexivity.
Defined.


(** ** [copyDirectory] *)
Module CopyDirectoryFacts.
Import Fs FsFacts Scaffold TreeFacts SelectionFacts GrowFacts CopyFacts FsUtils.

(** The body of the loop of [copyDirectory]. *)
Definition copyDirEntry (dest : path) (overwrite : bool) (name : string) (entry : node)
    (acc : result node) : result node :=
  t ← acc;
  match entry with
  | Dir _ => copyDirectory entry (dest ++ [name]) overwrite t
  | File content =>
      if overwrite || negb (existsSync (dest ++ [name]) t) then
        t ← ensureDir dest t;
        writeFileSync (dest ++ [name]) content t
      else Ok t
  end.

Lemma copyDirectory_Dir m dest overwrite t :
  copyDirectory (Dir m) dest overwrite t =
  ensureDir dest t ≫= fun t0 => map_fold (copyDirEntry dest overwrite) (Ok t0) m.
Proof. reflexivity. Qed.

Lemma ensureDir_there p t : is_Some (kind_at p t) -> ensureDir p t = Ok t.
Proof.
  intros H. unfold ensureDir. by rewrite existsSync_kind, bool_decide_eq_true_2.
Qed.

Lemma snoc_not_prefix (dest : path) k r : ~ dest ++ k :: r `prefix_of` dest.
Proof.
  intros [z Hz]. apply (f_equal length) in Hz. rewrite !length_app in Hz.
  simpl in Hz. lia.
Qed.

(** *** With [overwrite], the copy is [copyTemplateFiles] *)
Lemma entries_agree dest m :
  (forall k e, m !! k = Some e ->
     forall dest t, copyDirectory e dest true t = copyTemplateFiles e dest t) ->
  forall t0, is_Some (kind_at dest t0) ->
    map_fold (copyDirEntry dest true) (Ok t0) m = map_fold (copyEntry dest) (Ok t0) m.
Proof.
  induction m as [|k e m Hk Hfirst IH] using map_first_key_ind; intros Hm t0 Hdest.
  { by rewrite !map_fold_empty. }
  assert (forall k' e', m !! k' = Some e' -> <[k:=e]> m !! k' = Some e') as Hin.
  { intros k' e' H'. rewrite lookup_insert_ne; [done|]. intros <-. by rewrite Hk in H'. }
  rewrite !map_fold_insert_first_key by done.
  rewrite (IH (fun k' e' H' => Hm k' e' (Hin k' e' H')) t0 Hdest).
  destruct (map_fold (copyEntry dest) (Ok t0) m) as [t1|err] eqn:E; [|done].
  assert (is_Some (kind_at dest t1)) as Hdest1.
  { destruct (copy_entries_overlaid dest m
                (fun k' e' _ => copyTemplateFiles_overlaid e') t0 t1 Hdest E) as [_ _ R].
    rewrite R; [done|]. intros k' e' r _ Heq.
    apply (f_equal length) in Heq. rewrite length_app in Heq. simpl in Heq. lia. }
  unfold copyDirEntry, copyEntry. simpl. destruct e as [c|me].
  - cbn [orb]. by rewrite (ensureDir_there dest t1 Hdest1).
  - apply (Hm k). by rewrite lookup_insert_eq.
Qed.

Lemma copyDirectory_overwrite src :
  forall dest t, copyDirectory src dest true t = copyTemplateFiles src dest t.
Proof.
  induction src as [c|m IH] using node_ind'; intros dest t; [done|].
  rewrite copyDirectory_Dir, copyTemplateFiles_Dir.
  destruct (ensureDir dest t) as [t0|err] eqn:E; [|done]. simpl.
  apply entries_agree; [done|]. by apply ensureDir_kind in E as [? _].
Qed.

(** *** Without [overwrite] *)
Definition keeps (t t' : node) : Prop :=
  forall q k, kind_at q t = Some k -> kind_at q t' = Some k.

Lemma keeps_trans t1 t2 t3 : keeps t1 t2 -> keeps t2 t3 -> keeps t1 t3.
Proof. intros H1 H2 q k Hq. by apply H2, H1. Qed.

Record filled (src : node) (dest : path) (t t' : node) : Prop := {
  filled_keeps : keeps t t';
  filled_there : forall r, is_Some (kind_at r src) -> is_Some (kind_at (dest ++ r) t');
  filled_from : forall q k, kind_at q t' = Some k ->
    kind_at q t = Some k \/ (q `prefix_of` dest /\ k = IsDir) \/
    exists r, q = dest ++ r /\ kind_at r src = Some k
}.

Record entries_filled (m : gmap string node) (dest : path) (t0 t' : node) : Prop := {
  ef_keeps : keeps t0 t';
  ef_there : forall k e r,
    m !! k = Some e -> is_Some (kind_at r e) -> is_Some (kind_at (dest ++ k :: r) t');
  ef_from : forall q k, kind_at q t' = Some k ->
    kind_at q t0 = Some k \/
    exists x e r, m !! x = Some e /\ q = dest ++ x :: r /\ kind_at r e = Some k
}.

Lemma fill_entries dest m :
  (forall k e, m !! k = Some e ->
     forall dest t t', copyDirectory e dest false t = Ok t' -> filled e dest t t') ->
  forall t0 t', is_Some (kind_at dest t0) ->
    map_fold (copyDirEntry dest false) (Ok t0) m = Ok t' -> entries_filled m dest t0 t'.
Proof.
  induction m as [|k e m Hk Hfirst IH] using map_first_key_ind; intros Hm t0 t' Hdest.
  { rewrite map_fold_empty. intros [= <-]. split; [by intros q k Hq| |by intros q k Hq; left].
    intros k e r Hk. by rewrite lookup_empty in Hk. }
  assert (forall k' e', m !! k' = Some e' -> <[k:=e]> m !! k' = Some e') as Hin.
  { intros k' e' H'. rewrite lookup_insert_ne; [done|]. intros <-. by rewrite Hk in H'. }
  rewrite map_fold_insert_first_key by done. unfold copyDirEntry at 1.
  intros (t1 & H1 & He)%bind_Ok.
  destruct (IH (fun k' e' H' => Hm k' e' (Hin k' e' H')) t0 t1 Hdest H1) as [K1 T1 F1].
  assert (is_Some (kind_at dest t1)) as Hdest1.
  { destruct Hdest as [kd Hd]. exists kd. by apply K1. }
  (* the entry [k], from [t1] to [t'] *)
  assert (keeps t1 t' /\ (forall r, is_Some (kind_at r e) -> is_Some (kind_at (dest ++ k :: r) t')) /\
          forall q x, kind_at q t' = Some x ->
            kind_at q t1 = Some x \/ exists r, q = dest ++ k :: r /\ kind_at r e = Some x)
    as (K & T & F).
  { destruct e as [c|me].
    - cbn [orb] in He. destruct (existsSync (dest ++ [k]) t1) eqn:Ex; cbn [negb] in He.
      + injection He as <-. split; [by intros q x Hq|]. split; [|by intros q x Hq; left].
        intros [|y r]; [|by rewrite kind_at_cons; intros []].
        intros _. by apply existsSync_true.
      + rewrite (ensureDir_there dest t1 Hdest1) in He. simpl in He.
        assert (kind_at (dest ++ [k]) t1 = None) as Hnone.
        { rewrite existsSync_kind in Ex. apply bool_decide_eq_false in Ex.
          destruct (kind_at (dest ++ [k]) t1); [|done]. destruct Ex. by eexists. }
        split; [|split].
        * intros q x Hq. rewrite (kind_at_write _ _ _ _ q He).
          case_decide as Hd; [|done]. subst q. by rewrite Hnone in Hq.
        * intros [|y r]; [|by rewrite kind_at_cons; intros []].
          intros _. rewrite (kind_at_write _ _ _ _ _ He), decide_True by done. by eexists.
        * intros q x. rewrite (kind_at_write _ _ _ _ q He).
          case_decide as Hd; [|by left]. intros [= <-]. right. by exists [].
    - destruct (Hm k (Dir me) ltac:(by rewrite lookup_insert_eq) _ _ _ He) as [K T F].
      split; [done|]. split.
      + intros r Hr. rewrite cons_app_assoc. by apply T.
      + intros q x Hq. destruct (F q x Hq) as [Hq1|[[Hp ->]|(r & -> & Hr)]].
        * by left.
        * apply prefix_snoc in Hp as [Hp| ->].
          -- left. destruct (kind_at_prefix_dir q dest t1 Hp Hdest1) as [kq Hkq].
             rewrite Hkq. f_equal. apply K in Hkq. congruence.
          -- right. by exists [].
        * right. exists r. by rewrite <- cons_app_assoc. }
  split.
  - by eapply keeps_trans.
  - intros k' e' r Hk' Hr. rewrite lookup_insert in Hk'. case_decide; simplify_eq.
    + by apply T.
    + destruct (T1 k' e' r Hk' Hr) as [x Hx]. exists x. by apply K.
  - intros q x Hq. destruct (F q x Hq) as [Hq1|(r & -> & Hr)].
    + destruct (F1 q x Hq1) as [Hq0|(k' & e' & r & Hk' & -> & Hr)]; [by left|].
      right. exists k', e', r. split; [by apply Hin|done].
    + right. exists k, e, r. by rewrite lookup_insert_eq.
Qed.

Lemma copyDirectory_filled src :
  forall dest t t', copyDirectory src dest false t = Ok t' -> filled src dest t t'.
Proof.
  induction src as [c|m IH] using node_ind'; intros dest t t'; [done|].
  rewrite copyDirectory_Dir. intros (t0 & H0 & H)%bind_Ok.
  apply ensureDir_kind in H0 as [Hdest H0].
  destruct (fill_entries dest m IH t0 t' Hdest H) as [K T F].
  assert (keeps t t0) as K0.
  { intros q k Hq. rewrite H0. case_decide; by rewrite Hq. }
  split.
  - by eapply keeps_trans.
  - intros [|x r].
    + intros _. rewrite app_nil_r. destruct Hdest as [kd Hd]. exists kd. by apply K.
    + rewrite kind_at_cons. destruct (m !! x) as [e|] eqn:Hx; [|by intros []].
      simpl. by apply T.
  - intros q k Hq. destruct (F q k Hq) as [Hq0|(x & e & r & Hx & -> & Hr)].
    + rewrite H0 in Hq0. case_decide as Hp; [|by left].
      destruct (kind_at q t) as [kq|]; [by left|]. right. left.
      split; [done|]. simpl in Hq0. congruence.
    + right. right. exists (x :: r). split; [done|]. by rewrite kind_at_cons, Hx.
Qed.

(** The tree that a copy without [overwrite] leaves. *)
Definition filled_tree (src : node) (dest : path) (t : node) : node :=
  match copyDirectory src dest false t with Ok t' => t' | Err _ => t end.

End CopyDirectoryFacts.

(** X24. With [overwrite] set, [copyDirectory] does what [copyTemplateFiles]
    does, to the tree and in its errors; so [applyI18n] of the i18n feature
    and [applyI18nOverlay] of the scaffold are one function. *)
Theorem copyDirectory_overwrite_is_copyTemplateFiles :
  (forall src dest t,
     FsUtils.copyDirectory src dest true t = Scaffold.copyTemplateFiles src dest t) /\
  (forall i18nTemplate t,
     FsUtils.applyI18n i18nTemplate t = Scaffold.applyI18nOverlay i18nTemplate t).
Proof.
  split.
  - intros src. apply CopyDirectoryFacts.copyDirectory_overwrite.
  - intros [template|] t; [|done]. apply CopyDirectoryFacts.copyDirectory_overwrite.
Qed.

(** X25. A copy without [overwrite] that returns changes nothing that was
    there: every path of the tree keeps its kind and every file its
    content. What the source has at a path that was missing is at that
    path afterwards, and nothing else is made but the directories down to
    [dest]. *)
Theorem copyDirectory_fills src dest t t' :
  FsUtils.copyDirectory src dest false t = Ok t' ->
  (forall q k, Fs.kind_at q t = Some k -> Fs.kind_at q t' = Some k) /\
  (forall r k, Fs.kind_at r src = Some k -> Fs.kind_at (dest ++ r) t = None ->
     Fs.kind_at (dest ++ r) t' = Some k) /\
  (forall q, Fs.kind_at q t = None -> is_Some (Fs.kind_at q t') ->
     q `prefix_of` dest \/ exists r, q = dest ++ r /\ is_Some (Fs.kind_at r src)).
Proof.
  intros H. destruct (CopyDirectoryFacts.copyDirectory_filled src dest t t' H) as [K T F].
  split; [done|]. split.
  - intros r k Hr Hnone. destruct (T r) as [x Hx]; [by eexists|].
    rewrite Hx. f_equal.
    destruct (F _ _ Hx) as [Hq|[[Hp ->]|(r' & Heq & Hr')]].
    + by rewrite Hnone in Hq.
    + destruct r as [|y r]; [|by apply CopyDirectoryFacts.snoc_not_prefix in Hp].
      destruct src as [c|m]; [done|]. rewrite FsFacts.kind_at_nil in Hr. by injection Hr.
    + apply app_inv_head in Heq. subst r'. congruence.
  - intros q Hnone [x Hx]. destruct (F _ _ Hx) as [Hq|[[Hp _]|(r & -> & Hr)]].
    + by rewrite Hnone in Hq.
    + by left.
    + right. exists r. split; [done|by eexists].
Qed.

(** X25, for the i18n overlay copied onto the sample template. *)
Lemma copyDirectory_fills_witness :
  (forall q k, Fs.kind_at q Samples.template = Some k ->
     Fs.kind_at q (CopyDirectoryFacts.filled_tree Samples.i18n_overlay [] Samples.template)
     = Some k) /\
  (forall r k, Fs.kind_at r Samples.i18n_overlay = Some k ->
     Fs.kind_at ([] ++ r) Samples.template = None ->
     Fs.kind_at ([] ++ r)
       (CopyDirectoryFacts.filled_tree Samples.i18n_overlay [] Samples.template) = Some k) /\
  (forall q, Fs.kind_at q Samples.template = None ->
     is_Some (Fs.kind_at q
       (CopyDirectoryFacts.filled_tree Samples.i18n_overlay [] Samples.template)) ->
     q `prefix_of` [] \/
     exists r, q = [] ++ r /\ is_Some (Fs.kind_at r Samples.i18n_overlay)).
Proof.
  apply (copyDirectory_fills Samples.i18n_overlay [] Samples.template).
  vm_compute. reflexivity.
Defined.
